(** * Tournament progression engine: a shallow embedding of [TournamentManager]

    The definitions below follow the methods of the Python class
    [TournamentManager] (round-robin scheduling, group standings, playoff
    bracket construction, result propagation and final ranking).

    - A pandas frame is a list of rows; the row label produced by
      [iterrows] is the position in the list (the frames built by the
      class all carry a [RangeIndex]).
    - A set score is [option Z]: [None] is the value for which [pd.isna]
      answers true.
    - The dictionary [self.groups] is an association list in insertion
      order, [self.matches] a finite map.
    - A Python exception ([KeyError], [IndexError], [ValueError]) is
      [None] in the option monad; a method that returns normally gives
      [Some].
    - [update_playoff_results] writes to the frame it iterates over; whether
      the rows handed out by [iterrows] see these writes is a parameter
      ([RowAccess]), and every statement about that method holds for both
      answers.

    The file has three parts: the embedding, the auxiliary definitions the
    statements are written with (together with a small tournament played
    through, on which the statements are exercised), and the properties. *)

From Stdlib Require Import ZArith DecimalString DecimalNat.
From stdpp Require Import base option list sorting strings gmap.

Local Open Scope string_scope.
Local Open Scope list_scope.
Local Open Scope Z_scope.

(** ** Data model *)

(** A row of a group match table
    (columns "Squadra 1", "Squadra 2", "Set Squadra 1", "Set Squadra 2",
    "Vincitore"). *)
Record GroupMatch := mkGroupMatch {
  Squadra1 : string;
  Squadra2 : string;
  SetSquadra1 : option Z;
  SetSquadra2 : option Z;
  Vincitore : string
}.

(** A row of the playoff table: the same columns preceded by "Fase". *)
Record PlayoffMatch := mkPlayoffMatch {
  Fase : string;
  pSquadra1 : string;
  pSquadra2 : string;
  pSetSquadra1 : option Z;
  pSetSquadra2 : option Z;
  pVincitore : string
}.

(** A row of a standings table. *)
Record Standing := mkStanding {
  Team : string;
  MatchesPlayed : Z;
  Wins : Z;
  Losses : Z;
  SetsWon : Z;
  SetsLost : Z;
  Points : Z
}.

(** The frame returned by [calculate_group_standings]: [pd.DataFrame()]
    has no column at all, so reading its "Team" column raises. *)
Inductive StandingsFrame :=
  | NoColumns
  | Table (rows : list Standing).

(** The part of the manager's state the progression engine works on. *)
Record TournamentManager := mkTournamentManager {
  groups : list (string * list string);
  matches : gmap string (list GroupMatch);
  playoffs : list PlayoffMatch;
  final_standings : list (Z * string)
}.

(** Tournament settings, fixed by [__init__]. *)
Definition points_win : Z := 3.
Definition points_loss : Z := 0.
Definition points_tiebreak : Z := 1.

Global Instance GroupMatch_eq_dec : EqDecision GroupMatch.
Proof. solve_decision. Defined.
Global Instance PlayoffMatch_eq_dec : EqDecision PlayoffMatch.
Proof. solve_decision. Defined.
Global Instance Standing_eq_dec : EqDecision Standing.
Proof. solve_decision. Defined.

(** [self.groups[group]] *)
Definition groups_lookup (gs : list (string * list string)) (group : string)
  : option (list string) :=
  (λ ie : nat * (string * list string), ie.2.2) <$> list_find (λ e, e.1 = group) gs.

(** ** Match scheduler *)

Definition new_match (team1 team2 : string) : GroupMatch :=
  mkGroupMatch team1 team2 None None "".

(** The two nested [for] loops over [range(len(teams))] and
    [range(i + 1, len(teams))]. *)
Definition round_robin (teams : list string) : list GroupMatch :=
  i ← seq 0 (length teams);
  j ← seq (i + 1) (length teams - (i + 1));
  [new_match (teams !!! i) (teams !!! j)].

Definition generate_matches (tm : TournamentManager) : TournamentManager :=
  mkTournamentManager
    (groups tm)
    (foldl (λ acc e, <[e.1 := round_robin e.2]> acc) ∅ (groups tm))
    (playoffs tm)
    (final_standings tm).

(** ** Standings calculator *)

Definition set_Vincitore (w : string) (m : GroupMatch) : GroupMatch :=
  mkGroupMatch (Squadra1 m) (Squadra2 m) (SetSquadra1 m) (SetSquadra2 m) w.

(** Body of the loop of [update_match_results] for the row [row] labelled
    [idx]; [df] is the stored frame. *)
Definition update_match_row (df : list GroupMatch) (idx : nat) (row : GroupMatch)
  : list GroupMatch :=
  match SetSquadra1 row, SetSquadra2 row with
  | Some team1_sets, Some team2_sets =>
      if team1_sets >? team2_sets then
        alter (set_Vincitore (Squadra1 row)) idx df
      else if team2_sets >? team1_sets then
        alter (set_Vincitore (Squadra2 row)) idx df
      else
        alter (set_Vincitore "Draw") idx df
  | _, _ => alter (set_Vincitore "") idx df
  end.

(** [for idx, row in df.iterrows()]: the rows are visited by position.
    The loop body only reads the side names and the scores of a row, which
    it never writes, so the rows can be taken from the frame as supplied. *)
Definition update_match_loop (updated_df : list GroupMatch) : list GroupMatch :=
  foldl (λ df ir, update_match_row df ir.1 ir.2) updated_df (imap pair updated_df).

Definition update_match_results (tm : TournamentManager) (group : string)
    (updated_df : list GroupMatch) : TournamentManager :=
  mkTournamentManager
    (groups tm)
    (<[group := update_match_loop updated_df]> (matches tm))
    (playoffs tm)
    (final_standings tm).

(** A [for] loop whose body may raise. *)
Fixpoint for_each {S A : Type} (body : S → A → option S) (s : S) (l : list A)
  : option S :=
  match l with
  | [] => Some s
  | x :: l' => s' ← body s x; for_each body s' l'
  end.

Definition initial_standings (teams : list string) : list Standing :=
  (λ t, mkStanding t 0 0 0 0 0 0) <$> teams.

(** [standings[standings["Team"] == team].index[0]]: the label of the first
    row of that team, [IndexError] when there is none. *)
Definition team_index (standings : list Standing) (team : string) : option nat :=
  fst <$> list_find (λ r, Team r = team) standings.

(** "Matches Played" += 1, "Sets Won" += won, "Sets Lost" += lost *)
Definition add_played (won lost : Z) (r : Standing) : Standing :=
  mkStanding (Team r) (MatchesPlayed r + 1) (Wins r) (Losses r)
             (SetsWon r + won) (SetsLost r + lost) (Points r).

Definition add_win (r : Standing) : Standing :=
  mkStanding (Team r) (MatchesPlayed r) (Wins r + 1) (Losses r)
             (SetsWon r) (SetsLost r) (Points r).

Definition add_loss (r : Standing) : Standing :=
  mkStanding (Team r) (MatchesPlayed r) (Wins r) (Losses r + 1)
             (SetsWon r) (SetsLost r) (Points r).

Definition add_points (n : Z) (r : Standing) : Standing :=
  mkStanding (Team r) (MatchesPlayed r) (Wins r) (Losses r)
             (SetsWon r) (SetsLost r) (Points r + n).

(** Body of the loop "Process each match" of [calculate_group_standings]. *)
Definition standings_row (standings : list Standing) (match_ : GroupMatch)
  : option (list Standing) :=
  match SetSquadra1 match_, SetSquadra2 match_ with
  | Some sets1, Some sets2 =>
      team1_idx ← team_index standings (Squadra1 match_);
      let standings := alter (add_played sets1 sets2) team1_idx standings in
      team2_idx ← team_index standings (Squadra2 match_);
      let standings := alter (add_played sets2 sets1) team2_idx standings in
      if sets1 >? sets2 then
        let standings := alter add_win team1_idx standings in
        let standings := alter add_loss team2_idx standings in
        let standings := alter (add_points points_win) team1_idx standings in
        if (sets2 =? sets1 - 1) && (sets1 =? 3) then
          Some (alter (add_points points_tiebreak) team2_idx standings)
        else
          Some (alter (add_points points_loss) team2_idx standings)
      else if sets2 >? sets1 then
        let standings := alter add_win team2_idx standings in
        let standings := alter add_loss team1_idx standings in
        let standings := alter (add_points points_win) team2_idx standings in
        if (sets1 =? sets2 - 1) && (sets2 =? 3) then
          Some (alter (add_points points_tiebreak) team1_idx standings)
        else
          Some (alter (add_points points_loss) team1_idx standings)
      else Some standings
  | _, _ => Some standings
  end.

(** The helper column "Set Difference". *)
Definition set_difference (r : Standing) : Z := SetsWon r - SetsLost r.

(** Comparison of the sort keys ["Points", "Set Difference", "Sets Won"]
    under [ascending=False]: [true] when [a] may stand before [b]. *)
Definition key_geb (a b : Standing) : bool :=
  (Points a >? Points b) ||
  ((Points a =? Points b) &&
   ((set_difference a >? set_difference b) ||
    ((set_difference a =? set_difference b) && (SetsWon a >=? SetsWon b)))).

(** [sort_values] on several keys goes through a stable lexicographic sort:
    rows with the same keys keep their order.  A stable insertion sort
    stands for it. *)
Fixpoint insert_row (r : Standing) (l : list Standing) : list Standing :=
  match l with
  | [] => [r]
  | x :: l' => if key_geb r x then r :: x :: l' else x :: insert_row r l'
  end.

Definition sort_values (l : list Standing) : list Standing :=
  foldr insert_row [] l.

Definition calculate_group_standings (tm : TournamentManager) (group : string)
  : option StandingsFrame :=
  match matches tm !! group with
  | None => Some NoColumns
  | Some matches_df =>
      teams ← groups_lookup (groups tm) group;
      standings ← for_each standings_row (initial_standings teams) matches_df;
      Some (Table (sort_values standings))
  end.

(** [standings["Team"]] *)
Definition team_column (f : StandingsFrame) : option (list string) :=
  match f with
  | NoColumns => None
  | Table rows => Some (Team <$> rows)
  end.

(** ** Bracket builder *)

Definition new_playoff (fase team1 team2 : string) : PlayoffMatch :=
  mkPlayoffMatch fase team1 team2 None None "".

(** An entry [(group, team, pos)] of [qualified_teams]. *)
Definition Qualified : Type := string * string * nat.

Definition qualified_name (q : Qualified) : string := q.1.2.

(** The first-round loop: [for i in range(n)] pairing index [i] with index
    [total_teams - 1 - i], guarded by both indices being in range. *)
Definition first_round (fase : string) (n : nat) (qualified_teams : list Qualified)
  : list PlayoffMatch :=
  let total_teams := length qualified_teams in
  i ← seq 0 n;
  match qualified_teams !! i, qualified_teams !! (total_teams - 1 - i)%nat with
  | Some team1, Some team2 =>
      [new_playoff fase (qualified_name team1) (qualified_name team2)]
  | _, _ => []
  end.

(** The list [phases] built by [generate_playoffs] from the qualified
    teams. *)
Definition build_phases (qualified_teams : list Qualified) : list PlayoffMatch :=
  let total_teams := length qualified_teams in
  if decide (8 ≤ total_teams)%nat then
    first_round "Quarterfinals" 4 qualified_teams ++
    [ new_playoff "Semifinals" "QF1 Winner" "QF2 Winner";
      new_playoff "Semifinals" "QF3 Winner" "QF4 Winner";
      new_playoff "Finals" "SF1 Winner" "SF2 Winner";
      new_playoff "Third Place" "SF1 Loser" "SF2 Loser" ]
  else if decide (4 ≤ total_teams)%nat then
    first_round "Semifinals" 2 qualified_teams ++
    [ new_playoff "Finals" "SF1 Winner" "SF2 Winner";
      new_playoff "Third Place" "SF1 Loser" "SF2 Loser" ]
  else
    match qualified_teams with
    | q0 :: q1 :: _ =>
        [new_playoff "Finals" (qualified_name q0) (qualified_name q1)]
    | _ => []
    end.

(** The loop "Get top teams from each group": the first [teams_advancing]
    names of each group's standings, with group label and rank. *)
Definition qualified_of_group (tm : TournamentManager) (teams_advancing : nat)
    (acc : list Qualified) (group : string) : option (list Qualified) :=
  standings ← calculate_group_standings tm group;
  names ← team_column standings;
  Some (acc ++ imap (λ pos team, (group, team, pos)) (take teams_advancing names)).

Definition qualified_teams_of (tm : TournamentManager) (teams_advancing : nat)
  : option (list Qualified) :=
  for_each (qualified_of_group tm teams_advancing) [] ((groups tm).*1).

Definition generate_playoffs (tm : TournamentManager) (teams_advancing : nat)
  : option TournamentManager :=
  qualified_teams ← qualified_teams_of tm teams_advancing;
  Some (mkTournamentManager (groups tm) (matches tm)
          (build_phases qualified_teams) (final_standings tm)).

(** ** Bracket propagator *)

(** Decimal rendering of an integer inside an f-string. *)
Definition str_of_nat (n : nat) : string :=
  NilEmpty.string_of_uint (Nat.to_uint n).

(** f"QF{qf_number} Winner", f"SF{sf_number} Winner", f"SF{sf_number} Loser" *)
Definition qf_winner (qf_number : nat) : string :=
  "QF" +:+ str_of_nat qf_number +:+ " Winner".
Definition sf_winner (sf_number : nat) : string :=
  "SF" +:+ str_of_nat sf_number +:+ " Winner".
Definition sf_loser (sf_number : nat) : string :=
  "SF" +:+ str_of_nat sf_number +:+ " Loser".

Definition set_pSquadra1 (t : string) (m : PlayoffMatch) : PlayoffMatch :=
  mkPlayoffMatch (Fase m) t (pSquadra2 m) (pSetSquadra1 m) (pSetSquadra2 m)
                 (pVincitore m).

Definition set_pSquadra2 (t : string) (m : PlayoffMatch) : PlayoffMatch :=
  mkPlayoffMatch (Fase m) (pSquadra1 m) t (pSetSquadra1 m) (pSetSquadra2 m)
                 (pVincitore m).

Definition set_pVincitore (w : string) (m : PlayoffMatch) : PlayoffMatch :=
  mkPlayoffMatch (Fase m) (pSquadra1 m) (pSquadra2 m) (pSetSquadra1 m)
                 (pSetSquadra2 m) w.

(** How [iterrows] hands out the rows of the frame being written to: as
    copies taken when the loop starts, or as views that see the writes made
    by [.at] during the loop.  pandas does either, depending on the column
    types of the frame and on its version, so the loop of
    [update_playoff_results] is given for both. *)
Inductive RowAccess := RowCopy | RowView.

(** Body of an inner loop of [update_playoff_results]: [r] is a row of the
    selection, [j] its label, [p] the stored frame. *)
Definition substitute_row (placeholder name : string) (p : list PlayoffMatch)
    (j : nat) (r : PlayoffMatch) : list PlayoffMatch :=
  if decide (placeholder ∈ [pSquadra1 r; pSquadra2 r]) then
    if decide (pSquadra1 r = placeholder) then
      alter (set_pSquadra1 name) j p
    else
      alter (set_pSquadra2 name) j p
  else p.

(** [for j, r in self.playoffs[self.playoffs["Fase"] == fase].iterrows()]:
    selecting by a mask copies the selected rows when the loop starts. *)
Definition substitute (fase placeholder name : string) (p : list PlayoffMatch)
  : list PlayoffMatch :=
  foldl (λ acc jr, substitute_row placeholder name acc jr.1 jr.2) p
        (filter (λ jr, Fase jr.2 = fase) (imap pair p)).

(** Winner and loser of a row with both scores; both are empty when the
    scores are level. *)
Definition winner_loser (row : PlayoffMatch) (team1_sets team2_sets : Z)
  : string * string :=
  if team1_sets >? team2_sets then (pSquadra1 row, pSquadra2 row)
  else if team2_sets >? team1_sets then (pSquadra2 row, pSquadra1 row)
  else ("", "").

(** Body of the outer loop of [update_playoff_results] for the row [row]
    labelled [idx]. *)
Definition playoff_row (idx : nat) (row : PlayoffMatch) (p : list PlayoffMatch)
  : option (list PlayoffMatch) :=
  match pSetSquadra1 row, pSetSquadra2 row with
  | Some team1_sets, Some team2_sets =>
      let winner := (winner_loser row team1_sets team2_sets).1 in
      let loser := (winner_loser row team1_sets team2_sets).2 in
      let p := alter (set_pVincitore winner) idx p in
      if decide (Fase row = "Quarterfinals") then
        let qf_number := (idx + 1)%nat in
        Some (substitute "Semifinals" (qf_winner qf_number) winner p)
      else if decide (Fase row = "Semifinals") then
        (* min(self.playoffs[self.playoffs["Fase"] == "Semifinals"].index) *)
        first_sf ← fst <$> list_find (λ r, Fase r = "Semifinals") p;
        let sf_number := if decide (idx = first_sf) then 1%nat else 2%nat in
        let p := substitute "Finals" (sf_winner sf_number) winner p in
        Some (substitute "Third Place" (sf_loser sf_number) loser p)
      else Some p
  | _, _ => Some (alter (set_pVincitore "") idx p)
  end.

Definition update_playoff_loop (access : RowAccess) (updated_df : list PlayoffMatch)
  : option (list PlayoffMatch) :=
  for_each
    (λ p idx,
       row ← match access with RowCopy => updated_df | RowView => p end !! idx;
       playoff_row idx row p)
    updated_df (seq 0 (length updated_df)).

Definition update_playoff_results (access : RowAccess) (tm : TournamentManager)
    (updated_df : list PlayoffMatch) : option TournamentManager :=
  p ← update_playoff_loop access updated_df;
  Some (mkTournamentManager (groups tm) (matches tm) p (final_standings tm)).

Definition check_playoffs_complete (tm : TournamentManager) : bool :=
  if decide (playoffs tm = []) then false
  else negb (existsb (λ r, bool_decide (pSetSquadra1 r = None)) (playoffs tm) ||
             existsb (λ r, bool_decide (pSetSquadra2 r = None)) (playoffs tm)).

(** ** Final ranking assembler *)

(** [m["Squadra 1"] if m["Vincitore"] == m["Squadra 2"] else m["Squadra 2"]] *)
Definition other_side (m : PlayoffMatch) : string :=
  if decide (pVincitore m = pSquadra2 m) then pSquadra1 m else pSquadra2 m.

(** Body of the loop over a group's standings: a team not yet among the
    positions gets the next one. *)
Definition place_team (acc : list (Z * string) * Z) (team : string)
  : list (Z * string) * Z :=
  if decide (team ∈ acc.1.*2) then acc
  else (acc.1 ++ [(acc.2, team)], acc.2 + 1).

Definition place_group (tm : TournamentManager) (acc : list (Z * string) * Z)
    (group : string) : option (list (Z * string) * Z) :=
  standings ← calculate_group_standings tm group;
  names ← team_column standings;
  Some (foldl place_team acc names).

(** The positions read off the bracket: Final, Third-Place match,
    Quarterfinal losers.  [.iloc[0]] on the Finals raises when there is no
    Final. *)
Definition bracket_positions (p : list PlayoffMatch) : option (list (Z * string)) :=
  finals ← head (filter (λ r, Fase r = "Finals") p);
  let positions := [(1, pVincitore finals); (2, other_side finals)] in
  let positions :=
    match head (filter (λ r, Fase r = "Third Place") p) with
    | Some third => positions ++ [(3, pVincitore third); (4, other_side third)]
    | None => positions
    end in
  let qf_losers := other_side <$> filter (λ r, Fase r = "Quarterfinals") p in
  Some (positions ++ imap (λ i loser, (5 + Z.of_nat i, loser)) qf_losers).

Definition generate_final_standings (tm : TournamentManager)
  : option TournamentManager :=
  if decide (playoffs tm = []) then Some tm
  else if negb (check_playoffs_complete tm) then Some tm
  else
    positions ← bracket_positions (playoffs tm);
    let pos := Z.of_nat (length positions) + 1 in
    acc ← for_each (place_group tm) (positions, pos) ((groups tm).*1);
    Some (mkTournamentManager (groups tm) (matches tm) (playoffs tm) acc.1).

(** ** Auxiliary definitions used in the statements *)

(** The value the body of [update_match_results] writes into "Vincitore". *)
Definition group_winner (row : GroupMatch) : string :=
  match SetSquadra1 row, SetSquadra2 row with
  | Some team1_sets, Some team2_sets =>
      if team1_sets >? team2_sets then Squadra1 row
      else if team2_sets >? team1_sets then Squadra2 row
      else "Draw"
  | _, _ => ""
  end.

(** The pairs "team i against team j for all i < j", in the order of the
    team list: each team against every later one. *)
Fixpoint ordered_pairs (teams : list string) : list (string * string) :=
  match teams with
  | [] => []
  | t :: rest => ((λ u, (t, u)) <$> rest) ++ ordered_pairs rest
  end.

(** The match [m] is between the teams [a] and [b], whichever side each
    is on. *)
Definition plays (a b : string) (m : GroupMatch) : Prop :=
  (Squadra1 m = a ∧ Squadra2 m = b) ∨ (Squadra1 m = b ∧ Squadra2 m = a).

Global Instance plays_dec a b m : Decision (plays a b m).
Proof. unfold plays. apply _. Defined.

(** The "Points" cell of a team in a standings table. *)
Definition points_of (standings : list Standing) (team : string) : option Z :=
  i ← team_index standings team; Points <$> standings !! i.

(** Ranking order of the standings: more points first, then the larger set
    difference, then more sets won. *)
Definition ranks_before (a b : Standing) : Prop :=
  Points a > Points b ∨
  (Points a = Points b ∧
   (set_difference a > set_difference b ∨
    (set_difference a = set_difference b ∧ (SetsWon a >= SetsWon b)%Z))).

(** The labels [generate_playoffs] writes as sides of the later rounds. *)
Definition bracket_labels : list string :=
  [ "QF1 Winner"; "QF2 Winner"; "QF3 Winner"; "QF4 Winner";
    "SF1 Winner"; "SF2 Winner"; "SF1 Loser"; "SF2 Loser" ].

(** What an inner loop of [update_playoff_results] does to the stored row
    [cur] when the selected copy of that row is [r]. *)
Definition subst_side (placeholder name : string) (r cur : PlayoffMatch)
  : PlayoffMatch :=
  if decide (placeholder ∈ [pSquadra1 r; pSquadra2 r]) then
    if decide (pSquadra1 r = placeholder) then set_pSquadra1 name cur
    else set_pSquadra2 name cur
  else cur.

(** The row [r] after the inner loop over the rows of phase [fase]. *)
Definition substituted (fase placeholder name : string) (r : PlayoffMatch)
  : PlayoffMatch :=
  if decide (Fase r = fase) then subst_side placeholder name r r else r.

(** The value the body of [update_playoff_results] writes into "Vincitore". *)
Definition recorded_winner (row : PlayoffMatch) : string :=
  match pSetSquadra1 row, pSetSquadra2 row with
  | Some team1_sets, Some team2_sets => (winner_loser row team1_sets team2_sets).1
  | _, _ => ""
  end.

(** Relation between a row [r] and the same row [r'] after a label has been
    looked for on its sides: side 1 is replaced when it is the label,
    otherwise side 2 when it is the label, otherwise nothing. *)
Definition replaces_side (label name : string) (r r' : PlayoffMatch) : Prop :=
  (pSquadra1 r = label →
     pSquadra1 r' = name ∧ pSquadra2 r' = pSquadra2 r) ∧
  (pSquadra1 r ≠ label → pSquadra2 r = label →
     pSquadra1 r' = pSquadra1 r ∧ pSquadra2 r' = name) ∧
  (pSquadra1 r ≠ label → pSquadra2 r ≠ label →
     pSquadra1 r' = pSquadra1 r ∧ pSquadra2 r' = pSquadra2 r).

Definition keeps_sides (r r' : PlayoffMatch) : Prop :=
  pSquadra1 r' = pSquadra1 r ∧ pSquadra2 r' = pSquadra2 r.

(** Every group has its match table, and every played match of that table
    is between two teams of the group. *)
Definition group_tables_sound (tm : TournamentManager) : Prop :=
  ∀ group teams, groups_lookup (groups tm) group = Some teams →
    ∃ matches_df,
      matches tm !! group = Some matches_df ∧
      ∀ m, m ∈ matches_df →
        is_Some (SetSquadra1 m) → is_Some (SetSquadra2 m) →
        Squadra1 m ∈ teams ∧ Squadra2 m ∈ teams.

(** The team [t] has been assigned to a group. *)
Definition grouped (tm : TournamentManager) (t : string) : Prop :=
  ∃ group teams, groups_lookup (groups tm) group = Some teams ∧ t ∈ teams.

(** The side with more sets, and the side with fewer, of a played match. *)
Definition winning_side (m : PlayoffMatch) : string :=
  match pSetSquadra1 m, pSetSquadra2 m with
  | Some s1, Some s2 => if decide (s1 > s2) then pSquadra1 m else pSquadra2 m
  | _, _ => ""
  end.

Definition losing_side (m : PlayoffMatch) : string :=
  match pSetSquadra1 m, pSetSquadra2 m with
  | Some s1, Some s2 => if decide (s1 > s2) then pSquadra2 m else pSquadra1 m
  | _, _ => ""
  end.

(** A playoff match that has been played and recorded: both scores are
    present, they differ, and the winner field names the side with more
    sets. *)
Definition decided (m : PlayoffMatch) : Prop :=
  (∃ s1 s2, pSetSquadra1 m = Some s1 ∧ pSetSquadra2 m = Some s2 ∧ s1 ≠ s2) ∧
  pVincitore m = winning_side m.

Definition playoff_sides (m : PlayoffMatch) : list string :=
  [pSquadra1 m; pSquadra2 m].

(** A bracket of one of the three shapes built by [generate_playoffs], played
    through: every match is decided, the first round is between different
    teams, and every later match is between the winners (for the Third-Place
    match the losers) of the two matches that feed it. *)
Inductive resolved_bracket : list PlayoffMatch → Prop :=
  | resolved_final (f : PlayoffMatch) :
      Fase f = "Finals" → decided f → pSquadra1 f ≠ pSquadra2 f →
      resolved_bracket [f]
  | resolved_semifinals (s1 s2 f t : PlayoffMatch) :
      Fase s1 = "Semifinals" → Fase s2 = "Semifinals" →
      Fase f = "Finals" → Fase t = "Third Place" →
      decided s1 → decided s2 → decided f → decided t →
      NoDup (playoff_sides s1 ++ playoff_sides s2) →
      playoff_sides f = [winning_side s1; winning_side s2] →
      playoff_sides t = [losing_side s1; losing_side s2] →
      resolved_bracket [s1; s2; f; t]
  | resolved_quarterfinals (q1 q2 q3 q4 s1 s2 f t : PlayoffMatch) :
      Fase q1 = "Quarterfinals" → Fase q2 = "Quarterfinals" →
      Fase q3 = "Quarterfinals" → Fase q4 = "Quarterfinals" →
      Fase s1 = "Semifinals" → Fase s2 = "Semifinals" →
      Fase f = "Finals" → Fase t = "Third Place" →
      decided q1 → decided q2 → decided q3 → decided q4 →
      decided s1 → decided s2 → decided f → decided t →
      NoDup (playoff_sides q1 ++ playoff_sides q2 ++
             playoff_sides q3 ++ playoff_sides q4) →
      playoff_sides s1 = [winning_side q1; winning_side q2] →
      playoff_sides s2 = [winning_side q3; winning_side q4] →
      playoff_sides f = [winning_side s1; winning_side s2] →
      playoff_sides t = [losing_side s1; losing_side s2] →
      resolved_bracket [q1; q2; q3; q4; s1; s2; f; t].

(** The updates of a standings row never touch its "Team" cell. *)
Definition keeps_team (f : Standing → Standing) : Prop := ∀ r, Team (f r) = Team r.

(** State of the frame [p] after the rows before [k] of [df] have been
    visited. *)
Definition loop_inv (df p : list PlayoffMatch) (k : nat) : Prop :=
  length p = length df ∧
  ∀ j r, df !! j = Some r →
    ∃ r', p !! j = Some r' ∧
      Fase r' = Fase r ∧
      pSetSquadra1 r' = pSetSquadra1 r ∧
      pSetSquadra2 r' = pSetSquadra2 r ∧
      ((j < k)%nat →
         ∃ row, pSetSquadra1 row = pSetSquadra1 r ∧
                pSetSquadra2 row = pSetSquadra2 r ∧
                pVincitore r' = recorded_winner row).

(** The positions handed out so far are 1, 2, 3, ... and [acc.2] is the
    next one; no name has two positions. *)
Definition placed_in_order (acc : list (Z * string) * Z) : Prop :=
  acc.1.*1 = seqZ 1 (Z.of_nat (length acc.1)) ∧
  acc.2 = Z.of_nat (length acc.1) + 1 ∧
  NoDup acc.1.*2.


(** ** A tournament played through, used to exercise the statements *)

(** The edit of the two score cells of row [i] in the table editor. *)
Definition enter_group_result (i : nat) (a b : Z) (df : list GroupMatch)
  : list GroupMatch :=
  alter (λ m, mkGroupMatch (Squadra1 m) (Squadra2 m) (Some a) (Some b)
                           (Vincitore m)) i df.

Definition enter_result (i : nat) (a b : Z) (df : list PlayoffMatch)
  : list PlayoffMatch :=
  alter (λ m, mkPlayoffMatch (Fase m) (pSquadra1 m) (pSquadra2 m)
                             (Some a) (Some b) (pVincitore m)) i df.

Definition example_groups : list (string * list string) :=
  [ ("A", ["T1"; "T2"; "T3"; "T4"]); ("B", ["T5"; "T6"; "T7"; "T8"]) ].

Definition example_scheduled : TournamentManager :=
  generate_matches (mkTournamentManager example_groups ∅ [] []).

(** Results of the six matches of a group of four. *)
Definition example_group_results (df : list GroupMatch) : list GroupMatch :=
  enter_group_result 0 3 0 (enter_group_result 1 3 1 (enter_group_result 2 3 2
    (enter_group_result 3 3 0 (enter_group_result 4 2 3
       (enter_group_result 5 3 1 df))))).

Definition example_group_stage : TournamentManager :=
  let table g := default [] (matches example_scheduled !! g) in
  update_match_results
    (update_match_results example_scheduled "A" (example_group_results (table "A")))
    "B" (example_group_results (table "B")).

(** The playoffs of the example, entered round by round. *)
Definition example_finished (access : RowAccess) (teams_advancing : nat)
  : option TournamentManager :=
  tm ← generate_playoffs example_group_stage teams_advancing;
  match length (playoffs tm) with
  | 8%nat =>
      tm ← update_playoff_results access tm
             (enter_result 0 3 0 (enter_result 1 3 1 (enter_result 2 2 3
                (enter_result 3 0 3 (playoffs tm)))));
      tm ← update_playoff_results access tm
             (enter_result 4 3 2 (enter_result 5 1 3 (playoffs tm)));
      update_playoff_results access tm
        (enter_result 6 3 0 (enter_result 7 3 2 (playoffs tm)))
  | 4%nat =>
      tm ← update_playoff_results access tm
             (enter_result 0 3 2 (enter_result 1 1 3 (playoffs tm)));
      update_playoff_results access tm
        (enter_result 2 3 0 (enter_result 3 3 2 (playoffs tm)))
  | _ =>
      update_playoff_results access tm (enter_result 0 3 1 (playoffs tm))
  end.

Definition example_played (access : RowAccess) (teams_advancing : nat)
  : TournamentManager :=
  default example_group_stage (example_finished access teams_advancing).

(** A check that every side of the stored bracket is a grouped team, in a
    form that can be run. *)
Definition sides_checked (tm : TournamentManager) : Prop :=
  Forall
    (λ m, Forall
            (λ t, Exists (λ g, t ∈ default [] (groups_lookup (groups tm) g))
                         (groups tm).*1)
            [pSquadra1 m; pSquadra2 m])
    (playoffs tm).

(** A bracket with the first Quarterfinal ending level. *)
Definition example_level_quarterfinal : list PlayoffMatch :=
  enter_result 0 2 2
    (build_phases (imap (λ pos team, ("A", team, pos))
                     ["T1"; "T2"; "T3"; "T4"; "T5"; "T6"; "T7"; "T8"])).

(** A table in which a Semifinal carries the same label on both sides. *)
Definition example_doubled_label : list PlayoffMatch :=
  [ mkPlayoffMatch "Quarterfinals" "A" "B" (Some 3) (Some 1) "";
    mkPlayoffMatch "Semifinals" "QF1 Winner" "QF1 Winner" None None "" ].

(** A bracket of four in which the second Semifinal and the Final end
    level. *)
Definition example_bracket4 : TournamentManager :=
  default example_group_stage (generate_playoffs example_group_stage 2).

Definition example_level_entries : list PlayoffMatch :=
  enter_result 0 3 1 (enter_result 1 2 2 (enter_result 2 1 1
    (enter_result 3 3 0 (playoffs example_bracket4)))).

Definition example_level_final (access : RowAccess) : TournamentManager :=
  default example_bracket4
    (update_playoff_results access example_bracket4 example_level_entries).

(** A sufficient check of the group tables that can be run. *)
Definition tables_checked (tm : TournamentManager) : bool :=
  forallb
    (λ e : string * list string,
       match matches tm !! e.1 with
       | Some matches_df =>
           forallb (λ m, bool_decide (Squadra1 m ∈ e.2) &&
                         bool_decide (Squadra2 m ∈ e.2)) matches_df
       | None => false
       end)
    (groups tm).

(** What happens at [example_level_final]: every match has both scores, the
    Final is 1-1 between "T1" and the empty string, the bracket counts as
    complete, and the final standings give position 1 to the empty string
    and position 2 to "T1". *)
Definition level_final_outcome (access : RowAccess) : Prop :=
  Forall (λ m, is_Some (pSetSquadra1 m) ∧ is_Some (pSetSquadra2 m))
         (playoffs (example_level_final access)) ∧
  head (filter (λ r, Fase r = "Finals") (playoffs (example_level_final access)))
  = Some (mkPlayoffMatch "Finals" "T1" "" (Some 1) (Some 1) "") ∧
  check_playoffs_complete (example_level_final access) = true ∧
  ∃ tm',
    generate_final_standings (example_level_final access) = Some tm' ∧
    final_standings tm' !! 0%nat = Some (1, "") ∧
    final_standings tm' !! 1%nat = Some (2, "T1").

(** What happens at [example_doubled_label]: Quarterfinal 1 is resolved with
    winner "A", side 1 of the Semifinal becomes "A", side 2 keeps the
    label. *)
Definition doubled_label_outcome (access : RowAccess) : Prop :=
  ∃ tm',
    update_playoff_results access (mkTournamentManager [] ∅ [] [])
      example_doubled_label = Some tm' ∧
    (pVincitore <$> playoffs tm' !! 0%nat) = Some "A" ∧
    (pSquadra1 <$> playoffs tm' !! 1%nat) = Some "A" ∧
    (pSquadra2 <$> playoffs tm' !! 1%nat) = Some "QF1 Winner".

(** The playoffs of the example with the result of the first Quarterfinal
    revised (0-3 instead of 3-0) after its winner has been written into the
    Semifinal; the later rounds are entered afterwards, round by round. *)
Definition example_revised (access : RowAccess) : TournamentManager :=
  default example_group_stage
    (tm ← generate_playoffs example_group_stage 4;
     tm ← update_playoff_results access tm
            (enter_result 0 3 0 (enter_result 1 3 1 (enter_result 2 2 3
               (enter_result 3 0 3 (playoffs tm)))));
     tm ← update_playoff_results access tm (enter_result 0 0 3 (playoffs tm));
     tm ← update_playoff_results access tm
            (enter_result 4 3 2 (enter_result 5 1 3 (playoffs tm)));
     update_playoff_results access tm
       (enter_result 6 3 0 (enter_result 7 3 2 (playoffs tm)))).

(** What happens at [example_revised]: every side is a grouped team, every
    match has two different scores and the winner field of its side with
    more sets, but the first Semifinal still has "T1", who lost the revised
    Quarterfinal.  The bracket counts as complete, and the final standings
    have nine positions for the eight teams, "T1" at 1 and at 5. *)
Definition revised_outcome (access : RowAccess) : Prop :=
  playoffs (example_revised access)
  = [ mkPlayoffMatch "Quarterfinals" "T1" "T7" (Some 0) (Some 3) "T7";
      mkPlayoffMatch "Quarterfinals" "T2" "T8" (Some 3) (Some 1) "T2";
      mkPlayoffMatch "Quarterfinals" "T4" "T6" (Some 2) (Some 3) "T6";
      mkPlayoffMatch "Quarterfinals" "T3" "T5" (Some 0) (Some 3) "T5";
      mkPlayoffMatch "Semifinals" "T1" "T2" (Some 3) (Some 2) "T1";
      mkPlayoffMatch "Semifinals" "T6" "T5" (Some 1) (Some 3) "T5";
      mkPlayoffMatch "Finals" "T1" "T5" (Some 3) (Some 0) "T1";
      mkPlayoffMatch "Third Place" "T2" "T6" (Some 3) (Some 2) "T2" ] ∧
  concat (groups (example_revised access)).*2
  = ["T1"; "T2"; "T3"; "T4"; "T5"; "T6"; "T7"; "T8"] ∧
  check_playoffs_complete (example_revised access) = true ∧
  final_standings <$> generate_final_standings (example_revised access)
  = Some [ (1, "T1"); (2, "T5"); (3, "T2"); (4, "T6"); (5, "T1"); (6, "T8");
           (7, "T4"); (8, "T3"); (9, "T7") ].

(** The playoffs of the example with the Quarterfinals stored first and the
    results of the Semifinals, the Final and the Third-Place match stored
    together by one call. *)
Definition example_rounds_together (access : RowAccess) : TournamentManager :=
  default example_group_stage
    (tm ← generate_playoffs example_group_stage 4;
     tm ← update_playoff_results access tm
            (enter_result 0 3 0 (enter_result 1 3 1 (enter_result 2 2 3
               (enter_result 3 0 3 (playoffs tm)))));
     update_playoff_results access tm
       (enter_result 4 3 2 (enter_result 5 1 3 (enter_result 6 3 0
          (enter_result 7 3 2 (playoffs tm)))))).

(** What happens at [example_rounds_together] when the rows of the loop are
    copies: the sides of the Final and of the Third-Place match are the
    teams coming from the Semifinals, but their winner fields hold the
    labels read from the copies.  The bracket counts as complete, and the
    final standings have ten positions for the eight teams, position 1 going
    to the label "SF1 Winner". *)
Definition rounds_together_outcome : Prop :=
  playoffs (example_rounds_together RowCopy)
  = [ mkPlayoffMatch "Quarterfinals" "T1" "T7" (Some 3) (Some 0) "T1";
      mkPlayoffMatch "Quarterfinals" "T2" "T8" (Some 3) (Some 1) "T2";
      mkPlayoffMatch "Quarterfinals" "T4" "T6" (Some 2) (Some 3) "T6";
      mkPlayoffMatch "Quarterfinals" "T3" "T5" (Some 0) (Some 3) "T5";
      mkPlayoffMatch "Semifinals" "T1" "T2" (Some 3) (Some 2) "T1";
      mkPlayoffMatch "Semifinals" "T6" "T5" (Some 1) (Some 3) "T5";
      mkPlayoffMatch "Finals" "T1" "T5" (Some 3) (Some 0) "SF1 Winner";
      mkPlayoffMatch "Third Place" "T2" "T6" (Some 3) (Some 2) "SF1 Loser" ] ∧
  check_playoffs_complete (example_rounds_together RowCopy) = true ∧
  final_standings <$> generate_final_standings (example_rounds_together RowCopy)
  = Some [ (1, "SF1 Winner"); (2, "T5"); (3, "SF1 Loser"); (4, "T6");
           (5, "T7"); (6, "T8"); (7, "T4"); (8, "T3"); (9, "T1"); (10, "T2") ].

(** ** Roster, group assignment and the completeness check of the groups *)

(** A row of [self.teams]. *)
Record TeamEntry := mkTeamEntry {
  NomeSquadra : string;
  Referente : string;
  Contatto : string;
  QuotaPagata : string;
  Note : string
}.

(** [__init__]: no team, no group, no table, no bracket, no standings. *)
Definition initial_roster : list TeamEntry := [].
Definition initial_manager : TournamentManager := mkTournamentManager [] ∅ [] [].

(** [add_team]: the returned flag and the roster afterwards. *)
Definition add_team (teams : list TeamEntry)
    (name contact_person contact_info payment_status notes : string)
  : bool * list TeamEntry :=
  if decide (name ∈ NomeSquadra <$> teams) then (false, teams)
  else (true, teams ++ [mkTeamEntry name contact_person contact_info
                                    payment_status notes]).

(** [chr(65 + i)]: a one-character label.  The character is an ASCII one as
    long as [65 + i < 128], which is the range the model covers. *)
Definition group_label (i : nat) : string :=
  String (Ascii.ascii_of_nat (65 + i)) "".

(** [self.groups[group] = teams]: an existing key keeps its place, a new one
    goes to the end. *)
Definition groups_set (gs : list (string * list string)) (group : string)
    (teams : list string) : list (string * list string) :=
  if decide (group ∈ gs.*1) then
    (λ e : string * list string, if decide (e.1 = group) then (group, teams) else e)
    <$> gs
  else gs ++ [(group, teams)].

(** Body of the loop "Assign teams to groups" of [create_groups]:
    [team_names[start_idx:min(end_idx, len(team_names))]] for group [i]. *)
Definition assign_group (team_names : list string) (teams_per_group : nat)
    (gs : list (string * list string)) (i : nat) : list (string * list string) :=
  let start_idx := (i * teams_per_group)%nat in
  let end_idx := (start_idx + teams_per_group)%nat in
  if decide (start_idx < length team_names)%nat then
    groups_set gs (group_label i)
      (take (end_idx `min` length team_names - start_idx)
            (drop start_idx team_names))
  else gs.

(** [create_groups].  [shuffle] stands for [np.random.shuffle]: some
    rearrangement of the list of names.  The groups and the match tables are
    reset; the stored bracket and final standings are not touched. *)
Definition create_groups (shuffle : list string → list string)
    (teams : list TeamEntry) (tm : TournamentManager)
    (num_groups teams_per_group : nat) : TournamentManager :=
  let team_names := shuffle (NomeSquadra <$> teams) in
  mkTournamentManager
    (foldl (assign_group team_names teams_per_group) [] (seq 0 num_groups))
    ∅ (playoffs tm) (final_standings tm).

(** The loop of [check_groups_complete] over the tables, in the order of the
    dictionary.  A table without rows is the frame [pd.DataFrame([])] that
    [generate_matches] stores for a group with fewer than two teams; it has
    no column, so reading "Set Squadra 1" from it raises. *)
Fixpoint check_tables (tables : list (list GroupMatch)) : option bool :=
  match tables with
  | [] => Some true
  | matches_df :: rest =>
      if decide (matches_df = []) then None
      else if existsb (λ m, bool_decide (SetSquadra1 m = None)) matches_df ||
              existsb (λ m, bool_decide (SetSquadra2 m = None)) matches_df
      then Some false
      else check_tables rest
  end.

(** [check_groups_complete]; [items] is [self.matches.items()], the entries
    of the dictionary in its order. *)
Definition check_groups_complete (items : list (string * list GroupMatch))
  : option bool :=
  if decide (items = []) then Some false else check_tables items.*2.

(** A match with both scores entered. *)
Definition played (m : GroupMatch) : Prop :=
  is_Some (SetSquadra1 m) ∧ is_Some (SetSquadra2 m).

Global Instance played_dec m : Decision (played m).
Proof. unfold played. apply _. Defined.

(** Column totals of a standings table. *)
Definition total (column : Standing → Z) (rows : list Standing) : Z :=
  foldr Z.add 0 (column <$> rows).

(** The values [create_groups] is run with in the examples: the names are
    reversed instead of shuffled. *)
Definition example_roster : list TeamEntry :=
  (λ n, mkTeamEntry n "" "" "Yes" "") <$> ["T1"; "T2"; "T3"; "T4"; "T5"].

Definition example_created : TournamentManager :=
  create_groups reverse example_roster initial_manager 3 2.

(** Submitting the registration form with the data of [e]. *)
Definition register (teams : list TeamEntry) (e : TeamEntry) : list TeamEntry :=
  (add_team teams (NomeSquadra e) (Referente e) (Contatto e) (QuotaPagata e)
            (Note e)).2.

(** The slice of the names that group [i] receives. *)
Definition group_slice (team_names : list string) (teams_per_group i : nat)
  : list string :=
  take teams_per_group (drop (i * teams_per_group) team_names).

(** A cell of a team's row in a standings table. *)
Definition cell (column : Standing → Z) (standings : list Standing)
    (team : string) : option Z :=
  i ← team_index standings team; column <$> standings !! i.

(** Bounds that relate the counters of one standings row. *)
Definition row_consistent (r : Standing) : Prop :=
  0 ≤ Wins r ∧ 0 ≤ Losses r ∧
  Wins r + Losses r ≤ MatchesPlayed r ∧
  points_win * Wins r ≤ Points r ≤ points_win * Wins r + points_tiebreak * Losses r.

(** The manager with the table of [group] replaced. *)
Definition with_table (tm : TournamentManager) (group : string)
    (matches_df : list GroupMatch) : TournamentManager :=
  mkTournamentManager (groups tm) (<[group := matches_df]> (matches tm))
                      (playoffs tm) (final_standings tm).

(** The example tournament after the first result of group "A" only. *)
Definition example_first_result : TournamentManager :=
  update_match_results example_scheduled "A"
    (enter_group_result 0 3 1 (default [] (matches example_scheduled !! "A"))).

(** The groups of [example_created] with every scheduled match played: the
    single team of group "C" has no match. *)
Definition example_odd_stage : TournamentManager :=
  let tm := generate_matches example_created in
  let table g := default [] (matches tm !! g) in
  update_match_results
    (update_match_results tm "A" (enter_group_result 0 3 1 (table "A")))
    "B" (enter_group_result 0 2 3 (table "B")).

(** The entries a group adds to [qualified_teams]: the first
    [teams_advancing] teams of its standings, with the group label and the
    rank. *)
Definition group_qualifiers (teams_advancing : nat) (group : string)
    (rows : list Standing) : list Qualified :=
  imap (λ pos team, (group, team, pos)) (take teams_advancing (Team <$> rows)).

(** * Properties *)

(** ** Loops over the rows of a frame *)

Lemma foldl_pointwise {S B : Type} (f h : S → B → S) (l : list B) (s : S) :
  (∀ a b, f a b = h a b) → foldl f s l = foldl h s l.
Proof.
  intros E. revert s. induction l as [|b l IH]; intros s; simpl; [done|].
  by rewrite E, IH.
Qed.

Lemma filter_everything {B : Type} (Q : B → Prop) `{!∀ x, Decision (Q x)}
    (l : list B) :
  (∀ x, Q x) → filter Q l = l.
Proof.
  intros HQ. induction l as [|x l IH]; [done|].
  rewrite filter_cons, IH. destruct (decide (Q x)) as [|n]; [done|]. destruct n. apply HQ.
Qed.

Section iterrows.
Context {A : Type} (P : A → Prop) `{!∀ x, Decision (P x)} (g : A → A → A).

(** A loop over the selected rows of [l] that rewrites, in the frame [df],
    the row with the same label. *)
Lemma iterrows_alter_lookup (l df : list A) (j : nat) :
  foldl (λ acc jr, alter (g jr.2) jr.1 acc) df
        (filter (λ jr, P jr.2) (imap pair l)) !! j
  = match l !! j with
    | Some x => if decide (P x) then g x <$> df !! j else df !! j
    | None => df !! j
    end.
Proof.
  induction l as [|x l IH] using rev_ind; [done|].
  rewrite imap_app, filter_app, foldl_app. simpl.
  rewrite Nat.add_0_r.
  destruct (decide (j < length l)%nat) as [Hlt|Hge].
  - rewrite (lookup_app_l l) by done.
    assert (foldl (λ acc jr, alter (g jr.2) jr.1 acc)
              (foldl (λ acc jr, alter (g jr.2) jr.1 acc) df
                 (filter (λ jr, P jr.2) (imap pair l)))
              (filter (λ jr : nat * A, P jr.2) [(length l, x)]) !! j
            = foldl (λ acc jr, alter (g jr.2) jr.1 acc) df
                 (filter (λ jr, P jr.2) (imap pair l)) !! j) as ->; [|done].
    rewrite filter_cons. simpl. destruct (decide (P x)); simpl; [|done].
    apply list_lookup_alter_ne. lia.
  - rewrite (lookup_ge_None_2 l j) in IH by lia.
    rewrite filter_cons. simpl.
    destruct (decide (j = length l)) as [->|Hne].
    + rewrite list_lookup_middle by done.
      destruct (decide (P x)); simpl; [|done].
      by rewrite list_lookup_alter_eq, IH.
    + rewrite (lookup_ge_None_2 (l ++ [x])) by (rewrite length_app; simpl; lia).
      destruct (decide (P x)); simpl; [|done].
      by rewrite list_lookup_alter_ne.
Qed.

Lemma iterrows_alter_self (l : list A) :
  foldl (λ acc jr, alter (g jr.2) jr.1 acc) l
        (filter (λ jr, P jr.2) (imap pair l))
  = (λ x, if decide (P x) then g x x else x) <$> l.
Proof.
  apply list_eq. intros j.
  rewrite iterrows_alter_lookup, list_lookup_fmap.
  destruct (l !! j) as [x|]; simpl; [|done].
  by destruct (decide (P x)).
Qed.
End iterrows.

(** Rewriting a row in a way that does not change whether it is selected
    does not change the label of the first selected row. *)
Lemma list_find_alter_fst {A} (P : A → Prop) `{!∀ x, Decision (P x)}
    (f : A → A) (i : nat) (l : list A) :
  (∀ x, P (f x) ↔ P x) →
  fst <$> list_find P (alter f i l) = fst <$> list_find P l.
Proof.
  intros Hf. revert i. induction l as [|x l IH]; intros i; [done|].
  destruct i as [|i]; simpl.
  - destruct (decide (P (f x))) as [Hp|Hp], (decide (P x)) as [Hq|Hq];
      try done; destruct (Hf x); tauto.
  - destruct (decide (P x)); [done|].
    specialize (IH i). change (list_alter f i l) with (alter f i l).
    destruct (list_find P (alter f i l)) as [[j y]|],
             (list_find P l) as [[j' y']|]; simpl in *; congruence.
Qed.

Lemma list_find_fmap_fst {A} (P : A → Prop) `{!∀ x, Decision (P x)}
    (f : A → A) (l : list A) :
  (∀ x, P (f x) ↔ P x) →
  fst <$> list_find P (f <$> l) = fst <$> list_find P l.
Proof.
  intros Hf. induction l as [|x l IH]; [done|]. simpl.
  destruct (decide (P (f x))) as [Hp|Hp], (decide (P x)) as [Hq|Hq];
    try done; try (destruct (Hf x); tauto).
  change (list_fmap A A f l) with (f <$> l).
  destruct (list_find P (f <$> l)) as [[j y]|],
           (list_find P l) as [[j' y']|]; simpl in *; congruence.
Qed.

(** ** Bracket labels *)

Lemma string_length_app (s t : string) :
  String.length (s +:+ t) = (String.length s + String.length t)%nat.
Proof. induction s as [|c s IH]; simpl; [done|]. by rewrite IH. Qed.

Lemma string_app_inj_r (s1 s2 t : string) : s1 +:+ t = s2 +:+ t → s1 = s2.
Proof.
  revert s2. induction s1 as [|c s1 IH]; intros [|c2 s2] E.
  - done.
  - apply (f_equal String.length) in E.
    rewrite !string_length_app in E. simpl in E. lia.
  - apply (f_equal String.length) in E.
    rewrite !string_length_app in E. simpl in E. lia.
  - simpl in E. injection E as -> E. f_equal. by apply IH.
Qed.

Lemma str_of_nat_inj (n k : nat) : str_of_nat n = str_of_nat k → n = k.
Proof.
  unfold str_of_nat. intros E. apply Unsigned.to_uint_inj.
  apply (f_equal NilEmpty.uint_of_string) in E.
  rewrite !NilEmpty.usu in E. congruence.
Qed.

Lemma qf_winner_inj (n k : nat) : qf_winner n = qf_winner k → n = k.
Proof.
  unfold qf_winner. intros E. apply (inj (String.app "QF")) in E.
  by apply string_app_inj_r, str_of_nat_inj in E.
Qed.

Lemma sf_winner_inj (n k : nat) : sf_winner n = sf_winner k → n = k.
Proof.
  unfold sf_winner. intros E. apply (inj (String.app "SF")) in E.
  by apply string_app_inj_r, str_of_nat_inj in E.
Qed.

Lemma sf_loser_inj (n k : nat) : sf_loser n = sf_loser k → n = k.
Proof.
  unfold sf_loser. intros E. apply (inj (String.app "SF")) in E.
  by apply string_app_inj_r, str_of_nat_inj in E.
Qed.

(** ** Winner field of the group matches *)

Lemma update_match_row_alter (df : list GroupMatch) (idx : nat) (row : GroupMatch) :
  update_match_row df idx row = alter (set_Vincitore (group_winner row)) idx df.
Proof.
  unfold update_match_row, group_winner.
  destruct (SetSquadra1 row) as [a|], (SetSquadra2 row) as [b|]; try done.
  by destruct (a >? b), (b >? a).
Qed.

Lemma update_match_loop_fmap (updated_df : list GroupMatch) :
  update_match_loop updated_df
  = (λ m, set_Vincitore (group_winner m) m) <$> updated_df.
Proof.
  unfold update_match_loop.
  pose proof (iterrows_alter_self (λ _ : GroupMatch, True)
                (λ row, set_Vincitore (group_winner row)) updated_df) as E.
  rewrite (filter_everything _ (imap pair updated_df)) in E by done.
  etrans; [|etrans; [exact E|]].
  - apply foldl_pointwise. intros df [i row]. apply update_match_row_alter.
  - apply list_fmap_ext. intros i m _. by destruct (decide True).
Qed.

(** C3.  After [update_match_results(group, df)] the stored table of the
    group has the rows of [df], in the same order and with the same sides
    and scores, and the winner field of every row is: side 1's name when
    both scores are present and the first is larger, side 2's name when both
    are present and the second is larger, "Draw" when both are present and
    equal, and the empty string when a score is absent.  Hence, for sides
    named neither "" nor "Draw", the winner field is a team name other than
    "Draw" exactly when both scores are present and differ. *)
Theorem update_match_results_winner (tm : TournamentManager) (group : string)
    (updated_df : list GroupMatch) :
  ∃ stored,
    matches (update_match_results tm group updated_df) !! group = Some stored ∧
    length stored = length updated_df ∧
    ∀ i m, stored !! i = Some m →
      ∃ m0, updated_df !! i = Some m0 ∧
        Squadra1 m = Squadra1 m0 ∧ Squadra2 m = Squadra2 m0 ∧
        SetSquadra1 m = SetSquadra1 m0 ∧ SetSquadra2 m = SetSquadra2 m0 ∧
        (∀ s1 s2, SetSquadra1 m = Some s1 → SetSquadra2 m = Some s2 →
           s1 > s2 → Vincitore m = Squadra1 m) ∧
        (∀ s1 s2, SetSquadra1 m = Some s1 → SetSquadra2 m = Some s2 →
           s2 > s1 → Vincitore m = Squadra2 m) ∧
        (∀ s, SetSquadra1 m = Some s → SetSquadra2 m = Some s →
           Vincitore m = "Draw") ∧
        (SetSquadra1 m = None ∨ SetSquadra2 m = None → Vincitore m = "") ∧
        (Squadra1 m ≠ "" → Squadra1 m ≠ "Draw" →
         Squadra2 m ≠ "" → Squadra2 m ≠ "Draw" →
         (Vincitore m ≠ "" ∧ Vincitore m ≠ "Draw" ↔
          ∃ s1 s2, SetSquadra1 m = Some s1 ∧ SetSquadra2 m = Some s2 ∧ s1 ≠ s2)).
Proof.
  exists (update_match_loop updated_df). split; [|split].
  - unfold update_match_results. simpl. apply lookup_insert_eq.
  - rewrite update_match_loop_fmap. apply length_fmap.
  - intros i m. rewrite update_match_loop_fmap, list_lookup_fmap.
    intros (m0 & Hm0 & ->)%fmap_Some. exists m0. split; [done|].
    unfold set_Vincitore, group_winner; simpl.
    destruct (SetSquadra1 m0) as [a|] eqn:Ea, (SetSquadra2 m0) as [b|] eqn:Eb;
      split_and!; try done;
      try (intros [?|?]; done);
      try (intros _ _ _ _; split; [intros [? ?]; done|intros (? & ? & ? & ? & ?); done]).
    + intros s1 s2 [= <-] [= <-] ?. destruct (Z.gtb_spec a b); [done|lia].
    + intros s1 s2 [= <-] [= <-] ?.
      destruct (Z.gtb_spec a b); [lia|]. destruct (Z.gtb_spec b a); [done|lia].
    + intros s [= <-] [= <-]. by rewrite Z.gtb_ltb, Z.ltb_irrefl.
    + intros ? ? ? ?. split.
      * intros [_ Hd]. exists a, b. split_and!; try done. intros ->.
        by rewrite Z.gtb_ltb, Z.ltb_irrefl in Hd.
      * intros (s1 & s2 & [= <-] & [= <-] & Hne).
        destruct (Z.gtb_spec a b); [done|]. destruct (Z.gtb_spec b a); [done|lia].
Qed.

(** ** Round-robin schedule *)

Lemma bind_singleton_fmap {A B} (g : A → B) (l : list A) :
  (x ← l; [g x]) = g <$> l.
Proof. induction l as [|x l IH]; [done|]. cbn. by rewrite IH. Qed.

Lemma bind_pointwise {A B} (f g : A → list B) (l : list A) :
  (∀ x, x ∈ l → f x = g x) → (l ≫= f) = (l ≫= g).
Proof.
  induction l as [|x l IH]; intros E; [done|]. rewrite !bind_cons.
  rewrite (E x) by left. rewrite IH; [done|].
  intros y Hy. apply E. by right.
Qed.

Lemma lookup_total_tail (t : string) (rest : list string) :
  (λ j, (t :: rest) !!! j) <$> seq 1 (length rest) = rest.
Proof.
  rewrite <- fmap_S_seq, <- list_fmap_compose.
  apply list_eq. intros i. rewrite list_lookup_fmap.
  destruct (decide (i < length rest)%nat) as [Hlt|Hge].
  - rewrite lookup_seq_lt by done. simpl.
    destruct (lookup_lt_is_Some_2 rest i Hlt) as [x Hx].
    rewrite Hx. f_equal. by apply list_lookup_total_correct.
  - rewrite lookup_seq_ge by lia. simpl. symmetry. apply lookup_ge_None_2. lia.
Qed.

Lemma round_robin_cons (t : string) (rest : list string) :
  round_robin (t :: rest) = (new_match t <$> rest) ++ round_robin rest.
Proof.
  unfold round_robin. simpl length.
  change (seq 0 (S (length rest))) with (0%nat :: seq 1 (length rest)).
  rewrite bind_cons. f_equal.
  - simpl. rewrite Nat.sub_0_r, bind_singleton_fmap.
    rewrite <- (lookup_total_tail t rest) at 2.
    by rewrite <- list_fmap_compose.
  - rewrite <- fmap_S_seq, list_fmap_bind.
    apply bind_pointwise. intros i _. simpl.
    replace (S (length rest) - S (i + 1))%nat
      with (length rest - (i + 1))%nat by lia.
    change (S (i + 1)) with (S (i + 1)%nat).
    rewrite <- fmap_S_seq, list_fmap_bind. done.
Qed.

Lemma round_robin_ordered_pairs (teams : list string) :
  round_robin teams = (λ ab, new_match ab.1 ab.2) <$> ordered_pairs teams.
Proof.
  induction teams as [|t rest IH]; [done|].
  rewrite round_robin_cons, IH. simpl.
  by rewrite fmap_app, <- list_fmap_compose.
Qed.

Lemma ordered_pairs_length (teams : list string) :
  (2 * length (ordered_pairs teams) = length teams * (length teams - 1))%nat.
Proof.
  induction teams as [|t rest IH]; [done|].
  simpl ordered_pairs. rewrite length_app, length_fmap. simpl length. nia.
Qed.

Lemma ordered_pairs_elem (teams : list string) (a b : string) :
  (a, b) ∈ ordered_pairs teams → a ∈ teams ∧ b ∈ teams.
Proof.
  induction teams as [|t rest IH]; simpl; [by intros ?%elem_of_nil|].
  rewrite elem_of_app, list_elem_of_fmap.
  intros [(u & [= -> ->] & Hu)|H].
  - split; [left|by right].
  - destruct (IH H). split; by right.
Qed.

Lemma filter_nothing {B : Type} (Q : B → Prop) `{!∀ x, Decision (Q x)}
    (l : list B) :
  (∀ x, x ∈ l → ¬ Q x) → filter Q l = [].
Proof.
  induction l as [|x l IH]; intros HQ; [done|].
  rewrite filter_cons. destruct (decide (Q x)) as [q|_].
  - destruct (HQ x); [left|done].
  - apply IH. intros y Hy. apply HQ. by right.
Qed.

(** A team meets each later team of a duplicate-free list once. *)
Lemma plays_first_once (t a b : string) (rest : list string) :
  NoDup rest → t ∉ rest → a ≠ b →
  (a = t ∧ b ∈ rest) ∨ (b = t ∧ a ∈ rest) →
  length (filter (plays a b) (new_match t <$> rest)) = 1%nat.
Proof.
  intros Hnd Ht Hab Hcase.
  assert (∃ o, o ∈ rest ∧ ∀ u, plays a b (new_match t u) ↔ u = o) as (o & Ho & Hiff).
  { destruct Hcase as [[-> Hb]|[-> Ha]].
    - exists b. split; [done|]. intros u. unfold plays; simpl.
      intuition congruence.
    - exists a. split; [done|]. intros u. unfold plays; simpl.
      intuition congruence. }
  clear Hcase Hab. induction rest as [|u rest IH]; [by apply elem_of_nil in Ho|].
  apply NoDup_cons in Hnd as [Hu Hnd]. apply not_elem_of_cons in Ht as [_ Ht].
  rewrite fmap_cons, filter_cons.
  destruct (decide (plays a b (new_match t u))) as [Hp|Hp].
  - apply Hiff in Hp as ->. simpl. f_equal.
    rewrite filter_nothing; [done|].
    intros m (v & -> & Hv)%list_elem_of_fmap Hp. apply Hiff in Hp as ->. done.
  - apply elem_of_cons in Ho as [->|Ho]; [by destruct Hp; apply Hiff|].
    by apply IH.
Qed.

Lemma plays_once (teams : list string) (a b : string) :
  NoDup teams → a ∈ teams → b ∈ teams → a ≠ b →
  length (filter (plays a b) (round_robin teams)) = 1%nat.
Proof.
  intros Hnd Ha Hb Hab. induction teams as [|t rest IH]; [by apply elem_of_nil in Ha|].
  apply NoDup_cons in Hnd as [Ht Hnd].
  rewrite round_robin_cons, filter_app, length_app.
  assert (∀ x y, x ≠ t → y ≠ t →
            filter (plays x y) (new_match t <$> rest) = []) as Hnone.
  { intros x y Hx Hy. apply filter_nothing.
    intros m (v & -> & _)%list_elem_of_fmap. unfold plays; simpl.
    intuition congruence. }
  assert (∀ x y, x = t ∨ y = t → filter (plays x y) (round_robin rest) = []) as Hrest.
  { intros x y Hxy. apply filter_nothing. intros m.
    rewrite round_robin_ordered_pairs.
    intros ([u v] & -> & [Hu Hv]%ordered_pairs_elem)%list_elem_of_fmap.
    unfold plays; simpl.
    intros [[<- <-]|[<- <-]]; destruct Hxy as [->| ->]; done. }
  apply elem_of_cons in Ha as [->|Ha]; apply elem_of_cons in Hb as [->|Hb];
    try done.
  - rewrite (plays_first_once t t b), Hrest; auto.
  - rewrite (plays_first_once t a t), Hrest; auto.
  - rewrite Hnone, IH; try done; by intros ->.
Qed.

Lemma round_robin_elem (teams : list string) (m : GroupMatch) :
  m ∈ round_robin teams ↔
  ∃ i j a b, (i < j)%nat ∧ teams !! i = Some a ∧ teams !! j = Some b ∧
             m = new_match a b.
Proof.
  unfold round_robin. rewrite list_elem_of_bind. split.
  - intros (i & (j & Hm & Hj)%list_elem_of_bind & Hi).
    apply elem_of_seq in Hi, Hj. apply list_elem_of_singleton in Hm.
    destruct (lookup_lt_is_Some_2 teams i) as [a Ha]; [lia|].
    destruct (lookup_lt_is_Some_2 teams j) as [b Hb]; [lia|].
    exists i, j, a, b. split_and!; try done; [lia|].
    by rewrite (list_lookup_total_correct _ _ _ Ha),
               (list_lookup_total_correct _ _ _ Hb) in Hm.
  - intros (i & j & a & b & Hij & Ha & Hb & ->).
    pose proof (lookup_lt_Some _ _ _ Ha). pose proof (lookup_lt_Some _ _ _ Hb).
    exists i. split; [|apply elem_of_seq; lia].
    apply list_elem_of_bind. exists j. split; [|apply elem_of_seq; lia].
    rewrite (list_lookup_total_correct _ _ _ Ha),
            (list_lookup_total_correct _ _ _ Hb). by left.
Qed.

(** The table stored for a group by [generate_matches]. *)
Lemma generate_matches_lookup (tm : TournamentManager) (group : string)
    (teams : list string) :
  NoDup (groups tm).*1 → (group, teams) ∈ groups tm →
  matches (generate_matches tm) !! group = Some (round_robin teams).
Proof.
  unfold generate_matches. simpl. generalize (∅ : gmap string (list GroupMatch)).
  induction (groups tm) as [|[g ts] l IH] using rev_ind; intros m0 Hnd Hin;
    [by apply elem_of_nil in Hin|].
  rewrite foldl_app. simpl.
  rewrite fmap_app in Hnd. apply NoDup_app in Hnd as (Hnd & Hfresh & _).
  apply elem_of_app in Hin as [Hin|Hin].
  - rewrite lookup_insert_ne; [by apply IH|].
    intros <-. apply (Hfresh g); [|by left].
    apply list_elem_of_fmap. by exists (g, teams).
  - apply list_elem_of_singleton in Hin as [= <- <-]. apply lookup_insert_eq.
Qed.

(** C5.  For a group of [n] distinct teams, [generate_matches] stores
    exactly [n (n - 1) / 2] matches: team [i] against team [j] for all
    [i < j], in the order of the team list; every unordered pair of distinct
    teams of the group meets in exactly one of them, and every match has
    both scores unset and an empty winner. *)
Theorem generate_matches_round_robin (tm : TournamentManager) (group : string)
    (teams : list string) :
  NoDup (groups tm).*1 → (group, teams) ∈ groups tm → NoDup teams →
  ∃ ms,
    matches (generate_matches tm) !! group = Some ms ∧
    length ms = (length teams * (length teams - 1) / 2)%nat ∧
    ms = (λ ab, new_match ab.1 ab.2) <$> ordered_pairs teams ∧
    (∀ m, m ∈ ms ↔
       ∃ i j a b, (i < j)%nat ∧ teams !! i = Some a ∧ teams !! j = Some b ∧
         m = mkGroupMatch a b None None "") ∧
    (∀ a b, a ∈ teams → b ∈ teams → a ≠ b →
       length (filter (plays a b) ms) = 1%nat).
Proof.
  intros Hkeys Hin Hnd. exists (round_robin teams). split_and!.
  - by apply generate_matches_lookup.
  - rewrite round_robin_ordered_pairs, length_fmap.
    pose proof (ordered_pairs_length teams) as E.
    rewrite <- E, Nat.mul_comm. symmetry. apply Nat.div_mul. done.
  - apply round_robin_ordered_pairs.
  - apply round_robin_elem.
  - intros a b. by apply plays_once.
Qed.

(** ** Points of a decisive group match *)


Lemma keeps_team_add_played won lost : keeps_team (add_played won lost).
Proof. done. Qed.
Lemma keeps_team_add_win : keeps_team add_win.
Proof. done. Qed.
Lemma keeps_team_add_loss : keeps_team add_loss.
Proof. done. Qed.
Lemma keeps_team_add_points n : keeps_team (add_points n).
Proof. done. Qed.

Create HintDb standings discriminated.
#[local] Hint Resolve keeps_team_add_played keeps_team_add_win
  keeps_team_add_loss keeps_team_add_points : standings.

Lemma team_index_alter (f : Standing → Standing) (i : nat)
    (standings : list Standing) (team : string) :
  keeps_team f → team_index (alter f i standings) team = team_index standings team.
Proof.
  intros Hf. apply list_find_alter_fst. intros r. by rewrite Hf.
Qed.

Lemma team_index_Some (standings : list Standing) (team : string) (i : nat) :
  team_index standings team = Some i →
  ∃ r, standings !! i = Some r ∧ Team r = team.
Proof.
  unfold team_index. intros ([j r] & H & ->)%fmap_Some.
  apply list_find_Some in H as (? & ? & _). eauto.
Qed.

Lemma team_index_inj (standings : list Standing) (t u : string) (i : nat) :
  team_index standings t = Some i → team_index standings u = Some i → t = u.
Proof.
  intros (r & Hr & <-)%team_index_Some (r' & Hr' & <-)%team_index_Some.
  congruence.
Qed.

Ltac standings_lookup :=
  repeat (rewrite team_index_alter by auto with standings);
  repeat (rewrite list_lookup_alter_eq ||
          (rewrite list_lookup_alter_ne by congruence)).

(** C1.  Processing a completed decisive match between two different teams
    of the table adds [points_win = 3] to the winner's points; it adds
    [points_tiebreak = 1] to the loser's points when the loser's set count is
    one less than the winner's and the winner's is 3, and [points_loss = 0]
    otherwise (one of the two, never both); no other team's points move. *)
Theorem standings_row_points (standings : list Standing) (m : GroupMatch)
    (sets1 sets2 p1 p2 : Z) :
  SetSquadra1 m = Some sets1 → SetSquadra2 m = Some sets2 → sets1 ≠ sets2 →
  Squadra1 m ≠ Squadra2 m →
  points_of standings (Squadra1 m) = Some p1 →
  points_of standings (Squadra2 m) = Some p2 →
  points_win = 3 ∧ points_tiebreak = 1 ∧ points_loss = 0 ∧
  ∃ standings',
    standings_row standings m = Some standings' ∧
    (sets1 > sets2 →
       points_of standings' (Squadra1 m) = Some (p1 + points_win) ∧
       points_of standings' (Squadra2 m)
       = Some (p2 + if decide (sets2 = sets1 - 1 ∧ sets1 = 3)
                    then points_tiebreak else points_loss)) ∧
    (sets2 > sets1 →
       points_of standings' (Squadra2 m) = Some (p2 + points_win) ∧
       points_of standings' (Squadra1 m)
       = Some (p1 + if decide (sets1 = sets2 - 1 ∧ sets2 = 3)
                    then points_tiebreak else points_loss)) ∧
    (∀ t, t ≠ Squadra1 m → t ≠ Squadra2 m →
       points_of standings' t = points_of standings t).
Proof.
  intros E1 E2 Hne Hsides Hp1 Hp2. split_and!; try done.
  unfold points_of in Hp1, Hp2.
  apply bind_Some in Hp1 as (i1 & Hi1 & Hp1).
  apply bind_Some in Hp2 as (i2 & Hi2 & Hp2).
  apply fmap_Some in Hp1 as (r1 & Hr1 & ->).
  apply fmap_Some in Hp2 as (r2 & Hr2 & ->).
  assert (i1 ≠ i2) as Hidx.
  { intros <-. apply Hsides. by eapply team_index_inj. }
  assert (∀ t j, t ≠ Squadra1 m → t ≠ Squadra2 m →
            team_index standings t = Some j → j ≠ i1 ∧ j ≠ i2) as Hother.
  { intros t j H1 H2 Hj.
    split; intros ->; [apply H1|apply H2]; by eapply team_index_inj. }
  unfold standings_row. rewrite E1, E2, Hi1. simpl.
  standings_lookup. rewrite Hi2. simpl.
  destruct (Z.gtb_spec sets1 sets2) as [Hgt|Hle].
  - destruct ((sets2 =? sets1 - 1) && (sets1 =? 3)) eqn:Etb;
      (eexists; split; [done|]); (split_and!; [intros _|lia|]).
    + unfold points_of. standings_lookup. rewrite Hi1, Hi2. simpl.
      standings_lookup. rewrite Hr1, Hr2. simpl.
      rewrite decide_True by lia. done.
    + intros t H1 H2. unfold points_of. standings_lookup.
      destruct (team_index standings t) as [j|] eqn:Ej; [simpl|done].
      destruct (Hother t j H1 H2 Ej). by standings_lookup.
    + unfold points_of. standings_lookup. rewrite Hi1, Hi2. simpl.
      standings_lookup. rewrite Hr1, Hr2. simpl.
      rewrite decide_False by lia. done.
    + intros t H1 H2. unfold points_of. standings_lookup.
      destruct (team_index standings t) as [j|] eqn:Ej; [simpl|done].
      destruct (Hother t j H1 H2 Ej). by standings_lookup.
  - destruct (Z.gtb_spec sets2 sets1) as [Hgt|Hle']; [|lia].
    destruct ((sets1 =? sets2 - 1) && (sets2 =? 3)) eqn:Etb;
      (eexists; split; [done|]); (split_and!; [lia|intros _|]).
    + unfold points_of. standings_lookup. rewrite Hi1, Hi2. simpl.
      standings_lookup. rewrite Hr1, Hr2. simpl.
      rewrite decide_True by lia. done.
    + intros t H1 H2. unfold points_of. standings_lookup.
      destruct (team_index standings t) as [j|] eqn:Ej; [simpl|done].
      destruct (Hother t j H1 H2 Ej). by standings_lookup.
    + unfold points_of. standings_lookup. rewrite Hi1, Hi2. simpl.
      standings_lookup. rewrite Hr1, Hr2. simpl.
      rewrite decide_False by lia. done.
    + intros t H1 H2. unfold points_of. standings_lookup.
      destruct (team_index standings t) as [j|] eqn:Ej; [simpl|done].
      destruct (Hother t j H1 H2 Ej). by standings_lookup.
Qed.

(** ** Order of the standings *)

Lemma key_geb_true (a b : Standing) : key_geb a b = true → ranks_before a b.
Proof.
  unfold key_geb, ranks_before.
  destruct (Z.gtb_spec (Points a) (Points b)); [lia|].
  destruct (Z.eqb_spec (Points a) (Points b)); [|done].
  destruct (Z.gtb_spec (set_difference a) (set_difference b)); [lia|].
  destruct (Z.eqb_spec (set_difference a) (set_difference b)); [|done].
  destruct (Z.geb_spec (SetsWon a) (SetsWon b)); [lia|done].
Qed.

Lemma key_geb_false (a b : Standing) : key_geb a b = false → ranks_before b a.
Proof.
  unfold key_geb, ranks_before.
  destruct (Z.gtb_spec (Points a) (Points b)); [done|].
  destruct (Z.eqb_spec (Points a) (Points b)); [|lia].
  destruct (Z.gtb_spec (set_difference a) (set_difference b)); [done|].
  destruct (Z.eqb_spec (set_difference a) (set_difference b)); [|lia].
  destruct (Z.geb_spec (SetsWon a) (SetsWon b)); [done|lia].
Qed.

Global Instance ranks_before_trans : Transitive ranks_before.
Proof. intros a b c. unfold ranks_before. lia. Qed.

Lemma insert_row_perm (r : Standing) (l : list Standing) :
  insert_row r l ≡ₚ r :: l.
Proof.
  induction l as [|x l IH]; simpl; [done|].
  destruct (key_geb r x); [done|]. rewrite IH. apply Permutation_swap.
Qed.

Lemma sort_values_perm (l : list Standing) : sort_values l ≡ₚ l.
Proof.
  induction l as [|x l IH]; simpl; [done|].
  by rewrite insert_row_perm, IH.
Qed.

Lemma insert_row_sorted (r : Standing) (l : list Standing) :
  StronglySorted ranks_before l → StronglySorted ranks_before (insert_row r l).
Proof.
  induction l as [|x l IH]; simpl; intros Hs.
  - by repeat constructor.
  - apply StronglySorted_cons in Hs as [Hx Hs].
    destruct (key_geb r x) eqn:E.
    + apply StronglySorted_cons. split; [|by apply StronglySorted_cons].
      apply key_geb_true in E. constructor; [done|].
      eapply Forall_impl; [exact Hx|]. intros y Hy. by trans x.
    + apply StronglySorted_cons. split; [|by apply IH].
      rewrite insert_row_perm. constructor; [|done]. by apply key_geb_false.
Qed.

Lemma sort_values_sorted (l : list Standing) :
  StronglySorted ranks_before (sort_values l).
Proof.
  induction l as [|x l IH]; simpl; [constructor|]. by apply insert_row_sorted.
Qed.

Lemma StronglySorted_lookup_lt {A} (R : A → A → Prop) (l : list A)
    (i j : nat) (a b : A) :
  StronglySorted R l → (i < j)%nat → l !! i = Some a → l !! j = Some b → R a b.
Proof.
  intros Hs. revert i j. induction Hs as [|x l Hs IH Hx]; intros i j Hij Ha Hb;
    [done|].
  destruct j as [|j]; [lia|]. simpl in Hb. destruct i as [|i]; simpl in Ha.
  - injection Ha as ->. rewrite Forall_forall in Hx. apply Hx.
    by eapply list_elem_of_lookup_2.
  - apply (IH i j); [lia|done..].
Qed.

(** C6.  In the table returned by [calculate_group_standings], a row that
    comes before another one has more points, or the same points and a
    larger set difference (sets won minus sets lost), or the same points and
    set difference and at least as many sets won. *)
Theorem calculate_group_standings_sorted (tm : TournamentManager)
    (group : string) (rows : list Standing) (i j : nat) (a b : Standing) :
  calculate_group_standings tm group = Some (Table rows) →
  (i < j)%nat → rows !! i = Some a → rows !! j = Some b →
  Points a > Points b ∨
  (Points a = Points b ∧
   (SetsWon a - SetsLost a > SetsWon b - SetsLost b ∨
    (SetsWon a - SetsLost a = SetsWon b - SetsLost b ∧
     (SetsWon a >= SetsWon b)%Z))).
Proof.
  unfold calculate_group_standings. intros Hc Hij Ha Hb.
  destruct (matches tm !! group) as [matches_df|]; [|done].
  apply bind_Some in Hc as (teams & _ & Hc).
  apply bind_Some in Hc as (standings & _ & [= <-]).
  exact (StronglySorted_lookup_lt _ _ _ _ _ _ (sort_values_sorted standings)
           Hij Ha Hb).
Qed.

(** ** Shape of the bracket *)

Lemma first_round_fmap (fase : string) (n : nat) (q : list Qualified) :
  (n ≤ length q)%nat →
  first_round fase n q
  = (λ i, new_playoff fase (qualified_name (q !!! i))
                      (qualified_name (q !!! (length q - 1 - i)%nat)))
    <$> seq 0 n.
Proof.
  intros Hn. unfold first_round. rewrite <- bind_singleton_fmap.
  apply bind_pointwise. intros i Hi%elem_of_seq.
  destruct (lookup_lt_is_Some_2 q i) as [a Ha]; [lia|].
  destruct (lookup_lt_is_Some_2 q (length q - 1 - i)) as [b Hb]; [lia|].
  rewrite Ha, Hb.
  by rewrite (list_lookup_total_correct _ _ _ Ha),
             (list_lookup_total_correct _ _ _ Hb).
Qed.

Lemma build_phases_quarterfinals (q : list Qualified) :
  (8 ≤ length q)%nat →
  build_phases q
  = ((λ i, new_playoff "Quarterfinals" (qualified_name (q !!! i))
                       (qualified_name (q !!! (length q - 1 - i)%nat)))
     <$> [0; 1; 2; 3]%nat) ++
    [ new_playoff "Semifinals" "QF1 Winner" "QF2 Winner";
      new_playoff "Semifinals" "QF3 Winner" "QF4 Winner";
      new_playoff "Finals" "SF1 Winner" "SF2 Winner";
      new_playoff "Third Place" "SF1 Loser" "SF2 Loser" ].
Proof.
  intros Hq. unfold build_phases. rewrite decide_True by done.
  by rewrite first_round_fmap by lia.
Qed.

Lemma build_phases_semifinals (q : list Qualified) :
  (4 ≤ length q < 8)%nat →
  build_phases q
  = ((λ i, new_playoff "Semifinals" (qualified_name (q !!! i))
                       (qualified_name (q !!! (length q - 1 - i)%nat)))
     <$> [0; 1]%nat) ++
    [ new_playoff "Finals" "SF1 Winner" "SF2 Winner";
      new_playoff "Third Place" "SF1 Loser" "SF2 Loser" ].
Proof.
  intros Hq. unfold build_phases.
  rewrite decide_False, decide_True by lia.
  by rewrite first_round_fmap by lia.
Qed.

(** C7.  The bracket stored by [generate_playoffs] depends on the number of
    qualified teams only for its shape: four Quarterfinals, two Semifinals,
    a Final and a Third-Place match (8 matches) from 8 teams on; two
    Semifinals, a Final and a Third-Place match (4 matches) for 4 to 7; one
    Final between the first two qualified teams for 2 or 3; nothing for
    fewer than 2. *)
Theorem generate_playoffs_shape (tm : TournamentManager) (teams_advancing : nat)
    (qualified_teams : list Qualified) :
  qualified_teams_of tm teams_advancing = Some qualified_teams →
  ∃ tm',
    generate_playoffs tm teams_advancing = Some tm' ∧
    ((8 ≤ length qualified_teams)%nat →
       Fase <$> playoffs tm'
       = [ "Quarterfinals"; "Quarterfinals"; "Quarterfinals"; "Quarterfinals";
           "Semifinals"; "Semifinals"; "Finals"; "Third Place" ]) ∧
    ((4 ≤ length qualified_teams < 8)%nat →
       Fase <$> playoffs tm'
       = [ "Semifinals"; "Semifinals"; "Finals"; "Third Place" ]) ∧
    ((2 ≤ length qualified_teams < 4)%nat →
       ∃ q0 q1,
         qualified_teams !! 0%nat = Some q0 ∧
         qualified_teams !! 1%nat = Some q1 ∧
         playoffs tm'
         = [ mkPlayoffMatch "Finals" (qualified_name q0) (qualified_name q1)
                            None None "" ]) ∧
    ((length qualified_teams < 2)%nat → playoffs tm' = []).
Proof.
  intros Hq. unfold generate_playoffs. rewrite Hq. simpl.
  eexists. split; [done|]. simpl. split_and!.
  - intros H. by rewrite build_phases_quarterfinals.
  - intros H. by rewrite build_phases_semifinals.
  - intros H. unfold build_phases. rewrite !decide_False by lia.
    destruct qualified_teams as [|q0 [|q1 l]]; simpl in H; try lia.
    by exists q0, q1.
  - intros H. unfold build_phases. rewrite !decide_False by lia.
    destruct qualified_teams as [|q0 [|q1 l]]; simpl in H; try lia; done.
Qed.

(** ** Qualified teams left out of the bracket *)

Lemma qualified_name_distinct (q : list Qualified) (i k : nat) (x y : Qualified) :
  NoDup (qualified_name <$> q) → q !! i = Some x → q !! k = Some y → i ≠ k →
  qualified_name x ≠ qualified_name y.
Proof.
  intros Hnd Hx Hy Hik E. apply Hik.
  apply (NoDup_lookup _ i k (qualified_name x) Hnd);
    rewrite list_lookup_fmap; [by rewrite Hx|by rewrite Hy, E].
Qed.

Ltac pick_lookup q k a H :=
  destruct (lookup_lt_is_Some_2 q k) as [a H]; [lia|];
  try rewrite (list_lookup_total_correct _ _ _ H).

(** C10.  With 5, 6 or 7 qualified teams the two Semifinals pair index 0
    with index [t - 1] and index 1 with index [t - 2], and a qualified team
    at an index from 2 to [t - 3] is on no side of any bracket match; with
    more than 8 the Quarterfinals pair index [k] with index [t - 1 - k] for
    [k] from 0 to 3, and a team at an index from 4 to [t - 5] is on no side
    of any bracket match.  (The names are those of distinct teams, none
    called like a bracket label.) *)
Theorem build_phases_leaves_out (q : list Qualified) :
  let t := length q in
  ((5 ≤ t ≤ 7)%nat →
     ∃ a b c d,
       q !! 0%nat = Some a ∧ q !! 1%nat = Some b ∧
       q !! (t - 2)%nat = Some c ∧ q !! (t - 1)%nat = Some d ∧
       build_phases q
       = [ new_playoff "Semifinals" (qualified_name a) (qualified_name d);
           new_playoff "Semifinals" (qualified_name b) (qualified_name c);
           new_playoff "Finals" "SF1 Winner" "SF2 Winner";
           new_playoff "Third Place" "SF1 Loser" "SF2 Loser" ] ∧
       ∀ i x, (2 ≤ i ≤ t - 3)%nat → q !! i = Some x →
         NoDup (qualified_name <$> q) → qualified_name x ∉ bracket_labels →
         ∀ m, m ∈ build_phases q →
           pSquadra1 m ≠ qualified_name x ∧ pSquadra2 m ≠ qualified_name x) ∧
  ((8 < t)%nat →
     ∃ a0 a1 a2 a3 b3 b2 b1 b0,
       q !! 0%nat = Some a0 ∧ q !! 1%nat = Some a1 ∧
       q !! 2%nat = Some a2 ∧ q !! 3%nat = Some a3 ∧
       q !! (t - 4)%nat = Some b3 ∧ q !! (t - 3)%nat = Some b2 ∧
       q !! (t - 2)%nat = Some b1 ∧ q !! (t - 1)%nat = Some b0 ∧
       build_phases q
       = [ new_playoff "Quarterfinals" (qualified_name a0) (qualified_name b0);
           new_playoff "Quarterfinals" (qualified_name a1) (qualified_name b1);
           new_playoff "Quarterfinals" (qualified_name a2) (qualified_name b2);
           new_playoff "Quarterfinals" (qualified_name a3) (qualified_name b3);
           new_playoff "Semifinals" "QF1 Winner" "QF2 Winner";
           new_playoff "Semifinals" "QF3 Winner" "QF4 Winner";
           new_playoff "Finals" "SF1 Winner" "SF2 Winner";
           new_playoff "Third Place" "SF1 Loser" "SF2 Loser" ] ∧
       ∀ i x, (4 ≤ i ≤ t - 5)%nat → q !! i = Some x →
         NoDup (qualified_name <$> q) → qualified_name x ∉ bracket_labels →
         ∀ m, m ∈ build_phases q →
           pSquadra1 m ≠ qualified_name x ∧ pSquadra2 m ≠ qualified_name x).
Proof.
  intros t. subst t. split; intros Ht.
  - rewrite build_phases_semifinals by lia. simpl.
    replace (length q - 1 - 0)%nat with (length q - 1)%nat by lia.
    replace (length q - 1 - 1)%nat with (length q - 2)%nat by lia.
    pick_lookup q 0%nat a Ha. pick_lookup q 1%nat b Hb.
    pick_lookup q (length q - 2)%nat c Hc. pick_lookup q (length q - 1)%nat d Hd.
    exists a, b, c, d. split_and!; try done.
    intros i x Hi Hx Hnd Hlab m Hm.
    assert (∀ k y, q !! k = Some y → i ≠ k → qualified_name y ≠ qualified_name x)
      as Hdiff.
    { intros k y Hy Hik E. by apply (qualified_name_distinct q i k x y). }
    unfold bracket_labels in Hlab. rewrite !not_elem_of_cons in Hlab.
    destruct Hlab as (? & ? & ? & ? & ? & ? & ? & ? & _).
    rewrite !elem_of_cons in Hm.
    destruct Hm as [->|[->|[->|[->|Hm]]]]; [..|by apply elem_of_nil in Hm];
      simpl; split; try (intros E; by symmetry in E);
      eapply Hdiff; try eassumption; lia.
  - rewrite build_phases_quarterfinals by lia. simpl.
    replace (length q - 1 - 0)%nat with (length q - 1)%nat by lia.
    replace (length q - 1 - 1)%nat with (length q - 2)%nat by lia.
    replace (length q - 1 - 2)%nat with (length q - 3)%nat by lia.
    replace (length q - 1 - 3)%nat with (length q - 4)%nat by lia.
    pick_lookup q 0%nat a0 Ha0. pick_lookup q 1%nat a1 Ha1.
    pick_lookup q 2%nat a2 Ha2. pick_lookup q 3%nat a3 Ha3.
    pick_lookup q (length q - 4)%nat b3 Hb3. pick_lookup q (length q - 3)%nat b2 Hb2.
    pick_lookup q (length q - 2)%nat b1 Hb1. pick_lookup q (length q - 1)%nat b0 Hb0.
    exists a0, a1, a2, a3, b3, b2, b1, b0. split_and!; try done.
    intros i x Hi Hx Hnd Hlab m Hm.
    assert (∀ k y, q !! k = Some y → i ≠ k → qualified_name y ≠ qualified_name x)
      as Hdiff.
    { intros k y Hy Hik E. by apply (qualified_name_distinct q i k x y). }
    unfold bracket_labels in Hlab. rewrite !not_elem_of_cons in Hlab.
    destruct Hlab as (? & ? & ? & ? & ? & ? & ? & ? & _).
    rewrite !elem_of_cons in Hm.
    destruct Hm as [->|[->|[->|[->|[->|[->|[->|[->|Hm]]]]]]]];
      [..|by apply elem_of_nil in Hm];
      simpl; split; try (intros E; by symmetry in E);
      eapply Hdiff; try eassumption; lia.
Qed.

(** ** Propagation through the bracket *)

Lemma substitute_row_alter (placeholder name : string) (p : list PlayoffMatch)
    (j : nat) (r : PlayoffMatch) :
  substitute_row placeholder name p j r
  = alter (subst_side placeholder name r) j p.
Proof.
  unfold substitute_row, subst_side.
  destruct (decide (placeholder ∈ [pSquadra1 r; pSquadra2 r]));
    [by destruct (decide (pSquadra1 r = placeholder))|].
  symmetry. by apply list_alter_id.
Qed.

Lemma substitute_fmap (fase placeholder name : string) (p : list PlayoffMatch) :
  substitute fase placeholder name p = substituted fase placeholder name <$> p.
Proof.
  unfold substitute.
  rewrite (foldl_pointwise _
             (λ acc jr, alter (subst_side placeholder name jr.2) jr.1 acc))
    by (intros acc [j r]; apply substitute_row_alter).
  exact (iterrows_alter_self (λ r, Fase r = fase) (subst_side placeholder name) p).
Qed.

Lemma substituted_static (fase placeholder name : string) (r : PlayoffMatch) :
  Fase (substituted fase placeholder name r) = Fase r ∧
  pSetSquadra1 (substituted fase placeholder name r) = pSetSquadra1 r ∧
  pSetSquadra2 (substituted fase placeholder name r) = pSetSquadra2 r ∧
  pVincitore (substituted fase placeholder name r) = pVincitore r.
Proof.
  unfold substituted, subst_side.
  by repeat (case_decide; simpl).
Qed.

Lemma substituted_other_phase (fase placeholder name : string) (r : PlayoffMatch) :
  Fase r ≠ fase → substituted fase placeholder name r = r.
Proof. intros H. unfold substituted. by rewrite decide_False. Qed.

Lemma substituted_sides (fase placeholder name : string) (r : PlayoffMatch) :
  Fase r = fase →
  replaces_side placeholder name r (substituted fase placeholder name r).
Proof.
  intros H. unfold substituted, subst_side, replaces_side.
  rewrite decide_True by done.
  destruct (decide (placeholder ∈ [pSquadra1 r; pSquadra2 r])) as [Hin|Hin].
  - destruct (decide (pSquadra1 r = placeholder)) as [E|E]; simpl;
      split_and!; intros; try done.
    rewrite !elem_of_cons in Hin.
    destruct Hin as [?|[?|?%elem_of_nil]]; done.
  - rewrite !not_elem_of_cons in Hin. destruct Hin as (? & ? & _).
    split_and!; intros; try done.
Qed.

(** Closed form of the loop body. *)
Lemma playoff_row_unscored (idx : nat) (row : PlayoffMatch)
    (p : list PlayoffMatch) :
  pSetSquadra1 row = None ∨ pSetSquadra2 row = None →
  playoff_row idx row p = Some (alter (set_pVincitore "") idx p).
Proof.
  unfold playoff_row.
  intros [H|H]; rewrite H; [done|]. by destruct (pSetSquadra1 row).
Qed.

Lemma playoff_row_quarterfinal (idx : nat) (row : PlayoffMatch)
    (p : list PlayoffMatch) (s1 s2 : Z) :
  pSetSquadra1 row = Some s1 → pSetSquadra2 row = Some s2 →
  Fase row = "Quarterfinals" →
  playoff_row idx row p
  = Some (substituted "Semifinals" (qf_winner (idx + 1))
            (winner_loser row s1 s2).1
          <$> alter (set_pVincitore (winner_loser row s1 s2).1) idx p).
Proof.
  intros E1 E2 Hf. unfold playoff_row. rewrite E1, E2, Hf. simpl.
  by rewrite substitute_fmap.
Qed.

Lemma playoff_row_semifinal (idx first_sf : nat) (row : PlayoffMatch)
    (p : list PlayoffMatch) (s1 s2 : Z) :
  pSetSquadra1 row = Some s1 → pSetSquadra2 row = Some s2 →
  Fase row = "Semifinals" →
  fst <$> list_find (λ r, Fase r = "Semifinals") p = Some first_sf →
  let sf_number := if decide (idx = first_sf) then 1%nat else 2%nat in
  playoff_row idx row p
  = Some (substituted "Third Place" (sf_loser sf_number)
            (winner_loser row s1 s2).2
          <$> (substituted "Finals" (sf_winner sf_number)
                 (winner_loser row s1 s2).1
               <$> alter (set_pVincitore (winner_loser row s1 s2).1) idx p)).
Proof.
  intros E1 E2 Hf Hfirst. unfold playoff_row. rewrite E1, E2, Hf. simpl.
  rewrite list_find_alter_fst by done. rewrite Hfirst. simpl.
  by rewrite !substitute_fmap.
Qed.

Lemma playoff_row_other (idx : nat) (row : PlayoffMatch) (p : list PlayoffMatch)
    (s1 s2 : Z) :
  pSetSquadra1 row = Some s1 → pSetSquadra2 row = Some s2 →
  Fase row ≠ "Quarterfinals" → Fase row ≠ "Semifinals" →
  playoff_row idx row p
  = Some (alter (set_pVincitore (winner_loser row s1 s2).1) idx p).
Proof.
  intros E1 E2 H1 H2. unfold playoff_row. rewrite E1, E2.
  by rewrite !decide_False by done.
Qed.

(** The loop body never raises on a row of the frame, keeps the phases and
    the scores, and writes the winner field of the row it visits only. *)
Lemma playoff_row_static (idx : nat) (row r0 : PlayoffMatch)
    (p : list PlayoffMatch) :
  p !! idx = Some r0 → Fase r0 = Fase row →
  ∃ p',
    playoff_row idx row p = Some p' ∧
    length p' = length p ∧
    ∀ j r, p !! j = Some r →
      ∃ r', p' !! j = Some r' ∧
        Fase r' = Fase r ∧
        pSetSquadra1 r' = pSetSquadra1 r ∧
        pSetSquadra2 r' = pSetSquadra2 r ∧
        pVincitore r'
        = if decide (j = idx) then recorded_winner row else pVincitore r.
Proof.
  intros Hr0 Hfase.
  assert (∀ w j r, p !! j = Some r →
            ∃ r', alter (set_pVincitore w) idx p !! j = Some r' ∧
              Fase r' = Fase r ∧ pSetSquadra1 r' = pSetSquadra1 r ∧
              pSetSquadra2 r' = pSetSquadra2 r ∧
              pVincitore r' = if decide (j = idx) then w else pVincitore r)
    as Halter.
  { intros w j r Hr. destruct (decide (j = idx)) as [->|Hne].
    - rewrite list_lookup_alter_eq, Hr. simpl. by eexists.
    - rewrite list_lookup_alter_ne by done. by eexists. }
  unfold recorded_winner.
  destruct (pSetSquadra1 row) as [s1|] eqn:E1; [destruct (pSetSquadra2 row) as [s2|] eqn:E2|].
  - destruct (decide (Fase row = "Quarterfinals")) as [Hq|Hq];
      [|destruct (decide (Fase row = "Semifinals")) as [Hs|Hs]].
    + rewrite (playoff_row_quarterfinal idx row p s1 s2) by done.
      eexists. split; [done|]. split; [by rewrite length_fmap, length_alter|].
      intros j r Hr. destruct (Halter (winner_loser row s1 s2).1 j r Hr)
        as (r' & Hr' & Hf & Ha & Hb & Hv).
      rewrite list_lookup_fmap, Hr'. simpl. eexists. split; [done|].
      destruct (substituted_static "Semifinals" (qf_winner (idx + 1))
                  (winner_loser row s1 s2).1 r') as (-> & -> & -> & ->).
      done.
    + destruct (list_find (λ r, Fase r = "Semifinals") p) as [[first_sf x]|] eqn:Ef.
      2:{ apply list_find_None in Ef. rewrite Forall_forall in Ef.
          destruct (Ef r0); [by eapply list_elem_of_lookup_2|congruence]. }
      rewrite (playoff_row_semifinal idx first_sf row p s1 s2)
        by (done || by rewrite Ef).
      eexists. split; [done|]. split; [by rewrite !length_fmap, length_alter|].
      intros j r Hr. destruct (Halter (winner_loser row s1 s2).1 j r Hr)
        as (r' & Hr' & Hf & Ha & Hb & Hv).
      rewrite !list_lookup_fmap, Hr'. simpl. eexists. split; [done|].
      set (n := if decide (idx = first_sf) then 1%nat else 2%nat).
      destruct (substituted_static "Third Place" (sf_loser n)
                  (winner_loser row s1 s2).2
                  (substituted "Finals" (sf_winner n) (winner_loser row s1 s2).1 r'))
        as (-> & -> & -> & ->).
      destruct (substituted_static "Finals" (sf_winner n)
                  (winner_loser row s1 s2).1 r') as (-> & -> & -> & ->).
      done.
    + rewrite (playoff_row_other idx row p s1 s2) by done.
      eexists. split; [done|]. split; [by rewrite length_alter|].
      intros j r Hr. by apply Halter.
  - rewrite playoff_row_unscored by auto.
    eexists. split; [done|]. split; [by rewrite length_alter|].
    intros j r Hr. by apply Halter.
  - rewrite playoff_row_unscored by auto.
    eexists. split; [done|]. split; [by rewrite length_alter|].
    intros j r Hr. by apply Halter.
Qed.

(** ** The loop of [update_playoff_results] *)

Lemma update_playoff_loop_inv (access : RowAccess) (df : list PlayoffMatch) :
  ∃ p, update_playoff_loop access df = Some p ∧ loop_inv df p (length df).
Proof.
  unfold update_playoff_loop.
  set (body := λ (p : list PlayoffMatch) (idx : nat),
         match access with RowCopy => df | RowView => p end !! idx
         ≫= λ row, playoff_row idx row p).
  assert (∀ m k p, (k + m = length df)%nat → loop_inv df p k →
            ∃ p', for_each body p (seq k m) = Some p' ∧
                  loop_inv df p' (length df)) as Hloop.
  { induction m as [|m IH]; intros k p Hk Hinv.
    - exists p. split; [done|]. by replace (length df) with k by lia.
    - cbn [seq for_each]. destruct Hinv as [Hlen Hinv].
      destruct (lookup_lt_is_Some_2 df k) as [r Hr]; [lia|].
      destruct (Hinv k r Hr) as (r0 & Hr0 & Hf0 & Ha0 & Hb0 & _).
      assert (∃ row, match access with RowCopy => df | RowView => p end !! k
                     = Some row ∧ Fase row = Fase r ∧
                     pSetSquadra1 row = pSetSquadra1 r ∧
                     pSetSquadra2 row = pSetSquadra2 r)
        as (row & Hrow & Hfr & Har & Hbr).
      { destruct access; eauto. }
      assert (body p k = playoff_row k row p) as ->
        by (unfold body; by rewrite Hrow).
      destruct (playoff_row_static k row r0 p Hr0) as (p' & -> & Hlen' & Hp');
        [congruence|].
      simpl. apply (IH (S k) p'); [lia|]. split; [congruence|].
      intros j x Hx. destruct (Hinv j x Hx) as (x0 & Hx0 & Hf & Ha & Hb & Hw).
      destruct (Hp' j x0 Hx0) as (x' & Hx' & Hf' & Ha' & Hb' & Hw').
      exists x'. split_and!; try congruence.
      intros Hj. destruct (decide (j = k)) as [->|Hne].
      + exists row. assert (x = r) as -> by congruence. done.
      + destruct Hw as (row' & ? & ? & ?); [lia|].
        exists row'. split_and!; congruence. }
  apply (Hloop (length df) 0%nat df); [done|]. split; [done|].
  intros j r Hr. exists r. split_and!; try done. lia.
Qed.

(** [update_playoff_results] always returns; the stored bracket has the rows
    of the supplied one, with the same phases and scores, and a winner field
    computed from the scores of the row. *)
Lemma update_playoff_results_stored (access : RowAccess) (tm : TournamentManager)
    (df : list PlayoffMatch) :
  ∃ tm',
    update_playoff_results access tm df = Some tm' ∧
    groups tm' = groups tm ∧ matches tm' = matches tm ∧
    loop_inv df (playoffs tm') (length df).
Proof.
  unfold update_playoff_results.
  destruct (update_playoff_loop_inv access df) as (p & -> & Hinv).
  simpl. by eexists.
Qed.

Lemma recorded_winner_level (row : PlayoffMatch) :
  pSetSquadra1 row = pSetSquadra2 row → recorded_winner row = "".
Proof.
  unfold recorded_winner, winner_loser. intros ->.
  destruct (pSetSquadra2 row) as [s|]; [|done].
  by rewrite Z.gtb_ltb, Z.ltb_irrefl.
Qed.

(** After [update_playoff_results], a stored match whose scores are level (or
    missing) has an empty winner field. *)
Lemma update_playoff_results_level (access : RowAccess)
    (tm tm' : TournamentManager) (df : list PlayoffMatch) (j : nat)
    (f : PlayoffMatch) :
  update_playoff_results access tm df = Some tm' →
  playoffs tm' !! j = Some f → pSetSquadra1 f = pSetSquadra2 f →
  pVincitore f = "".
Proof.
  intros Hu Hf Hlevel.
  destruct (update_playoff_results_stored access tm df)
    as (tm2 & Hu2 & _ & _ & Hlen & Hinv).
  assert (tm2 = tm') as -> by congruence.
  destruct (lookup_lt_is_Some_2 df j) as [r Hr].
  { rewrite <- Hlen. by eapply lookup_lt_Some. }
  destruct (Hinv j r Hr) as (r' & Hr' & _ & Ha & Hb & Hw).
  assert (r' = f) as -> by congruence.
  destruct Hw as (row & Ha' & Hb' & ->); [by eapply lookup_lt_Some|].
  apply recorded_winner_level. congruence.
Qed.

(** ** Propagation of a resolved match *)

Lemma winner_loser_decisive (row : PlayoffMatch) (s1 s2 : Z) :
  s1 ≠ s2 →
  (winner_loser row s1 s2).1
  = (if decide (s1 > s2) then pSquadra1 row else pSquadra2 row) ∧
  (winner_loser row s1 s2).2
  = (if decide (s1 > s2) then pSquadra2 row else pSquadra1 row).
Proof.
  intros Hne. unfold winner_loser.
  destruct (Z.gtb_spec s1 s2); [by rewrite !decide_True by lia|].
  rewrite !decide_False by lia. destruct (Z.gtb_spec s2 s1); [done|lia].
Qed.

Lemma alter_vincitore_lookup (w : string) (idx j : nat) (p : list PlayoffMatch)
    (r : PlayoffMatch) :
  p !! j = Some r →
  ∃ r1, alter (set_pVincitore w) idx p !! j = Some r1 ∧
    pSquadra1 r1 = pSquadra1 r ∧ pSquadra2 r1 = pSquadra2 r ∧ Fase r1 = Fase r.
Proof.
  intros Hr. destruct (decide (idx = j)) as [->|Hne].
  - rewrite list_lookup_alter_eq, Hr. by eexists.
  - rewrite list_lookup_alter_ne, Hr by done. by eexists.
Qed.

(** C4 (as the code has it).  When the loop of [update_playoff_results]
    visits a resolved match (both scores present and different) labelled
    [idx]:
    - if it is a Quarterfinal, then in every Semifinal the label of
      Quarterfinal [idx + 1]'s winner is replaced by the winner's name as
      read from the visited row: on side 1 when side 1 carries the label,
      otherwise on side 2 when side 2 carries it; no other side of any match
      changes, in particular none carrying another Quarterfinal's label;
    - if it is a Semifinal, number 1 when it is the first Semifinal of the
      table and number 2 otherwise, the same holds for its winner and the
      label of its winner in the Final, and for its loser and the label of
      its loser in the Third-Place match. *)
Theorem playoff_row_propagates (idx : nat) (row r0 : PlayoffMatch)
    (p : list PlayoffMatch) (s1 s2 : Z) :
  pSetSquadra1 row = Some s1 → pSetSquadra2 row = Some s2 → s1 ≠ s2 →
  p !! idx = Some r0 → Fase r0 = Fase row →
  let winner := if decide (s1 > s2) then pSquadra1 row else pSquadra2 row in
  let loser := if decide (s1 > s2) then pSquadra2 row else pSquadra1 row in
  ∃ p',
    playoff_row idx row p = Some p' ∧ length p' = length p ∧
    (Fase row = "Quarterfinals" →
       ∀ j r, p !! j = Some r →
         ∃ r', p' !! j = Some r' ∧
           (Fase r = "Semifinals" →
              replaces_side (qf_winner (idx + 1)) winner r r') ∧
           (Fase r ≠ "Semifinals" → keeps_sides r r')) ∧
    (Fase row = "Semifinals" →
       ∃ first_sf,
         fst <$> list_find (λ r, Fase r = "Semifinals") p = Some first_sf ∧
         let sf_number := if decide (idx = first_sf) then 1%nat else 2%nat in
         ∀ j r, p !! j = Some r →
           ∃ r', p' !! j = Some r' ∧
             (Fase r = "Finals" →
                replaces_side (sf_winner sf_number) winner r r') ∧
             (Fase r = "Third Place" →
                replaces_side (sf_loser sf_number) loser r r') ∧
             (Fase r ≠ "Finals" → Fase r ≠ "Third Place" → keeps_sides r r')) ∧
    (∀ k k', k ≠ k' →
       qf_winner k ≠ qf_winner k' ∧ sf_winner k ≠ sf_winner k' ∧
       sf_loser k ≠ sf_loser k').
Proof.
  intros E1 E2 Hne Hr0 Hfase winner loser.
  destruct (playoff_row_static idx row r0 p Hr0 Hfase) as (p' & Hp' & Hlen & _).
  exists p'. split_and!; try done.
  - intros Hq j r Hr.
    rewrite (playoff_row_quarterfinal idx row p s1 s2) in Hp' by done.
    injection Hp' as <-.
    destruct (winner_loser_decisive row s1 s2 Hne) as [-> _]. fold winner.
    destruct (alter_vincitore_lookup winner idx j p r Hr)
      as (r1 & Hr1 & Ea & Eb & Ef).
    rewrite list_lookup_fmap, Hr1.
    simpl. eexists. split; [done|]. split.
    + intros Hsf.
      pose proof (substituted_sides "Semifinals" (qf_winner (idx + 1)) winner r1)
        as Hs.
      unfold replaces_side in *. rewrite Ea, Eb in Hs. apply Hs. congruence.
    + intros Hsf. rewrite substituted_other_phase by congruence.
      by unfold keeps_sides.
  - intros Hs.
    destruct (list_find (λ r, Fase r = "Semifinals") p) as [[first_sf x]|] eqn:Ef.
    2:{ apply list_find_None in Ef. rewrite Forall_forall in Ef.
        destruct (Ef r0); [by eapply list_elem_of_lookup_2|congruence]. }
    exists first_sf. split; [done|]. intros sf_number j r Hr.
    rewrite (playoff_row_semifinal idx first_sf row p s1 s2) in Hp'
      by (done || by rewrite Ef).
    injection Hp' as <-.
    destruct (winner_loser_decisive row s1 s2 Hne) as [-> ->].
    fold winner loser sf_number.
    destruct (alter_vincitore_lookup winner idx j p r Hr)
      as (r1 & Hr1 & Ea & Eb & Efa).
    rewrite !list_lookup_fmap, Hr1.
    simpl. eexists. split; [done|]. split_and!.
    + intros Hf. rewrite (substituted_other_phase "Third Place").
      2:{ destruct (substituted_static "Finals" (sf_winner sf_number) winner r1)
            as (-> & _). rewrite Efa, Hf. done. }
      pose proof (substituted_sides "Finals" (sf_winner sf_number) winner r1) as H.
      unfold replaces_side in *. rewrite Ea, Eb in H. apply H. congruence.
    + intros Hf. rewrite (substituted_other_phase "Finals") by (rewrite Efa, Hf; done).
      pose proof (substituted_sides "Third Place" (sf_loser sf_number) loser r1) as H.
      unfold replaces_side in *. rewrite Ea, Eb in H. apply H. congruence.
    + intros H1 H2.
      rewrite (substituted_other_phase "Finals") by congruence.
      rewrite (substituted_other_phase "Third Place") by congruence.
      by unfold keeps_sides.
  - intros k k' Hk. split_and!; intros E; apply Hk.
    + by apply qf_winner_inj. + by apply sf_winner_inj. + by apply sf_loser_inj.
Qed.

Lemma playoff_row_propagates_witness :
  ∃ p',
    playoff_row 0
      (mkPlayoffMatch "Quarterfinals" "T1" "T8" (Some 3) (Some 0) "")
      (enter_result 0 3 0 example_level_quarterfinal) = Some p' ∧
    (pSquadra1 <$> p' !! 4%nat) = Some "T1".
Proof.
  destruct (playoff_row_propagates 0
              (mkPlayoffMatch "Quarterfinals" "T1" "T8" (Some 3) (Some 0) "")
              (mkPlayoffMatch "Quarterfinals" "T1" "T8" (Some 3) (Some 0) "")
              (enter_result 0 3 0 example_level_quarterfinal) 3 0)
    as (p' & Hp' & _); [reflexivity|reflexivity|discriminate|reflexivity..|].
  exists p'. split; [exact Hp'|].
  vm_compute in Hp'. injection Hp' as <-. reflexivity.
Defined.

(** C4, as stated, fails when a Semifinal carries the label of the same
    Quarterfinal on both sides: after Quarterfinal 1 is resolved, side 2 of
    that Semifinal still carries the label. *)
Lemma update_playoff_results_doubled_label :
  qf_winner 1 = "QF1 Winner" ∧
  (pSquadra2 <$> example_doubled_label !! 1%nat) = Some "QF1 Winner" ∧
  doubled_label_outcome RowCopy ∧ doubled_label_outcome RowView.
Proof.
  split_and!; try reflexivity;
    (eexists; split; [vm_compute; reflexivity|]); by vm_compute.
Qed.

(** ** A playoff match ending level *)

(** C2 at a bracket of eight whose first Quarterfinal ends 2-2: the winner
    field of that Quarterfinal stays empty, but side 1 of the first
    Semifinal, which carried the label "QF1 Winner", is overwritten with the
    empty string. *)
Theorem update_playoff_results_level_quarterfinal (access : RowAccess)
    (tm : TournamentManager) :
  (pSetSquadra1 <$> example_level_quarterfinal !! 0%nat) = Some (Some 2) ∧
  (pSetSquadra2 <$> example_level_quarterfinal !! 0%nat) = Some (Some 2) ∧
  (pSquadra1 <$> example_level_quarterfinal !! 4%nat) = Some "QF1 Winner" ∧
  ∃ tm', update_playoff_results access tm example_level_quarterfinal = Some tm' ∧
    (pVincitore <$> playoffs tm' !! 0%nat) = Some "" ∧
    (Fase <$> playoffs tm' !! 4%nat) = Some "Semifinals" ∧
    (pSquadra1 <$> playoffs tm' !! 4%nat) = Some "".
Proof.
  split_and!; try reflexivity.
  destruct access; (eexists; split; [vm_compute; reflexivity|]); by vm_compute.
Qed.

(** ** Group standings never raise on sound tables *)

Lemma team_column_alter (f : Standing → Standing) (i : nat)
    (standings : list Standing) :
  keeps_team f → Team <$> alter f i standings = Team <$> standings.
Proof.
  intros Hf. apply list_eq. intros j. rewrite !list_lookup_fmap.
  destruct (decide (i = j)) as [->|Hne].
  - rewrite list_lookup_alter_eq. destruct (standings !! j); simpl; [|done].
    by rewrite Hf.
  - by rewrite list_lookup_alter_ne.
Qed.

Lemma team_index_is_Some (standings : list Standing) (team : string) :
  team ∈ Team <$> standings → is_Some (team_index standings team).
Proof.
  intros (r & -> & Hr)%list_elem_of_fmap. unfold team_index.
  destruct (list_find_elem_of (λ x, Team x = Team r) standings r Hr eq_refl)
    as [ir ->].
  by eexists.
Qed.

Lemma standings_row_total (standings : list Standing) (m : GroupMatch) :
  (is_Some (SetSquadra1 m) → is_Some (SetSquadra2 m) →
   Squadra1 m ∈ Team <$> standings ∧ Squadra2 m ∈ Team <$> standings) →
  ∃ standings', standings_row standings m = Some standings' ∧
                Team <$> standings' = Team <$> standings.
Proof.
  intros Hin. unfold standings_row.
  destruct (SetSquadra1 m) as [sets1|]; [|by eexists].
  destruct (SetSquadra2 m) as [sets2|]; [|by eexists].
  destruct Hin as [H1 H2]; [by eexists..|].
  destruct (team_index_is_Some _ _ H1) as [i1 ->]. simpl.
  rewrite team_index_alter by auto with standings.
  destruct (team_index_is_Some _ _ H2) as [i2 ->]. simpl.
  destruct (sets1 >? sets2); [|destruct (sets2 >? sets1)];
    repeat case_match; (eexists; split; [done|]);
    by rewrite !team_column_alter by auto with standings.
Qed.

Lemma standings_loop_total (matches_df : list GroupMatch)
    (standings : list Standing) :
  (∀ m, m ∈ matches_df → is_Some (SetSquadra1 m) → is_Some (SetSquadra2 m) →
     Squadra1 m ∈ Team <$> standings ∧ Squadra2 m ∈ Team <$> standings) →
  ∃ standings', for_each standings_row standings matches_df = Some standings' ∧
                Team <$> standings' = Team <$> standings.
Proof.
  revert standings. induction matches_df as [|m l IH]; intros standings Hin;
    [by eexists|].
  simpl. destruct (standings_row_total standings m) as (st1 & -> & E1).
  { apply Hin. by left. }
  simpl. destruct (IH st1) as (st2 & -> & E2).
  { rewrite E1. intros x Hx. apply Hin. by right. }
  exists st2. split; [done|]. congruence.
Qed.

Lemma initial_standings_teams (teams : list string) :
  Team <$> initial_standings teams = teams.
Proof.
  unfold initial_standings.
  induction teams as [|t l IH]; [done|]. cbn. by rewrite IH.
Qed.

(** On sound tables the standings of a group are computed, and they list
    the teams of the group, each once. *)
Lemma calculate_group_standings_total (tm : TournamentManager) (group : string)
    (teams : list string) :
  group_tables_sound tm → groups_lookup (groups tm) group = Some teams →
  ∃ rows, calculate_group_standings tm group = Some (Table rows) ∧
          Team <$> rows ≡ₚ teams.
Proof.
  intros Hsound Hg. destruct (Hsound group teams Hg) as (matches_df & Hm & Hin).
  unfold calculate_group_standings. rewrite Hm, Hg. simpl.
  destruct (standings_loop_total matches_df (initial_standings teams))
    as (st & -> & E).
  { by rewrite initial_standings_teams. }
  simpl. eexists. split; [done|].
  by rewrite sort_values_perm, E, initial_standings_teams.
Qed.

Lemma groups_lookup_key (gs : list (string * list string)) (group : string) :
  group ∈ gs.*1 → is_Some (groups_lookup gs group).
Proof.
  intros ([g teams] & -> & Hin)%list_elem_of_fmap. unfold groups_lookup.
  simpl.
  destruct (list_find_elem_of (λ e : string * list string, e.1 = g) gs
              (g, teams) Hin eq_refl) as [ie ->].
  by eexists.
Qed.

Lemma groups_lookup_Some (gs : list (string * list string)) (group : string)
    (teams : list string) :
  groups_lookup gs group = Some teams → group ∈ gs.*1.
Proof.
  unfold groups_lookup. intros ([i [g ts]] & Hf & ->)%fmap_Some.
  apply list_find_Some in Hf as (Hi & Hg & _). simpl in Hg. subst g.
  apply list_elem_of_fmap. exists (group, ts). split; [done|].
  by eapply list_elem_of_lookup_2.
Qed.

(** ** Placing the remaining teams *)

Lemma place_team_spec (acc : list (Z * string) * Z) (team : string) :
  acc.1 `prefix_of` (place_team acc team).1 ∧
  (∀ t, t ∈ (place_team acc team).1.*2 ↔ t ∈ acc.1.*2 ∨ t = team) ∧
  (placed_in_order acc → placed_in_order (place_team acc team)).
Proof.
  unfold place_team. destruct (decide (team ∈ acc.1.*2)) as [Hin|Hin].
  - split_and!; [done| |done]. intros t. split; [by left|].
    by intros [?| ->].
  - simpl. split_and!.
    + by apply prefix_app_r.
    + intros t. rewrite fmap_app, elem_of_app. simpl.
      rewrite list_elem_of_singleton. done.
    + intros (Hpos & Hnext & Hnd). unfold placed_in_order. simpl.
      rewrite !fmap_app, length_app. simpl. split_and!.
      * rewrite Nat2Z.inj_add. simpl Z.of_nat.
        rewrite seqZ_app by lia. rewrite <- Hpos. f_equal.
        rewrite Hnext. change (Z.of_nat 1) with (Z.succ 0).
        rewrite seqZ_cons by done. rewrite Z.pred_succ. simpl. f_equal. lia.
      * lia.
      * apply NoDup_app. split_and!; [done| |apply NoDup_singleton].
        intros t Ht ->%list_elem_of_singleton. done.
Qed.

Lemma place_teams_spec (names : list string) (acc : list (Z * string) * Z) :
  acc.1 `prefix_of` (foldl place_team acc names).1 ∧
  (∀ t, t ∈ (foldl place_team acc names).1.*2 ↔ t ∈ acc.1.*2 ∨ t ∈ names) ∧
  (placed_in_order acc → placed_in_order (foldl place_team acc names)).
Proof.
  revert acc. induction names as [|x l IH]; intros acc; simpl.
  - split_and!; [done| |done]. intros t. rewrite elem_of_nil. tauto.
  - destruct (place_team_spec acc x) as (Hp & Hn & Ho).
    destruct (IH (place_team acc x)) as (Hp' & Hn' & Ho').
    split_and!.
    + by trans (place_team acc x).1.
    + intros t. rewrite Hn', Hn, elem_of_cons. tauto.
    + auto.
Qed.

(** The loop over the groups never raises on sound tables; it keeps the
    positions handed out before it, keeps them in order, and afterwards the
    placed names are those placed before together with all grouped teams. *)
Lemma place_groups_spec (tm : TournamentManager) (keys : list string)
    (acc : list (Z * string) * Z) :
  group_tables_sound tm → keys ⊆ (groups tm).*1 →
  ∃ acc',
    for_each (place_group tm) acc keys = Some acc' ∧
    acc.1 `prefix_of` acc'.1 ∧
    (∀ t, t ∈ acc'.1.*2 ↔
       t ∈ acc.1.*2 ∨
       ∃ group teams, group ∈ keys ∧
         groups_lookup (groups tm) group = Some teams ∧ t ∈ teams) ∧
    (placed_in_order acc → placed_in_order acc').
Proof.
  intros Hsound. revert acc. induction keys as [|g keys IH]; intros acc Hsub.
  - exists acc. split_and!; try done. intros t. split; [by left|].
    intros [?|(? & ? & []%elem_of_nil & _)]. done.
  - cbn [for_each]. destruct (groups_lookup_key (groups tm) g) as [teams Hg].
    { apply Hsub. by left. }
    destruct (calculate_group_standings_total tm g teams Hsound Hg)
      as (rows & Hrows & Hperm).
    assert (place_group tm acc g = Some (foldl place_team acc (Team <$> rows)))
      as -> by (unfold place_group; by rewrite Hrows).
    simpl.
    destruct (place_teams_spec (Team <$> rows) acc) as (Hp & Hn & Ho).
    destruct (IH (foldl place_team acc (Team <$> rows))) as (acc' & -> & Hp' & Hn' & Ho').
    { intros x Hx. apply Hsub. by right. }
    exists acc'. split_and!; try done.
    + by trans (foldl place_team acc (Team <$> rows)).1.
    + intros t. rewrite Hn', Hn. setoid_rewrite Hperm. split.
      * intros [[?|Ht]|(g' & ts & Hg' & Hl & Ht)]; [by left|right..].
        -- exists g, teams. split_and!; [by left|done..].
        -- exists g', ts. split_and!; [by right|done..].
      * intros [?|(g' & ts & [->|Hg']%elem_of_cons & Hl & Ht)].
        -- by left; left.
        -- left; right. congruence.
        -- right. by exists g', ts.
    + auto.
Qed.

(** ** Final standings after a level Final *)

Lemma tables_checked_sound (tm : TournamentManager) :
  tables_checked tm = true → group_tables_sound tm.
Proof.
  unfold tables_checked, group_tables_sound, groups_lookup.
  intros Hc group teams ([i [g ts]] & Hf & ->)%fmap_Some.
  apply list_find_Some in Hf as (Hi & Hg & _). simpl in *. subst g.
  rewrite forallb_forall in Hc.
  specialize (Hc (group, ts)). simpl in Hc.
  destruct (matches tm !! group) as [matches_df|].
  2:{ discriminate Hc. apply list_elem_of_In. by eapply list_elem_of_lookup_2. }
  exists matches_df. split; [done|]. intros m Hm _ _.
  assert (forallb (λ m, bool_decide (Squadra1 m ∈ ts) &&
                        bool_decide (Squadra2 m ∈ ts)) matches_df = true) as Hall.
  { apply Hc. apply list_elem_of_In. by eapply list_elem_of_lookup_2. }
  rewrite forallb_forall in Hall.
  specialize (Hall m). rewrite andb_true_iff, !bool_decide_eq_true in Hall.
  apply Hall. by apply list_elem_of_In.
Qed.

Lemma head_filter_Some {A} (P : A → Prop) `{!∀ x, Decision (P x)}
    (l : list A) (x : A) :
  head (filter P l) = Some x → P x ∧ ∃ j, l !! j = Some x.
Proof.
  intros Hh. apply head_Some_elem_of in Hh.
  apply list_elem_of_filter in Hh as [HP Hin].
  split; [done|]. by apply list_elem_of_lookup_1.
Qed.

Lemma check_playoffs_complete_scored (tm : TournamentManager) :
  playoffs tm ≠ [] →
  (∀ m, m ∈ playoffs tm → is_Some (pSetSquadra1 m) ∧ is_Some (pSetSquadra2 m)) →
  check_playoffs_complete tm = true.
Proof.
  intros Hne Hall. unfold check_playoffs_complete.
  rewrite decide_False by done. apply negb_true_iff, orb_false_iff.
  split; apply not_true_is_false; intros (m & Hm & Hn)%existsb_exists;
    apply list_elem_of_In in Hm; apply bool_decide_eq_true in Hn;
    destruct (Hall m Hm) as [[? ?] [? ?]]; congruence.
Qed.

Lemma bracket_positions_head (p : list PlayoffMatch) (f : PlayoffMatch) :
  head (filter (λ r, Fase r = "Finals") p) = Some f →
  ∃ rest, bracket_positions p
          = Some ((1, pVincitore f) :: (2, other_side f) :: rest).
Proof.
  intros Hf. unfold bracket_positions. rewrite Hf. simpl.
  destruct (head (filter (λ r, Fase r = "Third Place") p)); by eexists.
Qed.

(** With a complete bracket and sound group tables,
    [generate_final_standings] returns the positions read off the bracket
    followed by the teams placed by the loop over the groups. *)
Lemma generate_final_standings_total (tm : TournamentManager)
    (positions : list (Z * string)) :
  playoffs tm ≠ [] → check_playoffs_complete tm = true →
  bracket_positions (playoffs tm) = Some positions →
  group_tables_sound tm →
  ∃ tm',
    generate_final_standings tm = Some tm' ∧
    positions `prefix_of` final_standings tm' ∧
    (∀ t, t ∈ (final_standings tm').*2 ↔ t ∈ positions.*2 ∨ grouped tm t) ∧
    (placed_in_order (positions, Z.of_nat (length positions) + 1) →
     (final_standings tm').*1
     = seqZ 1 (Z.of_nat (length (final_standings tm'))) ∧
     NoDup (final_standings tm').*2).
Proof.
  intros Hne Hc Hpos Hsound. unfold generate_final_standings.
  rewrite decide_False by done. rewrite Hc, Hpos. simpl.
  destruct (place_groups_spec tm (groups tm).*1
              (positions, Z.of_nat (length positions) + 1) Hsound)
    as (acc' & -> & Hp & Hn & Ho); [done|].
  simpl. eexists. split; [done|]. simpl. split_and!; [done| |].
  - intros t. rewrite Hn. simpl. unfold grouped. split.
    + intros [?|(g & ts & _ & ? & ?)]; [by left|right; eauto].
    + intros [?|(g & ts & Hg & ?)]; [by left|right].
      exists g, ts. split_and!; try done. by eapply groups_lookup_Some.
  - intros Hord. destruct (Ho Hord) as (? & _ & ?). done.
Qed.

(** C9 (as the code has it).  When the stored bracket comes from
    [update_playoff_results], every match has both scores and the Final's
    scores are level, [check_playoffs_complete] answers true and
    [generate_final_standings] (the group tables being sound) returns with
    position 1 given to the empty string; position 2 goes to the name on
    side 2 of the Final when that name is not empty, and to the name on
    side 1 when it is. *)
Theorem generate_final_standings_level_final (access : RowAccess)
    (tm0 tm : TournamentManager) (df : list PlayoffMatch) (f : PlayoffMatch) :
  update_playoff_results access tm0 df = Some tm →
  (∀ m, m ∈ playoffs tm → is_Some (pSetSquadra1 m) ∧ is_Some (pSetSquadra2 m)) →
  head (filter (λ r, Fase r = "Finals") (playoffs tm)) = Some f →
  pSetSquadra1 f = pSetSquadra2 f →
  group_tables_sound tm →
  check_playoffs_complete tm = true ∧
  ∃ tm',
    generate_final_standings tm = Some tm' ∧
    final_standings tm' !! 0%nat = Some (1, "") ∧
    final_standings tm' !! 1%nat
    = Some (2, if decide (pSquadra2 f = "") then pSquadra1 f else pSquadra2 f).
Proof.
  intros Hu Hscored Hf Hlevel Hsound.
  destruct (head_filter_Some _ _ _ Hf) as (_ & j & Hj).
  assert (playoffs tm ≠ []) as Hne by (intros E; by rewrite E in Hj).
  assert (check_playoffs_complete tm = true) as Hc
    by by apply check_playoffs_complete_scored.
  split; [done|].
  destruct (bracket_positions_head _ _ Hf) as (rest & Hpos).
  destruct (generate_final_standings_total tm _ Hne Hc Hpos Hsound)
    as (tm' & Hg & [k Hk] & _).
  exists tm'. split; [done|]. rewrite Hk.
  rewrite (update_playoff_results_level access tm0 tm df j f Hu Hj Hlevel).
  unfold other_side.
  rewrite (update_playoff_results_level access tm0 tm df j f Hu Hj Hlevel).
  split; [done|]. simpl. do 2 f_equal.
  destruct (decide ("" = pSquadra2 f)), (decide (pSquadra2 f = "")); congruence.
Qed.

Lemma generate_final_standings_level_final_witness :
  check_playoffs_complete (example_level_final RowView) = true ∧
  ∃ tm',
    generate_final_standings (example_level_final RowView) = Some tm' ∧
    final_standings tm' !! 0%nat = Some (1, "").
Proof.
  destruct (generate_final_standings_level_final RowView example_bracket4
              (example_level_final RowView) example_level_entries
              (mkPlayoffMatch "Finals" "T1" "" (Some 1) (Some 1) ""))
    as (Hc & tm' & Hg & H1 & _).
  - vm_compute. reflexivity.
  - apply Forall_forall. apply (bool_decide_unpack _). vm_compute. reflexivity.
  - vm_compute. reflexivity.
  - reflexivity.
  - apply tables_checked_sound. vm_compute. reflexivity.
  - split; [exact Hc|]. exists tm'. split; [exact Hg|exact H1].
Defined.

(** C9, as stated, fails when side 2 of the level Final is the empty string
    (here because the second Semifinal ended level too): every match has
    both scores, the Final is 1-1 between "T1" and "", and position 2 goes
    to "T1", the name on side 1. *)
Lemma generate_final_standings_level_final_side1 :
  level_final_outcome RowCopy ∧ level_final_outcome RowView.
Proof.
  split; (split_and!;
    [ apply (bool_decide_unpack _); vm_compute; reflexivity
    | vm_compute; reflexivity
    | vm_compute; reflexivity
    | eexists; split_and!; vm_compute; reflexivity ]).
Qed.

(** ** Completeness of the final standings *)

Lemma decided_result_perm (m : PlayoffMatch) :
  decided m → [winning_side m; losing_side m] ≡ₚ playoff_sides m.
Proof.
  intros [(s1 & s2 & E1 & E2 & _) _].
  unfold winning_side, losing_side, playoff_sides. rewrite E1, E2.
  destruct (decide (s1 > s2)); [done|apply Permutation_swap].
Qed.

Lemma decided_other_side (m : PlayoffMatch) :
  decided m → pSquadra1 m ≠ pSquadra2 m →
  pVincitore m = winning_side m ∧ other_side m = losing_side m.
Proof.
  intros [(s1 & s2 & E1 & E2 & _) Hw] Hne. split; [done|].
  unfold other_side. rewrite Hw. unfold winning_side, losing_side.
  rewrite E1, E2. destruct (decide (s1 > s2)).
  - by rewrite decide_False.
  - by rewrite decide_True.
Qed.

Lemma decided_scored (m : PlayoffMatch) :
  decided m → is_Some (pSetSquadra1 m) ∧ is_Some (pSetSquadra2 m).
Proof. intros [(s1 & s2 & -> & -> & _) _]. split; by eexists. Qed.

Lemma interleave_four {A} (a b c d : A) (r : list A) :
  a :: b :: c :: d :: r ≡ₚ a :: c :: b :: d :: r.
Proof. constructor. apply Permutation_swap. Qed.

Lemma interleave_eight {A} (a b c d e f g h : A) :
  [a; b; c; d; e; f; g; h] ≡ₚ [a; e; b; f; c; g; d; h].
Proof.
  constructor.
  apply (Permutation_cons_app [e] _ b). simpl.
  apply (Permutation_cons_app [e; f] _ c). simpl.
  apply (Permutation_cons_app [e; f; g] _ d). simpl.
  done.
Qed.

#[local] Arguments other_side : simpl never.
#[local] Arguments winning_side : simpl never.
#[local] Arguments losing_side : simpl never.

Ltac phase_filters :=
  unfold bracket_positions;
  rewrite ?filter_cons, ?filter_nil;
  repeat match goal with H : Fase _ = _ |- _ => rewrite !H end;
  simpl.

Ltac use_decided m H Hne :=
  let Hv := fresh in let Ho := fresh in
  destruct (decided_other_side m H Hne) as [Hv Ho];
  rewrite ?Hv, ?Ho; clear Hv Ho.

(** The positions read off a resolved bracket: they are 1, 2, ... in order,
    the first two are the Final's winner and loser, and the names are those
    on the sides of the first round, each once. *)
Lemma bracket_positions_resolved (p : list PlayoffMatch) :
  resolved_bracket p →
  ∃ positions f,
    f ∈ p ∧ Fase f = "Finals" ∧
    bracket_positions p = Some positions ∧
    placed_in_order (positions, Z.of_nat (length positions) + 1) ∧
    positions !! 0%nat = Some (1, winning_side f) ∧
    positions !! 1%nat = Some (2, losing_side f) ∧
    (∀ t, t ∈ positions.*2 → ∃ m, m ∈ p ∧ t ∈ playoff_sides m) ∧
    (∀ m, m ∈ p → is_Some (pSetSquadra1 m) ∧ is_Some (pSetSquadra2 m)).
Proof.
  destruct 1 as [f Hf Df Nf
                |s1 s2 f t Hs1 Hs2 Hf Ht Ds1 Ds2 Df Dt Hnd Ef Et
                |q1 q2 q3 q4 s1 s2 f t Hq1 Hq2 Hq3 Hq4 Hs1 Hs2 Hf Ht
                   Dq1 Dq2 Dq3 Dq4 Ds1 Ds2 Df Dt Hnd Es1 Es2 Ef Et].
  - eexists _, f. split_and!; [by left|done|phase_filters; reflexivity|..].
    + use_decided f Df Nf. unfold placed_in_order. simpl. split_and!; try done.
      rewrite (decided_result_perm f Df). unfold playoff_sides.
      apply NoDup_cons. split; [|apply NoDup_singleton].
      by intros ?%list_elem_of_singleton.
    + by use_decided f Df Nf.
    + by use_decided f Df Nf.
    + use_decided f Df Nf. simpl. intros x Hx. exists f. split; [by left|].
      by rewrite <- (decided_result_perm f Df).
    + intros m ->%list_elem_of_singleton. by apply decided_scored.
  - assert ([winning_side f; losing_side f; winning_side t; losing_side t]
            ≡ₚ playoff_sides s1 ++ playoff_sides s2) as Hperm.
    { change ([winning_side f; losing_side f] ++ [winning_side t; losing_side t]
              ≡ₚ playoff_sides s1 ++ playoff_sides s2).
      rewrite (decided_result_perm f Df), (decided_result_perm t Dt), Ef, Et.
      simpl. rewrite interleave_four.
      change ([winning_side s1; losing_side s1] ++ [winning_side s2; losing_side s2]
              ≡ₚ playoff_sides s1 ++ playoff_sides s2).
      by rewrite (decided_result_perm s1 Ds1), (decided_result_perm s2 Ds2). }
    assert (NoDup (playoff_sides f ++ playoff_sides t)) as Hft.
    { rewrite Ef, Et. simpl. rewrite interleave_four.
      change (NoDup ([winning_side s1; losing_side s1] ++
                     [winning_side s2; losing_side s2])).
      by rewrite (decided_result_perm s1 Ds1), (decided_result_perm s2 Ds2). }
    assert (pSquadra1 f ≠ pSquadra2 f ∧ pSquadra1 t ≠ pSquadra2 t) as [Nf Nt].
    { unfold playoff_sides in Hft. simpl in Hft.
      rewrite !NoDup_cons, !not_elem_of_cons in Hft. tauto. }
    eexists _, f.
    split_and!; [apply list_elem_of_In; simpl; tauto|done|phase_filters; reflexivity|..].
    + use_decided f Df Nf. use_decided t Dt Nt.
      unfold placed_in_order. simpl. split_and!; try done.
      by rewrite Hperm.
    + by use_decided f Df Nf.
    + by use_decided f Df Nf.
    + use_decided f Df Nf. use_decided t Dt Nt. simpl. intros x Hx.
      rewrite Hperm in Hx. apply elem_of_app in Hx as [Hx|Hx];
        [exists s1|exists s2]; (split; [apply list_elem_of_In; simpl; tauto|done]).
    + intros m Hm. rewrite !elem_of_cons in Hm.
      destruct Hm as [->|[->|[->|[->|[]%elem_of_nil]]]]; by apply decided_scored.
  - set (qsides := playoff_sides q1 ++ playoff_sides q2 ++
                   playoff_sides q3 ++ playoff_sides q4) in *.
    set (qlosers := [losing_side q1; losing_side q2; losing_side q3; losing_side q4]).
    assert (playoff_sides s1 ++ playoff_sides s2 ++ qlosers ≡ₚ qsides) as Hs.
    { rewrite Es1, Es2. unfold qlosers. simpl. rewrite interleave_eight.
      change ([winning_side q1; losing_side q1] ++ [winning_side q2; losing_side q2] ++
              [winning_side q3; losing_side q3] ++ [winning_side q4; losing_side q4]
              ≡ₚ qsides).
      by rewrite (decided_result_perm q1 Dq1), (decided_result_perm q2 Dq2),
                 (decided_result_perm q3 Dq3), (decided_result_perm q4 Dq4). }
    assert (playoff_sides f ++ playoff_sides t ++ qlosers ≡ₚ qsides) as Hft.
    { rewrite Ef, Et. simpl. rewrite interleave_four.
      change ([winning_side s1; losing_side s1] ++
              [winning_side s2; losing_side s2] ++ qlosers ≡ₚ qsides).
      by rewrite (decided_result_perm s1 Ds1), (decided_result_perm s2 Ds2). }
    assert ([winning_side f; losing_side f; winning_side t; losing_side t] ++ qlosers
            ≡ₚ qsides) as Hperm.
    { change ([winning_side f; losing_side f] ++
              [winning_side t; losing_side t] ++ qlosers ≡ₚ qsides).
      by rewrite (decided_result_perm f Df), (decided_result_perm t Dt). }
    unfold qlosers in Hperm. simpl in Hperm.
    assert (pSquadra1 f ≠ pSquadra2 f ∧ pSquadra1 t ≠ pSquadra2 t) as [Nf Nt].
    { rewrite <- Hft in Hnd. unfold playoff_sides in Hnd. simpl in Hnd.
      rewrite !NoDup_cons, !not_elem_of_cons in Hnd. tauto. }
    assert (pSquadra1 q1 ≠ pSquadra2 q1 ∧ pSquadra1 q2 ≠ pSquadra2 q2 ∧
            pSquadra1 q3 ≠ pSquadra2 q3 ∧ pSquadra1 q4 ≠ pSquadra2 q4)
      as (Nq1 & Nq2 & Nq3 & Nq4).
    { unfold qsides, playoff_sides in Hnd. simpl in Hnd.
      rewrite !NoDup_cons, !not_elem_of_cons in Hnd. tauto. }
    eexists _, f.
    split_and!; [apply list_elem_of_In; simpl; tauto|done|phase_filters; reflexivity|..].
    + use_decided f Df Nf. use_decided t Dt Nt.
      use_decided q1 Dq1 Nq1. use_decided q2 Dq2 Nq2.
      use_decided q3 Dq3 Nq3. use_decided q4 Dq4 Nq4.
      unfold placed_in_order. simpl. split_and!; try done.
      by rewrite Hperm.
    + by use_decided f Df Nf.
    + by use_decided f Df Nf.
    + use_decided f Df Nf. use_decided t Dt Nt.
      use_decided q1 Dq1 Nq1. use_decided q2 Dq2 Nq2.
      use_decided q3 Dq3 Nq3. use_decided q4 Dq4 Nq4.
      simpl. intros x Hx. rewrite Hperm in Hx. unfold qsides in Hx.
      rewrite !elem_of_app in Hx.
      destruct Hx as [Hx|[Hx|[Hx|Hx]]];
        [exists q1|exists q2|exists q3|exists q4]; (split; [apply list_elem_of_In; simpl; tauto|done]).
    + intros m Hm. rewrite !elem_of_cons in Hm.
      destruct Hm as [->|[->|[->|[->|[->|[->|[->|[->|[]%elem_of_nil]]]]]]]];
        by apply decided_scored.
Qed.

(** C8 (as the code has it).  When the stored bracket is consistent, that
    is: it has one of the three shapes built by [generate_playoffs]; every
    match has both scores, they differ, and its winner field names its side
    with more sets; the sides of the first round are pairwise different;
    every later match is between the winners (the Third-Place match: the
    losers) of the two matches that feed it; and when moreover every side
    is a grouped team and the group tables are sound, then
    [generate_final_standings] returns final standings whose positions are
    1, 2, 3, ... without gap or repetition, in which every grouped team has
    exactly one position and nothing else has one, with position 1 the
    Final's winner and position 2 the Final's loser. *)
Theorem generate_final_standings_complete (tm : TournamentManager) :
  resolved_bracket (playoffs tm) →
  (∀ m, m ∈ playoffs tm → grouped tm (pSquadra1 m) ∧ grouped tm (pSquadra2 m)) →
  group_tables_sound tm →
  ∃ tm' f,
    f ∈ playoffs tm ∧ Fase f = "Finals" ∧
    generate_final_standings tm = Some tm' ∧
    (final_standings tm').*1
    = seqZ 1 (Z.of_nat (length (final_standings tm'))) ∧
    NoDup (final_standings tm').*2 ∧
    (∀ t, t ∈ (final_standings tm').*2 ↔ grouped tm t) ∧
    final_standings tm' !! 0%nat = Some (1, winning_side f) ∧
    final_standings tm' !! 1%nat = Some (2, losing_side f).
Proof.
  intros Hres Hsides Hsound.
  destruct (bracket_positions_resolved _ Hres)
    as (positions & f & Hin & Hf & Hpos & Hord & H0 & H1 & Hnames & Hscored).
  assert (playoffs tm ≠ []) as Hne by (intros E; rewrite E in Hin; by apply elem_of_nil in Hin).
  assert (check_playoffs_complete tm = true) as Hc
    by by apply check_playoffs_complete_scored.
  destruct (generate_final_standings_total tm positions Hne Hc Hpos Hsound)
    as (tm' & Hg & Hprefix & Hn & Ho).
  destruct (Ho Hord) as [Hseq Hnd].
  exists tm', f. split_and!; try done.
  - intros t. rewrite Hn. split; [|by right].
    intros [Ht|?]; [|done].
    destruct (Hnames t Ht) as (m & Hm & Hside).
    destruct (Hsides m Hm). unfold playoff_sides in Hside.
    rewrite !elem_of_cons in Hside.
    destruct Hside as [->|[->|[]%elem_of_nil]]; done.
  - by apply (prefix_lookup_Some positions).
  - by apply (prefix_lookup_Some positions).
Qed.

Lemma sides_checked_grouped (tm : TournamentManager) :
  sides_checked tm →
  ∀ m, m ∈ playoffs tm → grouped tm (pSquadra1 m) ∧ grouped tm (pSquadra2 m).
Proof.
  unfold sides_checked. rewrite Forall_forall. intros Hc m Hm.
  specialize (Hc m Hm). rewrite !Forall_cons in Hc. destruct Hc as (H1 & H2 & _).
  assert (∀ t, Exists (λ g, t ∈ default [] (groups_lookup (groups tm) g))
                      (groups tm).*1 → grouped tm t) as Hg.
  { intros t (g & _ & Ht)%Exists_exists. unfold grouped.
    destruct (groups_lookup (groups tm) g) as [teams|] eqn:E; simpl in Ht;
      [by exists g, teams|by apply elem_of_nil in Ht]. }
  split; by apply Hg.
Qed.

Lemma generate_final_standings_complete_witness :
  ∃ tm',
    generate_final_standings (example_played RowCopy 4) = Some tm' ∧
    (final_standings tm').*1
    = seqZ 1 (Z.of_nat (length (final_standings tm'))) ∧
    final_standings tm' !! 0%nat = Some (1, "T1") ∧
    final_standings tm' !! 1%nat = Some (2, "T5").
Proof.
  assert (playoffs (example_played RowCopy 4)
          = [ mkPlayoffMatch "Quarterfinals" "T1" "T7" (Some 3) (Some 0) "T1";
              mkPlayoffMatch "Quarterfinals" "T2" "T8" (Some 3) (Some 1) "T2";
              mkPlayoffMatch "Quarterfinals" "T4" "T6" (Some 2) (Some 3) "T6";
              mkPlayoffMatch "Quarterfinals" "T3" "T5" (Some 0) (Some 3) "T5";
              mkPlayoffMatch "Semifinals" "T1" "T2" (Some 3) (Some 2) "T1";
              mkPlayoffMatch "Semifinals" "T6" "T5" (Some 1) (Some 3) "T5";
              mkPlayoffMatch "Finals" "T1" "T5" (Some 3) (Some 0) "T1";
              mkPlayoffMatch "Third Place" "T2" "T6" (Some 3) (Some 2) "T2" ])
    as E by (vm_compute; reflexivity).
  destruct (generate_final_standings_complete (example_played RowCopy 4))
    as (tm' & f & Hin & Hf & Hg & Hseq & _ & _ & H0 & H1).
  - rewrite E.
    apply resolved_quarterfinals; try reflexivity;
      try (split; [do 2 eexists; split_and!; [reflexivity|reflexivity|discriminate]
                  |reflexivity]).
    apply (bool_decide_unpack _). vm_compute. reflexivity.
  - apply sides_checked_grouped. apply (bool_decide_unpack _).
    vm_compute. reflexivity.
  - apply tables_checked_sound. vm_compute. reflexivity.
  - exists tm'. split; [exact Hg|]. split; [exact Hseq|].
    rewrite E in Hin. rewrite !elem_of_cons in Hin.
    destruct Hin as [->|[->|[->|[->|[->|[->|[->|[->|[]%elem_of_nil]]]]]]]];
      try discriminate Hf.
    split; [exact H0|exact H1].
Defined.

(** C8, as stated, fails on complete brackets without a drawn match.  After a
    Quarterfinal has been revised the Semifinal keeps the former winner: "T1"
    is ranked first and fifth, and nine positions go to eight teams.  When
    the rows of the loop are copies and two rounds are stored by one call,
    the winner field of the Final holds a label, which is ranked first. *)
Lemma generate_final_standings_stale_bracket :
  revised_outcome RowCopy ∧ revised_outcome RowView ∧ rounds_together_outcome.
Proof.
  split_and!; (split_and!; vm_compute; reflexivity).
Qed.

(** ** The statements at the example tournament *)

Lemma standings_row_points_witness :
  ∃ standings',
    standings_row (initial_standings ["T1"; "T2"; "T3"])
                  (mkGroupMatch "T1" "T2" (Some 3) (Some 2) "") = Some standings' ∧
    points_of standings' "T1" = Some 3 ∧
    points_of standings' "T2" = Some 1 ∧
    points_of standings' "T3" = Some 0.
Proof.
  destruct (standings_row_points (initial_standings ["T1"; "T2"; "T3"])
              (mkGroupMatch "T1" "T2" (Some 3) (Some 2) "") 3 2 0 0)
    as (_ & _ & _ & standings' & Hrow & Hwin & _ & Hother);
    [reflexivity|reflexivity|discriminate|discriminate|reflexivity|reflexivity|].
  exists standings'. split; [exact Hrow|].
  destruct Hwin as [H1 H2]; [reflexivity|].
  split; [exact H1|]. split; [exact H2|].
  rewrite Hother; [reflexivity|discriminate|discriminate].
Defined.

Lemma generate_matches_round_robin_witness :
  ∃ ms,
    matches example_scheduled !! "A" = Some ms ∧ length ms = 6%nat.
Proof.
  destruct (generate_matches_round_robin
              (mkTournamentManager example_groups ∅ [] [])
              "A" ["T1"; "T2"; "T3"; "T4"])
    as (ms & Hms & Hlen & _).
  - apply (bool_decide_unpack _). reflexivity.
  - apply (bool_decide_unpack _). reflexivity.
  - apply (bool_decide_unpack _). reflexivity.
  - exists ms. split; [exact Hms|exact Hlen].
Defined.

Lemma calculate_group_standings_sorted_witness :
  let a := mkStanding "T2" 3 1 2 5 6 4 in
  let b := mkStanding "T4" 3 1 2 6 8 4 in
  Points a > Points b ∨
  (Points a = Points b ∧
   (SetsWon a - SetsLost a > SetsWon b - SetsLost b ∨
    (SetsWon a - SetsLost a = SetsWon b - SetsLost b ∧
     (SetsWon a >= SetsWon b)%Z))).
Proof.
  apply (calculate_group_standings_sorted example_group_stage "A"
           [ mkStanding "T1" 3 3 0 9 3 9; mkStanding "T2" 3 1 2 5 6 4;
             mkStanding "T4" 3 1 2 6 8 4; mkStanding "T3" 3 1 2 4 7 3 ]
           1 2);
    [vm_compute; reflexivity|lia|reflexivity|reflexivity].
Defined.

Lemma generate_playoffs_shape_witness :
  ∃ tm', generate_playoffs example_group_stage 4 = Some tm' ∧
         length (playoffs tm') = 8%nat.
Proof.
  destruct (generate_playoffs_shape example_group_stage 4
              [ ("A", "T1", 0%nat); ("A", "T2", 1%nat); ("A", "T4", 2%nat);
                ("A", "T3", 3%nat); ("B", "T5", 0%nat); ("B", "T6", 1%nat);
                ("B", "T8", 2%nat); ("B", "T7", 3%nat) ])
    as (tm' & Hgen & H8 & _); [vm_compute; reflexivity|].
  exists tm'. split; [exact Hgen|].
  rewrite <- (length_fmap Fase), H8; [reflexivity|simpl; lia].
Defined.

Lemma update_match_results_winner_witness :
  ∃ stored,
    matches (update_match_results example_scheduled "A"
               [ mkGroupMatch "T1" "T2" (Some 3) (Some 1) "";
                 mkGroupMatch "T1" "T3" (Some 2) (Some 2) "";
                 mkGroupMatch "T2" "T3" None (Some 1) "T2" ]) !! "A"
    = Some stored ∧
    Vincitore <$> stored = ["T1"; "Draw"; ""].
Proof.
  destruct (update_match_results_winner example_scheduled "A"
              [ mkGroupMatch "T1" "T2" (Some 3) (Some 1) "";
                mkGroupMatch "T1" "T3" (Some 2) (Some 2) "";
                mkGroupMatch "T2" "T3" None (Some 1) "T2" ])
    as (stored & Hs & _).
  exists stored. split; [exact Hs|].
  vm_compute in Hs. injection Hs as <-. reflexivity.
Defined.

Lemma build_phases_leaves_out_witness :
  Forall (λ m, pSquadra1 m ≠ "T3" ∧ pSquadra2 m ≠ "T3")
         (build_phases (imap (λ pos team, ("A", team, pos))
                          ["T1"; "T2"; "T3"; "T4"; "T5"])).
Proof.
  apply Forall_forall.
  destruct (build_phases_leaves_out
              (imap (λ pos team, ("A", team, pos))
                 ["T1"; "T2"; "T3"; "T4"; "T5"])) as [H5 _].
  destruct H5 as (a & b & c & d & _ & _ & _ & _ & _ & Hout); [simpl; lia|].
  apply (Hout 2%nat ("A", "T3", 2%nat)).
  - simpl. lia.
  - reflexivity.
  - apply (bool_decide_unpack _). vm_compute. reflexivity.
  - apply (bool_decide_unpack _). vm_compute. reflexivity.
Defined.

(** ** Roster *)

Lemma register_spec (teams : list TeamEntry) (e : TeamEntry) :
  register teams e
  = if decide (NomeSquadra e ∈ NomeSquadra <$> teams) then teams else teams ++ [e].
Proof.
  unfold register, add_team. destruct e. simpl. by case_decide.
Qed.

(** X1.  [add_team] answers false exactly when the name is already in the
    roster, and then leaves the roster as it is; otherwise it answers true
    and appends one row with the data given; unique names stay unique. *)
Theorem add_team_unique (teams : list TeamEntry)
    (name contact_person contact_info payment_status notes : string) :
  NoDup (NomeSquadra <$> teams) →
  let result :=
    add_team teams name contact_person contact_info payment_status notes in
  NoDup (NomeSquadra <$> result.2) ∧
  (result.1 = false ↔ name ∈ NomeSquadra <$> teams) ∧
  (result.1 = false → result.2 = teams) ∧
  (result.1 = true →
     result.2 = teams ++ [mkTeamEntry name contact_person contact_info
                                      payment_status notes]).
Proof.
  intros Hnd. unfold add_team.
  destruct (decide (name ∈ NomeSquadra <$> teams)) as [Hin|Hin]; simpl.
  - split_and!; try done.
  - split_and!; try done.
    + rewrite fmap_app. apply NoDup_app. split_and!; [done| |apply NoDup_singleton].
      intros x Hx ?%list_elem_of_singleton. simpl in *. by subst.
Qed.

(** X2.  Whatever sequence of registrations is submitted from the empty
    roster, the names in the roster are pairwise different, they are exactly
    the submitted names, and the rows are a subsequence of the submitted
    ones: a name keeps the data of its first registration. *)
Theorem register_all_unique (entries : list TeamEntry) :
  let teams := foldl register initial_roster entries in
  NoDup (NomeSquadra <$> teams) ∧
  (∀ n, n ∈ NomeSquadra <$> teams ↔ n ∈ NomeSquadra <$> entries) ∧
  teams `sublist_of` entries ∧
  (∀ i e, teams !! i = Some e →
     ∃ j, entries !! j = Some e ∧
       ∀ j' e', (j' < j)%nat → entries !! j' = Some e' →
         NomeSquadra e' ≠ NomeSquadra e).
Proof.
  intros teams. subst teams. unfold initial_roster.
  induction entries as [|e l IH] using rev_ind.
  - simpl. split_and!; [constructor|done|done|]. by intros i e.
  - rewrite foldl_app. simpl. rewrite register_spec.
    destruct IH as (Hnd & Hn & Hsub & Hfirst).
    destruct (decide (NomeSquadra e ∈ NomeSquadra <$> foldl register [] l))
      as [Hin|Hin].
    + split_and!; [done| |by apply sublist_inserts_r|].
      * intros n. rewrite fmap_app, elem_of_app, Hn. simpl.
        rewrite list_elem_of_singleton. split; [by left|].
        intros [?| ->]; [done|]. by apply Hn.
      * intros i x Hx. destruct (Hfirst i x Hx) as (j & Hj & Hbefore).
        exists j. split; [by apply lookup_app_l_Some|].
        intros j' e' Hlt He'. apply (Hbefore j' e' Hlt).
        rewrite lookup_app_l in He'; [done|].
        apply lookup_lt_Some in Hj. lia.
    + split_and!.
      * rewrite fmap_app. apply NoDup_app. split_and!; [done| |apply NoDup_singleton].
        intros x Hx ?%list_elem_of_singleton. simpl in *. by subst.
      * intros n. rewrite !fmap_app, !elem_of_app, Hn. done.
      * by apply sublist_app.
      * intros i x Hx. apply lookup_app_Some in Hx as [Hx|[Hlen Hx]].
        -- destruct (Hfirst i x Hx) as (j & Hj & Hbefore).
           exists j. split; [by apply lookup_app_l_Some|].
           intros j' e' Hlt He'. apply (Hbefore j' e' Hlt).
           rewrite lookup_app_l in He'; [done|].
           apply lookup_lt_Some in Hj. lia.
        -- apply list_lookup_singleton_Some in Hx as [_ <-].
           exists (length l). split; [by apply list_lookup_middle|].
           intros j' e' Hlt He' E. rewrite lookup_app_l in He' by done.
           apply Hin, Hn. rewrite <- E. apply list_elem_of_fmap.
           exists e'. split; [done|]. by eapply list_elem_of_lookup_2.
Qed.

(** ** Group assignment *)

Lemma group_label_inj (i j : nat) :
  (i < 191)%nat → (j < 191)%nat → group_label i = group_label j → i = j.
Proof.
  unfold group_label. intros Hi Hj [= E].
  apply (f_equal Ascii.nat_of_ascii) in E.
  rewrite !Ascii.nat_ascii_embedding in E by lia. lia.
Qed.

Lemma groups_set_fresh (gs : list (string * list string)) (group : string)
    (teams : list string) :
  group ∉ gs.*1 → groups_set gs group teams = gs ++ [(group, teams)].
Proof. intros H. unfold groups_set. by rewrite decide_False. Qed.

Lemma group_slice_python (team_names : list string) (k i : nat) :
  take ((i * k + k) `min` length team_names - i * k) (drop (i * k) team_names)
  = group_slice team_names k i.
Proof.
  unfold group_slice.
  destruct (decide (i * k + k ≤ length team_names)%nat).
  - f_equal. lia.
  - rewrite !take_ge; [done|rewrite length_drop; lia..].
Qed.

(** The groups built by the loop of [create_groups], in closed form. *)
Lemma assign_groups_closed (team_names : list string) (k n : nat) :
  (n ≤ 191)%nat →
  foldl (assign_group team_names k) [] (seq 0 n)
  = (λ i, (group_label i, group_slice team_names k i))
    <$> filter (λ i, (i * k < length team_names)%nat) (seq 0 n).
Proof.
  induction n as [|n IH]; intros Hn; [done|].
  rewrite seq_S, foldl_app, filter_app, fmap_app, IH by lia. simpl.
  unfold assign_group at 1. rewrite filter_cons, filter_nil.
  destruct (decide (n * k < length team_names)%nat); [|by rewrite app_nil_r].
  rewrite group_slice_python. apply groups_set_fresh.
  rewrite <- list_fmap_compose.
  intros (i & E & Hi)%list_elem_of_fmap. simpl in E.
  apply list_elem_of_filter in Hi as [_ Hi]. apply elem_of_seq in Hi.
  apply group_label_inj in E; lia.
Qed.

Lemma concat_slices (team_names : list string) (k n : nat) :
  concat ((λ i, group_slice team_names k i)
          <$> filter (λ i, (i * k < length team_names)%nat) (seq 0 n))
  = take (n * k) team_names.
Proof.
  induction n as [|n IH]; [done|].
  rewrite seq_S, filter_app, fmap_app, concat_app, IH. simpl.
  rewrite filter_cons, filter_nil.
  destruct (decide (n * k < length team_names)%nat).
  - simpl. rewrite app_nil_r. unfold group_slice.
    rewrite take_take_drop. f_equal. lia.
  - simpl. rewrite app_nil_r. rewrite !take_ge by lia. done.
Qed.

(** X3.  [create_groups] (for a number of groups in the range of the
    labels) stores, for every [i] below [num_groups] with
    [i * teams_per_group] inside the list, the group labelled [chr(65 + i)]
    with the names from position [i * teams_per_group], at most
    [teams_per_group] of them, in the order of the loop; the labels are
    pairwise different, no group is empty and none exceeds
    [teams_per_group] (for a positive [teams_per_group]); the match tables
    are emptied. *)
Theorem create_groups_slices (shuffle : list string → list string)
    (teams : list TeamEntry) (tm : TournamentManager)
    (num_groups teams_per_group : nat) :
  (num_groups ≤ 63)%nat →
  let team_names := shuffle (NomeSquadra <$> teams) in
  let created := create_groups shuffle teams tm num_groups teams_per_group in
  groups created
  = (λ i, (group_label i, group_slice team_names teams_per_group i))
    <$> filter (λ i, (i * teams_per_group < length team_names)%nat)
               (seq 0 num_groups) ∧
  NoDup (groups created).*1 ∧
  ((0 < teams_per_group)%nat →
     ∀ group members, (group, members) ∈ groups created →
       (1 ≤ length members ≤ teams_per_group)%nat) ∧
  matches created = ∅.
Proof.
  intros Hn team_names created. subst created. unfold create_groups. simpl.
  fold team_names. rewrite assign_groups_closed by lia. split_and!; try done.
  - rewrite <- list_fmap_compose.
    apply NoDup_fmap_2_strong; [|apply NoDup_filter, NoDup_seq].
    intros i j Hi Hj E. simpl in E.
    apply list_elem_of_filter in Hi as [_ Hi]. apply elem_of_seq in Hi.
    apply list_elem_of_filter in Hj as [_ Hj]. apply elem_of_seq in Hj.
    apply group_label_inj in E; lia.
  - intros Hk group members (i & [= -> ->] & Hi)%list_elem_of_fmap.
    apply list_elem_of_filter in Hi as [Hi _].
    unfold group_slice. rewrite length_take, length_drop. lia.
Qed.

(** X4.  The groups made by [create_groups] (for a number of groups in the
    range of the labels) hold the first
    [num_groups * teams_per_group] names of the shuffled list, each once and
    in that order across the groups: with unique names in the roster no team
    is in two groups, every grouped team is registered, and the names past
    that capacity are in no group. *)
Theorem create_groups_partition (shuffle : list string → list string)
    (teams : list TeamEntry) (tm : TournamentManager)
    (num_groups teams_per_group : nat) :
  (num_groups ≤ 63)%nat →
  (∀ l, shuffle l ≡ₚ l) →
  NoDup (NomeSquadra <$> teams) →
  let team_names := shuffle (NomeSquadra <$> teams) in
  let created := create_groups shuffle teams tm num_groups teams_per_group in
  concat (groups created).*2
  = take (num_groups * teams_per_group)%nat team_names ∧
  NoDup (concat (groups created).*2) ∧
  (∀ t, t ∈ concat (groups created).*2 → t ∈ NomeSquadra <$> teams) ∧
  (∀ t, t ∈ drop (num_groups * teams_per_group)%nat team_names →
     t ∉ concat (groups created).*2) ∧
  length (concat (groups created).*2)
  = ((num_groups * teams_per_group) `min` length teams)%nat.
Proof.
  intros Hn Hperm Hnd team_names created.
  assert (groups created
          = (λ i, (group_label i, group_slice team_names teams_per_group i))
            <$> filter (λ i, (i * teams_per_group < length team_names)%nat)
                       (seq 0 num_groups)) as Hg.
  { subst created. unfold create_groups. simpl. fold team_names.
    apply assign_groups_closed. lia. }
  assert (concat (groups created).*2
          = take (num_groups * teams_per_group) team_names) as Hc.
  { rewrite Hg, <- list_fmap_compose. apply concat_slices. }
  assert (NoDup team_names) as Hnames.
  { unfold team_names. by rewrite Hperm. }
  rewrite Hc. split_and!; try done.
  - rewrite <- (take_drop (num_groups * teams_per_group) team_names) in Hnames.
    by apply NoDup_app in Hnames as (? & _).
  - intros t (i & Ht%list_elem_of_lookup_2 & _)%elem_of_take.
    unfold team_names in Ht. by rewrite Hperm in Ht.
  - intros t Ht Ht'.
    rewrite <- (take_drop (num_groups * teams_per_group) team_names) in Hnames.
    apply NoDup_app in Hnames as (_ & Hdisj & _). by apply (Hdisj t).
  - rewrite length_take. unfold team_names. by rewrite Hperm, length_fmap.
Qed.

(** ** More on the group standings *)

Lemma standings_row_Some (standings standings' : list Standing) (m : GroupMatch) :
  standings_row standings m = Some standings' →
  Team <$> standings' = Team <$> standings ∧
  (played m →
   Squadra1 m ∈ Team <$> standings ∧ Squadra2 m ∈ Team <$> standings).
Proof.
  unfold standings_row, played.
  destruct (SetSquadra1 m) as [sets1|]; [|intros [= <-]; split; [done|by intros [[] _]]].
  destruct (SetSquadra2 m) as [sets2|]; [|intros [= <-]; split; [done|by intros [_ []]]].
  intros H. apply bind_Some in H as (i1 & Hi1 & H).
  apply bind_Some in H as (i2 & Hi2 & H).
  rewrite team_index_alter in Hi2 by auto with standings.
  split.
  - destruct (sets1 >? sets2); [|destruct (sets2 >? sets1)];
      repeat case_match; injection H as <-;
      by rewrite !team_column_alter by auto with standings.
  - intros _.
    apply team_index_Some in Hi1 as (r1 & Hr1 & <-).
    apply team_index_Some in Hi2 as (r2 & Hr2 & <-).
    split; apply list_elem_of_fmap; eexists; (split; [done|]);
      by eapply list_elem_of_lookup_2.
Qed.

Lemma standings_loop_Some (matches_df : list GroupMatch)
    (standings standings' : list Standing) :
  for_each standings_row standings matches_df = Some standings' →
  Team <$> standings' = Team <$> standings ∧
  ∀ m, m ∈ matches_df → played m →
    Squadra1 m ∈ Team <$> standings ∧ Squadra2 m ∈ Team <$> standings.
Proof.
  revert standings. induction matches_df as [|m l IH]; intros standings H.
  - injection H as <-. split; [done|]. by intros m ?%elem_of_nil.
  - simpl in H. apply bind_Some in H as (st1 & H1 & H).
    apply standings_row_Some in H1 as [E1 Hm].
    apply IH in H as [E Hl]. split; [congruence|].
    intros x [->|Hx]%elem_of_cons; [done|]. rewrite <- E1. by apply Hl.
Qed.

(** X5.  [calculate_group_standings] returns a table exactly when every
    played match of the group's table is between two teams of the group
    (otherwise looking up the row of the missing team raises); the table
    then has one row for each team of the group, whether it has played or
    not. *)
Theorem calculate_group_standings_returns (tm : TournamentManager)
    (group : string) (teams : list string) (matches_df : list GroupMatch) :
  groups_lookup (groups tm) group = Some teams →
  matches tm !! group = Some matches_df →
  ((∃ rows, calculate_group_standings tm group = Some (Table rows)) ↔
   ∀ m, m ∈ matches_df → played m → Squadra1 m ∈ teams ∧ Squadra2 m ∈ teams) ∧
  (calculate_group_standings tm group = None ∨
   ∃ rows, calculate_group_standings tm group = Some (Table rows) ∧
           Team <$> rows ≡ₚ teams ∧ length rows = length teams).
Proof.
  intros Hg Hm. unfold calculate_group_standings. rewrite Hm, Hg. simpl.
  destruct (for_each standings_row (initial_standings teams) matches_df)
    as [standings|] eqn:E; simpl.
  - apply standings_loop_Some in E as [Et Hin].
    rewrite initial_standings_teams in Et, Hin. split.
    + split; [by intros _|by eexists].
    + right. eexists. split; [done|].
      assert (Team <$> sort_values standings ≡ₚ teams) as Hp
        by by rewrite sort_values_perm, Et.
      split; [done|]. by rewrite <- Hp, length_fmap.
  - split; [|by left]. split; [by intros [rows [=]]|].
    intros Hin. destruct (standings_loop_total matches_df (initial_standings teams))
      as (st & Hst & _); [|congruence].
    rewrite initial_standings_teams. intros m Hm' H1 H2.
    apply Hin; [done|by split].
Qed.

(** Effect of one update on a column total. *)
Lemma total_alter (column : Standing → Z) (f : Standing → Standing) (d : Z)
    (i : nat) (rows : list Standing) :
  (∀ r, column (f r) = column r + d) → (i < length rows)%nat →
  total column (alter f i rows) = total column rows + d.
Proof.
  intros Hf. revert i. unfold total.
  induction rows as [|r l IH]; intros i Hi; simpl in *; [lia|].
  destruct i as [|i]; simpl.
  - rewrite Hf. lia.
  - change (list_alter f i l) with (alter f i l).
    specialize (IH i ltac:(lia)).
    change (list_fmap Standing Z column) with (fmap (M:=list) column).
    lia.
Qed.

Lemma total_alter_same (column : Standing → Z) (f : Standing → Standing)
    (i : nat) (rows : list Standing) :
  (∀ r, column (f r) = column r) →
  total column (alter f i rows) = total column rows.
Proof.
  intros Hf. unfold total. f_equal. apply list_eq. intros j.
  rewrite !list_lookup_fmap. destruct (decide (i = j)) as [->|].
  - rewrite list_lookup_alter_eq. destruct (rows !! j); simpl; [|done].
    by rewrite Hf.
  - by rewrite list_lookup_alter_ne.
Qed.

Lemma total_perm (column : Standing → Z) (l1 l2 : list Standing) :
  l1 ≡ₚ l2 → total column l1 = total column l2.
Proof.
  unfold total.
  induction 1 as [|x l l' _ IH|x y l|l l' l'' _ IH1 _ IH2];
    rewrite ?fmap_cons; cbn [foldr]; lia.
Qed.

Lemma team_index_lt (standings : list Standing) (team : string) (i : nat) :
  team_index standings team = Some i → (i < length standings)%nat.
Proof.
  intros (r & Hr & _)%team_index_Some. by eapply lookup_lt_Some.
Qed.

(** Totals after one match. *)
Lemma standings_row_totals (standings standings' : list Standing)
    (m : GroupMatch) :
  standings_row standings m = Some standings' →
  total Wins standings' - total Losses standings'
  = total Wins standings - total Losses standings ∧
  total SetsWon standings' - total SetsLost standings'
  = total SetsWon standings - total SetsLost standings ∧
  total MatchesPlayed standings'
  = total MatchesPlayed standings + (if decide (played m) then 2 else 0).
Proof.
  intros H. unfold standings_row in H.
  destruct (decide (played m)) as [[[sets1 E1] [sets2 E2]]|Hnp].
  2:{ assert (standings' = standings) as ->; [|lia].
      unfold played in Hnp.
      destruct (SetSquadra1 m), (SetSquadra2 m); try congruence.
      destruct Hnp. split; by eexists. }
  rewrite E1, E2 in H.
  apply bind_Some in H as (i1 & Hi1 & H).
  apply bind_Some in H as (i2 & Hi2 & H).
  rewrite team_index_alter in Hi2 by auto with standings.
  apply team_index_lt in Hi1, Hi2.
  assert (∀ c (w l : Z) (st : list Standing),
            (∀ r a b, c (add_played a b r) = c r + (w * a + l * b)) →
            length st = length standings →
            total c (alter (add_played sets2 sets1) i2
                       (alter (add_played sets1 sets2) i1 st))
            = total c st + (w + l) * (sets1 + sets2)) as Hplayed.
  { intros c w l st Hc Hlen.
    rewrite (total_alter c _ (w * sets2 + l * sets1))
      by (rewrite ?length_alter; (done || lia)).
    rewrite (total_alter c _ (w * sets1 + l * sets2)) by (done || lia). lia. }
  assert (total Wins (alter (add_played sets2 sets1) i2
                        (alter (add_played sets1 sets2) i1 standings))
          = total Wins standings ∧
          total Losses (alter (add_played sets2 sets1) i2
                        (alter (add_played sets1 sets2) i1 standings))
          = total Losses standings ∧
          total SetsWon (alter (add_played sets2 sets1) i2
                        (alter (add_played sets1 sets2) i1 standings))
          = total SetsWon standings + (sets1 + sets2) ∧
          total SetsLost (alter (add_played sets2 sets1) i2
                        (alter (add_played sets1 sets2) i1 standings))
          = total SetsLost standings + (sets1 + sets2) ∧
          total MatchesPlayed (alter (add_played sets2 sets1) i2
                        (alter (add_played sets1 sets2) i1 standings))
          = total MatchesPlayed standings + 2) as (Ew & El & Esw & Esl & Emp).
  { split_and!.
    - by rewrite !total_alter_same by done.
    - by rewrite !total_alter_same by done.
    - rewrite (Hplayed SetsWon 1 0); [lia| |done]. intros; simpl; lia.
    - rewrite (Hplayed SetsLost 0 1); [lia| |done]. intros; simpl; lia.
    - rewrite (total_alter MatchesPlayed _ 1) by (rewrite ?length_alter; done).
      rewrite (total_alter MatchesPlayed _ 1) by done. lia. }
  set (st := alter (add_played sets2 sets1) i2
               (alter (add_played sets1 sets2) i1 standings)) in *.
  assert (length st = length standings) as Hlen
    by (unfold st; by rewrite !length_alter).
  destruct (sets1 >? sets2); [|destruct (sets2 >? sets1)];
    repeat case_match; injection H as <-;
    repeat first
      [ rewrite (total_alter_same Wins (add_points _)) by done
      | rewrite (total_alter_same Losses (add_points _)) by done
      | rewrite (total_alter_same SetsWon (add_points _)) by done
      | rewrite (total_alter_same SetsLost (add_points _)) by done
      | rewrite (total_alter_same MatchesPlayed (add_points _)) by done
      | rewrite (total_alter_same Losses add_win) by done
      | rewrite (total_alter_same SetsWon add_win) by done
      | rewrite (total_alter_same SetsLost add_win) by done
      | rewrite (total_alter_same MatchesPlayed add_win) by done
      | rewrite (total_alter_same Wins add_loss) by done
      | rewrite (total_alter_same SetsWon add_loss) by done
      | rewrite (total_alter_same SetsLost add_loss) by done
      | rewrite (total_alter_same MatchesPlayed add_loss) by done
      | rewrite (total_alter Wins add_win 1)
          by (done || rewrite ?length_alter; lia)
      | rewrite (total_alter Losses add_loss 1)
          by (done || rewrite ?length_alter; lia) ];
    lia.
Qed.

Lemma standings_loop_totals (matches_df : list GroupMatch)
    (standings standings' : list Standing) :
  for_each standings_row standings matches_df = Some standings' →
  total Wins standings' - total Losses standings'
  = total Wins standings - total Losses standings ∧
  total SetsWon standings' - total SetsLost standings'
  = total SetsWon standings - total SetsLost standings ∧
  total MatchesPlayed standings'
  = total MatchesPlayed standings
    + 2 * Z.of_nat (length (filter played matches_df)).
Proof.
  revert standings. induction matches_df as [|m l IH]; intros standings H.
  - injection H as <-. simpl. lia.
  - simpl in H. apply bind_Some in H as (st1 & H1 & H).
    apply standings_row_totals in H1 as (Hw & Hs & Hp).
    apply IH in H as (Hw' & Hs' & Hp'). rewrite filter_cons.
    destruct (decide (played m)); simpl length; lia.
Qed.

Lemma initial_standings_totals (teams : list string) (column : Standing → Z) :
  (∀ t, column (mkStanding t 0 0 0 0 0 0) = 0) →
  total column (initial_standings teams) = 0.
Proof.
  intros Hc. unfold total, initial_standings.
  induction teams as [|t l IH]; [done|].
  rewrite !fmap_cons. cbn [foldr]. rewrite Hc. lia.
Qed.

(** X6.  In every table returned by [calculate_group_standings] the wins of
    all teams add up to the losses of all teams, the sets won add up to the
    sets lost, and the matches played add up to twice the number of matches
    of the group's table that have both scores. *)
Theorem calculate_group_standings_totals (tm : TournamentManager)
    (group : string) (rows : list Standing) (matches_df : list GroupMatch) :
  calculate_group_standings tm group = Some (Table rows) →
  matches tm !! group = Some matches_df →
  total Wins rows = total Losses rows ∧
  total SetsWon rows = total SetsLost rows ∧
  total MatchesPlayed rows = 2 * Z.of_nat (length (filter played matches_df)).
Proof.
  unfold calculate_group_standings. intros H Hm. rewrite Hm in H.
  apply bind_Some in H as (teams & _ & H).
  apply bind_Some in H as (standings & Hloop & [= <-]).
  apply standings_loop_totals in Hloop as (Hw & Hs & Hp).
  rewrite !(total_perm _ _ _ (sort_values_perm standings)).
  pose proof (initial_standings_totals teams Wins (λ _, eq_refl)).
  pose proof (initial_standings_totals teams Losses (λ _, eq_refl)).
  pose proof (initial_standings_totals teams SetsWon (λ _, eq_refl)).
  pose proof (initial_standings_totals teams SetsLost (λ _, eq_refl)).
  pose proof (initial_standings_totals teams MatchesPlayed (λ _, eq_refl)).
  lia.
Qed.

Lemma standings_row_consistent (standings standings' : list Standing)
    (m : GroupMatch) :
  standings_row standings m = Some standings' →
  Forall row_consistent standings → Forall row_consistent standings'.
Proof.
  unfold standings_row. intros H Hall.
  rewrite Forall_lookup in Hall. apply Forall_lookup.
  destruct (SetSquadra1 m) as [sets1|]; [|by injection H as <-].
  destruct (SetSquadra2 m) as [sets2|]; [|by injection H as <-].
  apply bind_Some in H as (i1 & _ & H). apply bind_Some in H as (i2 & _ & H).
  destruct (sets1 >? sets2); [|destruct (sets2 >? sets1)];
    repeat case_match; apply (inj Some) in H; subst standings';
    intros j r' Hr';
    rewrite ?list_lookup_alter in Hr';
    repeat case_decide;
    repeat (apply fmap_Some in Hr' as (? & Hr' & ->));
    apply Hall in Hr';
    unfold row_consistent, add_points, add_win, add_loss, add_played,
      points_win, points_tiebreak, points_loss in *; simpl; lia.
Qed.

(** X7.  In every row of a table returned by [calculate_group_standings]:
    wins and losses are not negative, together they do not exceed the
    matches played (the rest are draws), and the points lie between 3 per
    win and 3 per win plus 1 per loss. *)
Theorem calculate_group_standings_consistent (tm : TournamentManager)
    (group : string) (rows : list Standing) (r : Standing) :
  calculate_group_standings tm group = Some (Table rows) → r ∈ rows →
  0 ≤ Wins r ∧ 0 ≤ Losses r ∧
  Wins r + Losses r ≤ MatchesPlayed r ∧
  3 * Wins r ≤ Points r ≤ 3 * Wins r + Losses r.
Proof.
  unfold calculate_group_standings. intros H Hr.
  destruct (matches tm !! group) as [matches_df|]; [|done].
  apply bind_Some in H as (teams & _ & H).
  apply bind_Some in H as (standings & Hloop & [= <-]).
  rewrite sort_values_perm in Hr.
  assert (Forall row_consistent standings) as Hall.
  { assert (Forall row_consistent (initial_standings teams)) as Hinit.
    { apply Forall_fmap, Forall_forall. intros t _.
      unfold row_consistent, points_win, points_tiebreak. simpl. lia. }
    revert Hinit Hloop. generalize (initial_standings teams).
    induction matches_df as [|m l IH]; intros st Hst Hl.
    - by injection Hl as <-.
    - simpl in Hl. apply bind_Some in Hl as (st1 & H1 & Hl).
      apply (IH st1); [|done]. by eapply standings_row_consistent. }
  rewrite Forall_forall in Hall. specialize (Hall r Hr).
  unfold row_consistent, points_win, points_tiebreak in Hall. lia.
Qed.

Lemma standings_loop_played (matches_df : list GroupMatch)
    (standings : list Standing) :
  for_each standings_row standings (filter played matches_df)
  = for_each standings_row standings matches_df.
Proof.
  revert standings. induction matches_df as [|m l IH]; intros standings; [done|].
  rewrite filter_cons. destruct (decide (played m)) as [Hp|Hp].
  - simpl. destruct (standings_row standings m); simpl; [apply IH|done].
  - simpl. rewrite IH.
    assert (standings_row standings m = Some standings) as ->; [|done].
    unfold standings_row, played in *.
    destruct (SetSquadra1 m), (SetSquadra2 m); try done.
    destruct Hp. split; by eexists.
Qed.

(** X8.  Matches without both scores do not count: the standings of a group
    are those computed from the table with these matches removed. *)
Theorem calculate_group_standings_played_only (tm : TournamentManager)
    (group : string) (matches_df : list GroupMatch) :
  matches tm !! group = Some matches_df →
  calculate_group_standings (with_table tm group (filter played matches_df)) group
  = calculate_group_standings tm group.
Proof.
  intros Hm. unfold calculate_group_standings, with_table. simpl.
  rewrite lookup_insert_eq, Hm.
  destruct (groups_lookup (groups tm) group) as [teams|]; simpl; [|done].
  by rewrite standings_loop_played.
Qed.

(** ** Drawn group matches *)

Lemma cell_alter_same (column : Standing → Z) (f : Standing → Standing)
    (i : nat) (standings : list Standing) (team : string) :
  keeps_team f → (∀ r, column (f r) = column r) →
  cell column (alter f i standings) team = cell column standings team.
Proof.
  intros Hk Hc. unfold cell. rewrite team_index_alter by done.
  destruct (team_index standings team) as [j|]; simpl; [|done].
  rewrite list_lookup_alter. case_decide; [subst|done].
  destruct (standings !! j); simpl; [|done]. by rewrite Hc.
Qed.

Lemma cell_alter_at (column : Standing → Z) (f : Standing → Standing) (d : Z)
    (i : nat) (standings : list Standing) (team : string) :
  keeps_team f → (∀ r, column (f r) = column r + d) →
  team_index standings team = Some i →
  cell column (alter f i standings) team
  = (λ x, x + d) <$> cell column standings team.
Proof.
  intros Hk Hc Hi. unfold cell. rewrite team_index_alter, Hi by done. simpl.
  rewrite list_lookup_alter_eq.
  destruct (standings !! i); simpl; [|done]. by rewrite Hc.
Qed.

Lemma cell_alter_other (column : Standing → Z) (f : Standing → Standing)
    (i j : nat) (standings : list Standing) (team : string) :
  keeps_team f → team_index standings team = Some j → i ≠ j →
  cell column (alter f i standings) team = cell column standings team.
Proof.
  intros Hk Hj Hne. unfold cell. rewrite team_index_alter, Hj by done. simpl.
  by rewrite list_lookup_alter_ne.
Qed.

(** X9.  A played match with equal scores between two different teams of
    the table counts as a match played for both and adds the sets to both
    sides' sets won and sets lost, but gives nobody a win, a loss or a
    point. *)
Theorem standings_row_draw (standings : list Standing) (m : GroupMatch)
    (sets : Z) :
  SetSquadra1 m = Some sets → SetSquadra2 m = Some sets →
  Squadra1 m ≠ Squadra2 m →
  Squadra1 m ∈ Team <$> standings → Squadra2 m ∈ Team <$> standings →
  ∃ standings',
    standings_row standings m = Some standings' ∧
    (∀ t, cell Points standings' t = cell Points standings t ∧
          cell Wins standings' t = cell Wins standings t ∧
          cell Losses standings' t = cell Losses standings t) ∧
    (∀ t, t = Squadra1 m ∨ t = Squadra2 m →
       cell MatchesPlayed standings' t
       = (λ x, x + 1) <$> cell MatchesPlayed standings t ∧
       cell SetsWon standings' t = (λ x, x + sets) <$> cell SetsWon standings t ∧
       cell SetsLost standings' t
       = (λ x, x + sets) <$> cell SetsLost standings t).
Proof.
  intros E1 E2 Hne H1 H2.
  destruct (team_index_is_Some _ _ H1) as [i1 Hi1].
  destruct (team_index_is_Some _ _ H2) as [i2 Hi2].
  assert (i1 ≠ i2) as Hidx.
  { intros <-. apply Hne. by eapply team_index_inj. }
  unfold standings_row. rewrite E1, E2, Hi1. simpl.
  rewrite team_index_alter, Hi2 by auto with standings. simpl.
  rewrite Z.gtb_ltb, Z.ltb_irrefl.
  eexists. split; [done|]. split.
  - intros t. split_and!; by rewrite !cell_alter_same by auto with standings.
  - assert (team_index (alter (add_played sets sets) i1 standings)
              (Squadra1 m) = Some i1) as Hi1'
      by by rewrite team_index_alter by auto with standings.
    assert (team_index (alter (add_played sets sets) i1 standings)
              (Squadra2 m) = Some i2) as Hi2'
      by by rewrite team_index_alter by auto with standings.
    assert (keeps_team (add_played sets sets)) as Hk by done.
    intros t [-> | ->].
    + rewrite !(cell_alter_other _ _ i2 i1 _ _ Hk Hi1') by done.
      split_and!; by apply cell_alter_at.
    + rewrite (cell_alter_at MatchesPlayed _ 1 i2 _ _ Hk) by done.
      rewrite (cell_alter_at SetsWon _ sets i2 _ _ Hk) by done.
      rewrite (cell_alter_at SetsLost _ sets i2 _ _ Hk) by done.
      by rewrite !(cell_alter_other _ _ i1 i2 _ _ Hk Hi2).
Qed.

(** ** Tables made by the scheduler *)

Lemma groups_lookup_elem (gs : list (string * list string)) (group : string)
    (teams : list string) :
  NoDup gs.*1 → (group, teams) ∈ gs → groups_lookup gs group = Some teams.
Proof.
  intros Hnd Hin. destruct (groups_lookup_key gs group) as [ts Hts].
  { apply list_elem_of_fmap. by exists (group, teams). }
  rewrite Hts. f_equal. unfold groups_lookup in Hts.
  apply fmap_Some in Hts as ([i [g ts']] & Hf & ->).
  apply list_find_Some in Hf as (Hi & Hg & _). simpl in *. subst g.
  apply list_elem_of_lookup_1 in Hin as [j Hj].
  assert (i = j) as ->; [|congruence].
  apply (NoDup_lookup gs.*1 i j group Hnd);
    rewrite list_lookup_fmap; [by rewrite Hi|by rewrite Hj].
Qed.

Lemma groups_lookup_In (gs : list (string * list string)) (group : string)
    (teams : list string) :
  groups_lookup gs group = Some teams → (group, teams) ∈ gs.
Proof.
  unfold groups_lookup. intros ([i [g ts]] & Hf & ->)%fmap_Some.
  apply list_find_Some in Hf as (Hi & Hg & _). simpl in *. subst g.
  by eapply list_elem_of_lookup_2.
Qed.

Lemma round_robin_unplayed (teams : list string) :
  filter played (round_robin teams) = [].
Proof.
  apply filter_nothing. intros m (i & j & a & b & _ & _ & _ & ->)%round_robin_elem.
  by intros [[] _].
Qed.

(** X10.  Right after [generate_matches] (group labels being pairwise
    different, as in a dictionary) every group has its table, every match
    of the table is between two teams of the group and has no score yet,
    and the standings of every group are computed without error: one row
    per team, all counters zero. *)
Theorem generate_matches_standings (tm : TournamentManager) :
  NoDup (groups tm).*1 →
  group_tables_sound (generate_matches tm) ∧
  ∀ group teams, (group, teams) ∈ groups tm →
    ∃ matches_df rows,
      matches (generate_matches tm) !! group = Some matches_df ∧
      (∀ m, m ∈ matches_df →
         Squadra1 m ∈ teams ∧ Squadra2 m ∈ teams ∧
         SetSquadra1 m = None ∧ SetSquadra2 m = None) ∧
      calculate_group_standings (generate_matches tm) group = Some (Table rows) ∧
      rows ≡ₚ (λ t, mkStanding t 0 0 0 0 0 0) <$> teams.
Proof.
  intros Hnd. split.
  - intros group teams Hg. apply groups_lookup_In in Hg.
    exists (round_robin teams). split; [by apply generate_matches_lookup|].
    intros m (i & j & a & b & _ & Ha & Hb & ->)%round_robin_elem _ _. simpl.
    split; by eapply list_elem_of_lookup_2.
  - intros group teams Hin. unfold calculate_group_standings.
    rewrite (generate_matches_lookup tm group teams Hnd Hin).
    change (groups (generate_matches tm)) with (groups tm).
    rewrite (groups_lookup_elem _ _ _ Hnd Hin). simpl.
    rewrite <- standings_loop_played, round_robin_unplayed. simpl.
    eexists _, _. split_and!; [done| |done|apply sort_values_perm].
    intros m (i & j & a & b & _ & Ha & Hb & ->)%round_robin_elem. simpl.
    split_and!; try done; by eapply list_elem_of_lookup_2.
Qed.

(** ** Storing group results twice *)

Lemma update_match_loop_idempotent (df : list GroupMatch) :
  update_match_loop (update_match_loop df) = update_match_loop df.
Proof.
  rewrite !update_match_loop_fmap, <- list_fmap_compose.
  apply list_fmap_ext. intros i m _. by destruct m.
Qed.

(** X11.  [update_match_results] touches the table of its group only, and
    storing again the table it has just stored changes nothing. *)
Theorem update_match_results_idempotent (tm : TournamentManager)
    (group : string) (updated_df : list GroupMatch) :
  let tm1 := update_match_results tm group updated_df in
  (∀ stored, matches tm1 !! group = Some stored →
     update_match_results tm1 group stored = tm1) ∧
  (∀ other, other ≠ group → matches tm1 !! other = matches tm !! other) ∧
  groups tm1 = groups tm ∧ playoffs tm1 = playoffs tm ∧
  final_standings tm1 = final_standings tm.
Proof.
  intros tm1. subst tm1. unfold update_match_results. simpl.
  split_and!; try done.
  - intros stored. rewrite lookup_insert_eq. intros [= <-].
    by rewrite update_match_loop_idempotent, insert_insert_eq.
  - intros other Hne. by rewrite lookup_insert_ne.
Qed.

(** ** Completeness of the group stage *)

Lemma check_tables_nonempty (tables : list (list GroupMatch)) :
  Forall (λ df, df ≠ []) tables →
  check_tables tables = Some (bool_decide (Forall (Forall played) tables)).
Proof.
  induction 1 as [|df l Hdf _ IH]; simpl; [done|].
  rewrite decide_False by done.
  destruct (existsb _ df || existsb _ df) eqn:E.
  - rewrite bool_decide_eq_false_2; [done|].
    intros [Hp _]%Forall_cons. rewrite Forall_forall in Hp.
    apply orb_true_iff in E as [E|E]; apply existsb_exists in E as (m & Hm & Hn);
      apply bool_decide_eq_true in Hn; apply list_elem_of_In in Hm;
      destruct (Hp m Hm) as [[? ?] [? ?]]; congruence.
  - rewrite IH. apply orb_false_iff in E as [Ea Eb].
    f_equal. apply bool_decide_ext. rewrite Forall_cons.
    assert (Forall played df) as Hp; [|tauto].
    apply Forall_forall. intros m Hm%list_elem_of_In. split.
    + destruct (SetSquadra1 m) eqn:Em; [by eexists|].
      assert (existsb (λ m, bool_decide (SetSquadra1 m = None)) df = true)
        as Hx; [|congruence].
      apply existsb_exists. exists m. split; [done|]. by apply bool_decide_eq_true.
    + destruct (SetSquadra2 m) eqn:Em; [by eexists|].
      assert (existsb (λ m, bool_decide (SetSquadra2 m = None)) df = true)
        as Hx; [|congruence].
      apply existsb_exists. exists m. split; [done|]. by apply bool_decide_eq_true.
Qed.

Lemma check_tables_raises (tables : list (list GroupMatch)) :
  Forall (Forall played) tables → [] ∈ tables → check_tables tables = None.
Proof.
  induction 1 as [|df l Hdf _ IH]; intros Hin; [by apply elem_of_nil in Hin|].
  simpl. destruct (decide (df = [])) as [|Hne]; [done|].
  apply elem_of_cons in Hin as [|Hin]; [done|].
  assert (existsb (λ m, bool_decide (SetSquadra1 m = None)) df = false ∧
          existsb (λ m, bool_decide (SetSquadra2 m = None)) df = false)
    as [-> ->]; [|by apply IH].
  rewrite Forall_forall in Hdf.
  split; apply not_true_is_false; intros (m & Hm & Hn)%existsb_exists;
    apply bool_decide_eq_true in Hn; apply list_elem_of_In in Hm;
    destruct (Hdf m Hm) as [[? ?] [? ?]]; congruence.
Qed.

(** X12.  Whatever the order of the dictionary: without any table
    [check_groups_complete] answers false; when no table is empty it answers
    whether every match of every table has both scores. *)
Theorem check_groups_complete_scored (tm : TournamentManager)
    (items : list (string * list GroupMatch)) :
  items ≡ₚ map_to_list (matches tm) →
  (matches tm = ∅ → check_groups_complete items = Some false) ∧
  (matches tm ≠ ∅ →
   (∀ group matches_df, matches tm !! group = Some matches_df → matches_df ≠ []) →
   ∃ answer,
     check_groups_complete items = Some answer ∧
     (answer = true ↔
      ∀ group matches_df m,
        matches tm !! group = Some matches_df → m ∈ matches_df → played m)).
Proof.
  intros Hitems. unfold check_groups_complete. split.
  - intros E. rewrite E, map_to_list_empty in Hitems.
    apply Permutation_nil_r in Hitems. by rewrite decide_True.
  - intros Hne Hrows.
    assert (∀ g df, (g, df) ∈ items ↔ matches tm !! g = Some df) as Hin.
    { intros g df. by rewrite Hitems, elem_of_map_to_list. }
    rewrite decide_False.
    2:{ intros E. apply Hne. apply map_to_list_empty_iff.
        rewrite E in Hitems. by apply Permutation_nil_l in Hitems. }
    rewrite check_tables_nonempty.
    2:{ apply Forall_fmap, Forall_forall. intros [g df] Hgdf. simpl.
        apply (Hrows g). by apply Hin. }
    eexists. split; [done|]. rewrite bool_decide_eq_true. split.
    + intros Hall g df m Hg Hm. apply Hin in Hg.
      rewrite Forall_fmap, Forall_forall in Hall.
      specialize (Hall (g, df) Hg). simpl in Hall.
      rewrite Forall_forall in Hall. by apply Hall.
    + intros Hall. apply Forall_fmap, Forall_forall. intros [g df] Hg. simpl.
      apply Forall_forall. intros m Hm. apply (Hall g df m); [|done].
      by apply Hin.
Qed.

(** X13.  A group with fewer than two teams gets a table without rows from
    [generate_matches]; once every match of every table has both scores,
    such a table makes [check_groups_complete] raise, whatever the order of
    the dictionary. *)
Theorem check_groups_complete_raises (tm : TournamentManager)
    (items : list (string * list GroupMatch)) (group : string)
    (teams : list string) :
  NoDup (groups tm).*1 → (group, teams) ∈ groups tm → (length teams < 2)%nat →
  matches (generate_matches tm) !! group = Some [] ∧
  ∀ played_tm,
    items ≡ₚ map_to_list (matches played_tm) →
    matches played_tm !! group = Some [] →
    (∀ other matches_df m,
       matches played_tm !! other = Some matches_df → m ∈ matches_df → played m) →
    check_groups_complete items = None.
Proof.
  intros Hnd Hin Hlen. split.
  - rewrite (generate_matches_lookup tm group teams Hnd Hin).
    destruct teams as [|a [|b l]]; simpl in Hlen; [done|done|lia].
  - intros played_tm Hitems Hg Hall.
    assert ((group, []) ∈ items) as Hgi
      by by rewrite Hitems, elem_of_map_to_list.
    unfold check_groups_complete. rewrite decide_False
      by (intros E; rewrite E in Hgi; by apply elem_of_nil in Hgi).
    apply check_tables_raises.
    + apply Forall_fmap, Forall_forall. intros [g df] Hgdf. simpl.
      apply Forall_forall. intros m Hm. apply (Hall g df m); [|done].
      by rewrite Hitems, elem_of_map_to_list in Hgdf.
    + apply list_elem_of_fmap. by exists (group, []).
Qed.

(** ** More on the bracket *)

Lemma first_round_fresh (fase : string) (n : nat) (q : list Qualified) :
  Forall (λ m, pSetSquadra1 m = None ∧ pSetSquadra2 m = None ∧ pVincitore m = "")
         (first_round fase n q).
Proof.
  unfold first_round. apply Forall_forall. intros m Hm.
  apply list_elem_of_bind in Hm as (i & Hm & _).
  destruct (q !! i), (q !! (length q - 1 - i)%nat);
    try (by apply elem_of_nil in Hm).
  by apply list_elem_of_singleton in Hm as ->.
Qed.

Lemma build_phases_fresh (q : list Qualified) :
  Forall (λ m, pSetSquadra1 m = None ∧ pSetSquadra2 m = None ∧ pVincitore m = "")
         (build_phases q).
Proof.
  unfold build_phases. repeat case_decide.
  - apply Forall_app. split; [apply first_round_fresh|].
    by repeat constructor.
  - apply Forall_app. split; [apply first_round_fresh|].
    by repeat constructor.
  - destruct q as [|q0 [|q1 l]]; by repeat constructor.
Qed.

(** X14.  A bracket just built by [generate_playoffs] has every score unset
    and every winner field empty; it never counts as complete, and
    [generate_final_standings] leaves the manager as it is.  The groups and
    the match tables are those from before. *)
Theorem generate_playoffs_fresh (tm tm' : TournamentManager)
    (teams_advancing : nat) :
  generate_playoffs tm teams_advancing = Some tm' →
  Forall (λ m, pSetSquadra1 m = None ∧ pSetSquadra2 m = None ∧ pVincitore m = "")
         (playoffs tm') ∧
  check_playoffs_complete tm' = false ∧
  generate_final_standings tm' = Some tm' ∧
  groups tm' = groups tm ∧ matches tm' = matches tm ∧
  final_standings tm' = final_standings tm.
Proof.
  unfold generate_playoffs. intros H.
  apply bind_Some in H as (q & _ & [= <-]). simpl.
  pose proof (build_phases_fresh q) as Hfresh.
  assert (check_playoffs_complete
            (mkTournamentManager (groups tm) (matches tm) (build_phases q)
               (final_standings tm)) = false) as Hc.
  { unfold check_playoffs_complete. simpl.
    destruct (build_phases q) as [|m l]; [done|].
    rewrite decide_False by done.
    apply Forall_cons in Hfresh as [(E1 & _) _]. simpl. rewrite E1. done. }
  split_and!; try done.
  unfold generate_final_standings. rewrite Hc. simpl. by case_decide.
Qed.

(** What a group sends to the bracket. *)
Lemma qualified_of_group_spec (tm : TournamentManager) (teams_advancing : nat)
    (acc : list Qualified) (group : string) (teams : list string) :
  group_tables_sound tm → groups_lookup (groups tm) group = Some teams →
  ∃ rows,
    calculate_group_standings tm group = Some (Table rows) ∧
    Team <$> rows ≡ₚ teams ∧
    qualified_of_group tm teams_advancing acc group
    = Some (acc ++ group_qualifiers teams_advancing group rows).
Proof.
  intros Hsound Hg.
  destruct (calculate_group_standings_total tm group teams Hsound Hg)
    as (rows & Hrows & Hperm).
  exists rows. split_and!; try done.
  unfold qualified_of_group, group_qualifiers. by rewrite Hrows.
Qed.

Lemma group_qualifiers_names (teams_advancing : nat) (group : string)
    (rows : list Standing) :
  qualified_name <$> group_qualifiers teams_advancing group rows
  = take teams_advancing (Team <$> rows).
Proof.
  unfold group_qualifiers. apply list_eq. intros i.
  rewrite list_lookup_fmap, list_lookup_imap.
  by destruct (take teams_advancing (Team <$> rows) !! i).
Qed.

Lemma qualified_loop_spec (tm : TournamentManager) (teams_advancing : nat)
    (entries : list (string * list string)) (acc : list Qualified) :
  group_tables_sound tm →
  (∀ group teams, (group, teams) ∈ entries →
     groups_lookup (groups tm) group = Some teams) →
  ∃ tables q,
    Forall2 (λ e rows, calculate_group_standings tm e.1 = Some (Table rows))
            entries tables ∧
    q = concat (zip_with (λ e rows, group_qualifiers teams_advancing e.1 rows)
                         entries tables) ∧
    for_each (qualified_of_group tm teams_advancing) acc entries.*1
    = Some (acc ++ q) ∧
    length q
    = sum_list ((λ e : string * list string,
                   teams_advancing `min` length e.2)%nat <$> entries) ∧
    (∃ rest, (qualified_name <$> q) ++ rest ≡ₚ concat entries.*2).
Proof.
  intros Hsound. revert acc.
  induction entries as [|[g teams] l IH]; intros acc Hl.
  - exists [], []. rewrite app_nil_r. split_and!; try done. by exists [].
  - rewrite fmap_cons. cbn [for_each fst].
    destruct (qualified_of_group_spec tm teams_advancing acc g teams Hsound)
      as (rows & Hrows & Hperm & ->); [apply Hl; by left|].
    simpl. destruct (IH (acc ++ group_qualifiers teams_advancing g rows))
      as (tables & q & Htables & Eq & -> & Hq & rest2 & Hr2).
    { intros g' ts Hin. apply Hl. by right. }
    exists (rows :: tables), (group_qualifiers teams_advancing g rows ++ q).
    rewrite app_assoc. split_and!; [by constructor|by rewrite Eq|done| |].
    + unfold Qualified in *. rewrite length_app, Hq.
      rewrite <- (length_fmap qualified_name), group_qualifiers_names.
      by rewrite length_take, Hperm.
    + exists (drop teams_advancing (Team <$> rows) ++ rest2).
      rewrite fmap_app, group_qualifiers_names. simpl.
      rewrite <- Hperm, <- Hr2.
      rewrite <- (take_drop teams_advancing (Team <$> rows)) at 3.
      rewrite <- !app_assoc. apply Permutation_app_head.
      rewrite !app_assoc. apply Permutation_app_tail, Permutation_app_comm.
Qed.

(** X15.  On sound group tables (group labels pairwise different)
    [generate_playoffs] returns, and the bracket is built from this list of
    qualified teams: for each group in the order of the dictionary, the
    teams of the first [teams_advancing] rows of the group's standings (all
    rows when there are fewer), in the order of the standings, each with the
    group label and its rank.  So the number of qualified teams is the sum
    over the groups of [min(teams_advancing, size of the group)]; the
    qualified names are grouped teams, and pairwise different when no team is
    in two groups. *)
Theorem generate_playoffs_qualified (tm : TournamentManager)
    (teams_advancing : nat) :
  group_tables_sound tm → NoDup (groups tm).*1 →
  ∃ tables q tm',
    Forall2 (λ e rows, calculate_group_standings tm e.1 = Some (Table rows))
            (groups tm) tables ∧
    q = concat (zip_with (λ e rows, group_qualifiers teams_advancing e.1 rows)
                         (groups tm) tables) ∧
    qualified_teams_of tm teams_advancing = Some q ∧
    generate_playoffs tm teams_advancing = Some tm' ∧
    playoffs tm' = build_phases q ∧
    length q
    = sum_list ((λ e : string * list string,
                   teams_advancing `min` length e.2)%nat <$> groups tm) ∧
    (∀ x, x ∈ q → qualified_name x ∈ concat (groups tm).*2) ∧
    (NoDup (concat (groups tm).*2) → NoDup (qualified_name <$> q)).
Proof.
  intros Hsound Hnd.
  destruct (qualified_loop_spec tm teams_advancing (groups tm) [] Hsound)
    as (tables & q & Htables & Eq & Hq & Hlen & rest & Hperm).
  { intros g ts Hin. by apply groups_lookup_elem. }
  exists tables, q. eexists. unfold generate_playoffs, qualified_teams_of.
  rewrite Hq. simpl. split_and!; try done.
  - intros x Hx. rewrite <- Hperm. apply elem_of_app. left.
    apply list_elem_of_fmap. by exists x.
  - intros Hall. rewrite <- Hperm in Hall. by apply NoDup_app in Hall as (? & _).
Qed.

(** ** More on the stored bracket *)

(** Induction over the loop of [update_playoff_results]: a property of the
    frame that holds at the start and is kept by the body, run on a row
    with the phase and the scores of the supplied row, holds at the end. *)
Lemma update_playoff_loop_ind (access : RowAccess) (df : list PlayoffMatch)
    (I : nat → list PlayoffMatch → Prop) :
  I 0%nat df →
  (∀ idx row r r0 p p',
     df !! idx = Some r → p !! idx = Some r0 →
     Fase r0 = Fase r → pSetSquadra1 r0 = pSetSquadra1 r →
     pSetSquadra2 r0 = pSetSquadra2 r →
     row = match access with RowCopy => r | RowView => r0 end →
     I idx p → playoff_row idx row p = Some p' → I (S idx) p') →
  ∀ p, update_playoff_loop access df = Some p → I (length df) p.
Proof.
  intros Hstart Hstep. unfold update_playoff_loop.
  set (body := λ (p : list PlayoffMatch) (idx : nat),
         match access with RowCopy => df | RowView => p end !! idx
         ≫= λ row, playoff_row idx row p).
  assert (∀ m k p, (k + m = length df)%nat → loop_inv df p k → I k p →
            ∀ p', for_each body p (seq k m) = Some p' → I (length df) p')
    as Hloop.
  { induction m as [|m IH]; intros k p Hk Hinv Hi p' Hp'.
    - injection Hp' as <-. by replace (length df) with k by lia.
    - cbn [seq for_each] in Hp'. destruct Hinv as [Hlen Hinv].
      destruct (lookup_lt_is_Some_2 df k) as [r Hr]; [lia|].
      destruct (Hinv k r Hr) as (r0 & Hr0 & Hf0 & Ha0 & Hb0 & _).
      set (row := match access with RowCopy => r | RowView => r0 end).
      assert (match access with RowCopy => df | RowView => p end !! k = Some row)
        as Hrow by (unfold row; by destruct access).
      assert (Fase r0 = Fase row ∧ pSetSquadra1 row = pSetSquadra1 r ∧
              pSetSquadra2 row = pSetSquadra2 r) as (Hfr & Har & Hbr)
        by (unfold row; by destruct access).
      assert (body p k = playoff_row k row p) as Hb
        by (unfold body; by rewrite Hrow).
      rewrite Hb in Hp'.
      destruct (playoff_row_static k row r0 p Hr0 Hfr) as (p1 & Hp1 & Hlen1 & Hst).
      rewrite Hp1 in Hp'. simpl in Hp'.
      apply (IH (S k) p1); [lia| |by eapply (Hstep k row r r0 p p1)|done].
      split; [congruence|].
      intros j x Hx. destruct (Hinv j x Hx) as (x0 & Hx0 & Hf & Ha & Hb' & Hw).
      destruct (Hst j x0 Hx0) as (x' & Hx' & Hf' & Ha' & Hb'' & Hw').
      exists x'. split_and!; try congruence.
      intros Hj. destruct (decide (j = k)) as [->|Hne].
      + exists row. assert (x = r) as -> by congruence. done.
      + destruct Hw as (row' & ? & ? & ?); [lia|].
        exists row'. split_and!; congruence. }
  intros p Hp. apply (Hloop (length df) 0%nat df); try done.
  split; [done|]. intros j r Hr. exists r. split_and!; try done. lia.
Qed.

Lemma check_playoffs_complete_columns (tm1 tm2 : TournamentManager) :
  pSetSquadra1 <$> playoffs tm1 = pSetSquadra1 <$> playoffs tm2 →
  pSetSquadra2 <$> playoffs tm1 = pSetSquadra2 <$> playoffs tm2 →
  check_playoffs_complete tm1 = check_playoffs_complete tm2.
Proof.
  intros E1 E2. unfold check_playoffs_complete.
  assert (∀ (c : PlayoffMatch → option Z) l,
            existsb (λ r, bool_decide (c r = None)) l
            = existsb (λ o, bool_decide (o = None)) (c <$> l)) as Hex.
  { intros c l. induction l as [|x l IH]; [done|]. simpl. by rewrite IH. }
  rewrite !(Hex pSetSquadra1), !(Hex pSetSquadra2), E1, E2.
  destruct (playoffs tm1) as [|x1 l1], (playoffs tm2) as [|x2 l2]; done.
Qed.

(** X16.  [update_playoff_results] always returns.  The stored bracket has
    the rows of the supplied table with the same phases and the same
    scores, so it counts as complete exactly when the supplied table has a
    row and no score is missing; groups, match tables and final standings
    are not touched. *)
Theorem update_playoff_results_frame (access : RowAccess)
    (tm : TournamentManager) (df : list PlayoffMatch) :
  ∃ tm',
    update_playoff_results access tm df = Some tm' ∧
    groups tm' = groups tm ∧ matches tm' = matches tm ∧
    final_standings tm' = final_standings tm ∧
    length (playoffs tm') = length df ∧
    Fase <$> playoffs tm' = Fase <$> df ∧
    pSetSquadra1 <$> playoffs tm' = pSetSquadra1 <$> df ∧
    pSetSquadra2 <$> playoffs tm' = pSetSquadra2 <$> df ∧
    check_playoffs_complete tm'
    = bool_decide (df ≠ [] ∧
                   Forall (λ r, is_Some (pSetSquadra1 r) ∧
                                is_Some (pSetSquadra2 r)) df).
Proof.
  destruct (update_playoff_results_stored access tm df)
    as (tm' & Hu & Hg & Hm & Hlen & Hinv).
  assert (∀ (C : Type) (c : PlayoffMatch → C),
            (∀ r r', Fase r' = Fase r → pSetSquadra1 r' = pSetSquadra1 r →
                     pSetSquadra2 r' = pSetSquadra2 r → c r' = c r) →
            c <$> playoffs tm' = c <$> df) as Hcol.
  { intros C c Hc. apply list_eq. intros j. rewrite !list_lookup_fmap.
    destruct (df !! j) as [r|] eqn:Er.
    - destruct (Hinv j r Er) as (r' & -> & Hf & Ha & Hb & _). simpl.
      f_equal. by apply Hc.
    - rewrite lookup_ge_None_2; [done|]. rewrite Hlen. by apply lookup_ge_None. }
  exists tm'. split_and!; try done.
  - unfold update_playoff_results in Hu.
    apply bind_Some in Hu as (p & _ & [= <-]). done.
  - by apply (Hcol _ Fase).
  - by apply (Hcol _ pSetSquadra1).
  - by apply (Hcol _ pSetSquadra2).
  - rewrite (check_playoffs_complete_columns tm'
               (mkTournamentManager (groups tm) (matches tm) df (final_standings tm)))
      by (simpl; by (apply (Hcol _ pSetSquadra1) || apply (Hcol _ pSetSquadra2))).
    unfold check_playoffs_complete. simpl.
    destruct (decide (df = [])) as [->|Hne].
    { symmetry. apply bool_decide_eq_false. by intros [? _]. }
    destruct (existsb _ df || existsb _ df) eqn:E; simpl; symmetry.
    + apply bool_decide_eq_false. intros [_ Hall]. rewrite Forall_forall in Hall.
      apply orb_true_iff in E as [E|E]; apply existsb_exists in E as (m & Hm' & Hn);
        apply bool_decide_eq_true in Hn; apply list_elem_of_In in Hm';
        destruct (Hall m Hm') as [[? ?] [? ?]]; congruence.
    + apply bool_decide_eq_true. split; [done|].
      apply orb_false_iff in E as [Ea Eb].
      apply Forall_forall. intros m Hm'%list_elem_of_In. split.
      * destruct (pSetSquadra1 m) eqn:Em; [by eexists|].
        assert (existsb (λ r, bool_decide (pSetSquadra1 r = None)) df = true)
          as Hx; [|congruence].
        apply existsb_exists. exists m. split; [done|].
        by apply bool_decide_eq_true.
      * destruct (pSetSquadra2 m) eqn:Em; [by eexists|].
        assert (existsb (λ r, bool_decide (pSetSquadra2 r = None)) df = true)
          as Hx; [|congruence].
        apply existsb_exists. exists m. split; [done|].
        by apply bool_decide_eq_true.
Qed.

(** What the loop body does to a stored row whose phase is none of
    "Semifinals", "Finals" and "Third Place": only its winner field is
    written, and only when it is the visited row. *)
Lemma playoff_row_first_round (idx j : nat) (row r0 x : PlayoffMatch)
    (p p' : list PlayoffMatch) :
  p !! idx = Some r0 → Fase r0 = Fase row →
  playoff_row idx row p = Some p' →
  p !! j = Some x →
  Fase x ≠ "Semifinals" → Fase x ≠ "Finals" → Fase x ≠ "Third Place" →
  p' !! j
  = Some (if decide (j = idx) then set_pVincitore (recorded_winner row) x else x).
Proof.
  intros Hr0 Hfase Hp' Hx Hs Hf Ht.
  assert (∀ w, ∃ x', alter (set_pVincitore w) idx p !! j = Some x' ∧
                 Fase x' = Fase x ∧
                 x' = if decide (j = idx) then set_pVincitore w x else x)
    as Halter.
  { intros w. destruct (decide (j = idx)) as [->|Hne].
    - rewrite list_lookup_alter_eq, Hx. simpl. by eexists.
    - rewrite list_lookup_alter_ne by done. by eexists. }
  revert Hp'. unfold recorded_winner.
  destruct (pSetSquadra1 row) as [s1|] eqn:E1;
    [destruct (pSetSquadra2 row) as [s2|] eqn:E2|].
  - destruct (Halter (winner_loser row s1 s2).1) as (x' & Hx' & Hfx & ->).
    destruct (decide (Fase row = "Quarterfinals")) as [Hq|Hq];
      [|destruct (decide (Fase row = "Semifinals")) as [Hs'|Hs']].
    + rewrite (playoff_row_quarterfinal idx row p s1 s2) by done.
      intros [= <-]. rewrite list_lookup_fmap, Hx'. simpl.
      by rewrite substituted_other_phase by congruence.
    + destruct (list_find (λ r, Fase r = "Semifinals") p) as [[first_sf y]|] eqn:Ef.
      2:{ apply list_find_None in Ef. rewrite Forall_forall in Ef.
          destruct (Ef r0); [by eapply list_elem_of_lookup_2|congruence]. }
      rewrite (playoff_row_semifinal idx first_sf row p s1 s2)
        by (done || by rewrite Ef).
      intros [= <-]. rewrite !list_lookup_fmap, Hx'. simpl.
      rewrite (substituted_other_phase "Finals") by congruence.
      by rewrite substituted_other_phase by congruence.
    + rewrite (playoff_row_other idx row p s1 s2) by done.
      intros [= <-]. done.
  - rewrite playoff_row_unscored by auto. intros [= <-].
    destruct (Halter "") as (x' & Hx' & _ & ->). done.
  - rewrite playoff_row_unscored by auto. intros [= <-].
    destruct (Halter "") as (x' & Hx' & _ & ->). done.
Qed.

(** X17.  A row of the supplied table whose phase is none of "Semifinals",
    "Finals" and "Third Place" (a Quarterfinal, say) is stored with its
    own sides and scores, and its winner field is computed from them: the
    side with more sets, the empty string when the sets are level or a
    score is missing.  What the other rows hold, and what was written in
    the winner field before, has no influence. *)
Theorem update_playoff_results_first_round (access : RowAccess)
    (tm tm' : TournamentManager) (df : list PlayoffMatch) (j : nat)
    (r : PlayoffMatch) :
  update_playoff_results access tm df = Some tm' →
  df !! j = Some r →
  Fase r ≠ "Semifinals" → Fase r ≠ "Finals" → Fase r ≠ "Third Place" →
  playoffs tm' !! j = Some (set_pVincitore (recorded_winner r) r).
Proof.
  intros Hu Hr Hs Hf Ht. unfold update_playoff_results in Hu.
  apply bind_Some in Hu as (p & Hp & [= <-]). simpl.
  pose (I := λ (k : nat) (p : list PlayoffMatch),
          ∀ j r, df !! j = Some r →
            Fase r ≠ "Semifinals" → Fase r ≠ "Finals" → Fase r ≠ "Third Place" →
            p !! j = Some (if decide (j < k)%nat
                           then set_pVincitore (recorded_winner r) r else r)).
  assert (I (length df) p) as Hend.
  { apply (update_playoff_loop_ind access df I); [| |done].
    - intros i x Hx _ _ _. by rewrite decide_False by lia.
    - clear. intros idx row r r0 p p' Hr Hr0 Hfase Ha Hb -> Hi Hp' j x Hx Hs Hf Ht.
      pose proof (Hi j x Hx Hs Hf Ht) as Hj.
      assert (Fase (if decide (j < idx)%nat
                    then set_pVincitore (recorded_winner x) x else x) = Fase x)
        as Hfx by (by case_decide).
      assert (Fase r0 = Fase match access with RowCopy => r | RowView => r0 end)
        as Hfr by (by destruct access).
      rewrite (playoff_row_first_round idx j _ r0 _ p p' Hr0 Hfr Hp' Hj)
        by congruence.
      f_equal. destruct (decide (j = idx)) as [->|Hne].
      + rewrite decide_False by lia. rewrite decide_True by lia.
        assert (x = r) as -> by congruence.
        assert (r0 = r) as -> by (rewrite decide_False in Hj by lia; congruence).
        by destruct access.
      + destruct (decide (j < idx)%nat).
        * by rewrite decide_True by lia.
        * by rewrite decide_False by lia. }
  rewrite (Hend j r Hr Hs Hf Ht).
  rewrite decide_True; [done|]. by eapply lookup_lt_Some.
Qed.

(** X18.  Storing a table in which no row has both scores changes no team
    name and no score: the stored bracket is the supplied table with the
    winner column emptied. *)
Theorem update_playoff_results_unscored (access : RowAccess)
    (tm : TournamentManager) (df : list PlayoffMatch) :
  Forall (λ r, pSetSquadra1 r = None ∨ pSetSquadra2 r = None) df →
  update_playoff_results access tm df
  = Some (mkTournamentManager (groups tm) (matches tm)
            (set_pVincitore "" <$> df) (final_standings tm)).
Proof.
  intros Hall. rewrite Forall_forall in Hall.
  destruct (update_playoff_results_stored access tm df) as (tm' & Hu & _).
  rewrite Hu. unfold update_playoff_results in Hu.
  apply bind_Some in Hu as (p & Hp & [= <-]). do 2 f_equal.
  pose (I := λ (k : nat) (p : list PlayoffMatch),
          p = (set_pVincitore "" <$> take k df) ++ drop k df).
  assert (I (length df) p) as Hend.
  { apply (update_playoff_loop_ind access df I); [done| |done].
    intros idx row r r0 q q' Hr Hr0 Hfase Ha Hb -> Hi Hq'.
    rewrite playoff_row_unscored in Hq'.
    2:{ destruct (Hall r) as [H|H]; [by eapply list_elem_of_lookup_2| |];
          [left|right]; destruct access; congruence. }
    injection Hq' as <-. unfold I in *. rewrite Hi.
    rewrite (take_S_r _ _ _ Hr), (drop_S _ _ _ Hr), fmap_app, <- app_assoc.
    assert (idx = (length (set_pVincitore "" <$> take idx df) + 0)%nat) as Hidx.
    { rewrite length_fmap, length_take. apply lookup_lt_Some in Hr. lia. }
    rewrite Hidx at 1. by rewrite alter_app_r. }
  unfold I in Hend. by rewrite firstn_all, drop_all, app_nil_r in Hend.
Qed.

Lemma first_round_phase (fase : string) (n : nat) (q : list Qualified)
    (m : PlayoffMatch) :
  m ∈ first_round fase n q → Fase m = fase.
Proof.
  unfold first_round. intros Hm. apply list_elem_of_bind in Hm as (i & Hm & _).
  destruct (q !! i), (q !! (length q - 1 - i)%nat);
    try (by apply elem_of_nil in Hm).
  by apply list_elem_of_singleton in Hm as ->.
Qed.

(** A bracket built by [generate_playoffs] is empty or has a Final. *)
Lemma build_phases_finals (q : list Qualified) :
  build_phases q ≠ [] → "Finals" ∈ Fase <$> build_phases q.
Proof.
  unfold build_phases. repeat case_decide.
  - intros _. rewrite fmap_app. apply elem_of_app. right.
    apply list_elem_of_In. simpl. tauto.
  - intros _. rewrite fmap_app. apply elem_of_app. right.
    apply list_elem_of_In. simpl. tauto.
  - destruct q as [|q0 [|q1 q]]; try done. intros _.
    apply list_elem_of_In. simpl. tauto.
Qed.

Lemma head_filter_phase (fase : string) (p : list PlayoffMatch) :
  fase ∈ Fase <$> p → is_Some (head (filter (λ r, Fase r = fase) p)).
Proof.
  intros (m & Hf & Hm)%list_elem_of_fmap.
  destruct (filter (λ r, Fase r = fase) p) as [|y l] eqn:E; [|by eexists].
  assert (m ∈ filter (λ r, Fase r = fase) p) as Hin
    by (by apply list_elem_of_filter).
  rewrite E in Hin. by apply elem_of_nil in Hin.
Qed.

(** X19.  On a bracket built by [generate_playoffs] and stored again by
    [update_playoff_results] from a table with the same phase column,
    [generate_final_standings] never raises when the group tables are
    sound.  While a score is missing it leaves the manager as it is; once
    all scores are there the ranking starts with the Final's recorded
    winner and the Final's other side, and holds every team of every
    group. *)
Theorem generate_final_standings_returns (access : RowAccess)
    (tm tm1 tm2 : TournamentManager) (teams_advancing : nat)
    (df : list PlayoffMatch) :
  group_tables_sound tm →
  generate_playoffs tm teams_advancing = Some tm1 →
  Fase <$> df = Fase <$> playoffs tm1 →
  update_playoff_results access tm1 df = Some tm2 →
  ∃ tm3,
    generate_final_standings tm2 = Some tm3 ∧
    groups tm3 = groups tm ∧ matches tm3 = matches tm ∧
    playoffs tm3 = playoffs tm2 ∧
    if check_playoffs_complete tm2 then
      (∃ f rest,
         head (filter (λ r, Fase r = "Finals") (playoffs tm2)) = Some f ∧
         final_standings tm3 = (1, pVincitore f) :: (2, other_side f) :: rest) ∧
      ∀ t, grouped tm t → t ∈ (final_standings tm3).*2
    else tm3 = tm2.
Proof.
  intros Hsound Hg Hcol Hu.
  unfold generate_playoffs in Hg. apply bind_Some in Hg as (q & _ & [= <-]).
  simpl in Hcol.
  destruct (update_playoff_results_stored access
              (mkTournamentManager (groups tm) (matches tm) (build_phases q)
                 (final_standings tm)) df)
    as (tm2' & Hu' & Hg2 & Hm2 & Hlen & Hinv).
  assert (tm2' = tm2) as -> by congruence. simpl in Hg2, Hm2.
  assert (Fase <$> playoffs tm2 = Fase <$> build_phases q) as Hphases.
  { rewrite <- Hcol. apply list_eq. intros j. rewrite !list_lookup_fmap.
    destruct (df !! j) as [r|] eqn:Er.
    - destruct (Hinv j r Er) as (r' & -> & Hf & _). simpl. by f_equal.
    - rewrite lookup_ge_None_2; [done|]. rewrite Hlen. by apply lookup_ge_None. }
  assert (group_tables_sound tm2) as Hsound2.
  { unfold group_tables_sound. by rewrite Hg2, Hm2. }
  destruct (check_playoffs_complete tm2) eqn:Hc.
  - assert (playoffs tm2 ≠ []) as Hne.
    { unfold check_playoffs_complete in Hc. by case_decide. }
    destruct (head_filter_phase "Finals" (playoffs tm2)) as [f Hf].
    { rewrite Hphases. apply build_phases_finals. intros E.
      rewrite E in Hphases. by apply fmap_nil_inv in Hphases. }
    destruct (bracket_positions_head (playoffs tm2) f Hf) as [rest Hpos].
    destruct (generate_final_standings_total tm2 _ Hne Hc Hpos Hsound2)
      as (tm3 & Hgen & [more Hpre] & Hnames & _).
    exists tm3. split; [done|].
    unfold generate_final_standings in Hgen.
    rewrite decide_False, Hc in Hgen by done. simpl in Hgen.
    apply bind_Some in Hgen as (? & _ & Hgen).
    apply bind_Some in Hgen as (acc & _ & [= <-]). simpl in *.
    split_and!; try done.
    + exists f, (rest ++ more). by rewrite Hpre.
    + intros t Ht. apply Hnames. right.
      destruct Ht as (g & ts & Hl & Hin). exists g, ts. by rewrite Hg2.
  - exists tm2. split_and!; try done.
    unfold generate_final_standings. rewrite Hc. simpl. by case_decide.
Qed.

(** ** The further statements at the example tournament *)

Lemma add_team_unique_witness :
  NoDup (NomeSquadra <$> (add_team example_roster "T3" "" "" "No" "").2) ∧
  (add_team example_roster "T3" "" "" "No" "").1 = false.
Proof.
  destruct (add_team_unique example_roster "T3" "" "" "No" "")
    as (Hnd & Hiff & _).
  - apply (bool_decide_unpack _). vm_compute. reflexivity.
  - split; [exact Hnd|]. apply Hiff.
    apply (bool_decide_unpack _). vm_compute. reflexivity.
Defined.

Lemma create_groups_slices_witness :
  groups example_created
  = [("A", ["T5"; "T4"]); ("B", ["T3"; "T2"]); ("C", ["T1"])] ∧
  NoDup (groups example_created).*1.
Proof.
  destruct (create_groups_slices reverse example_roster initial_manager 3 2)
    as (Hg & Hnd & _); [lia|].
  split; [exact Hg|exact Hnd].
Defined.

Lemma create_groups_partition_witness :
  NoDup (concat (groups example_created).*2) ∧
  length (concat (groups example_created).*2) = 5%nat.
Proof.
  destruct (create_groups_partition reverse example_roster initial_manager 3 2)
    as (_ & Hnd & _ & _ & Hlen).
  - lia.
  - intros l. apply reverse_Permutation.
  - apply (bool_decide_unpack _). vm_compute. reflexivity.
  - split; [exact Hnd|exact Hlen].
Defined.

Lemma calculate_group_standings_returns_witness :
  ∃ rows, calculate_group_standings example_group_stage "A" = Some (Table rows).
Proof.
  destruct (calculate_group_standings_returns example_group_stage "A"
              ["T1"; "T2"; "T3"; "T4"]
              (default [] (matches example_group_stage !! "A")))
    as [[_ Hret] _].
  - reflexivity.
  - vm_compute. reflexivity.
  - apply Hret. intros m Hm _. revert m Hm. apply Forall_forall.
    apply (bool_decide_unpack _). vm_compute. reflexivity.
Defined.

Lemma calculate_group_standings_totals_witness :
  let rows := [ mkStanding "T1" 3 3 0 9 3 9; mkStanding "T2" 3 1 2 5 6 4;
                mkStanding "T4" 3 1 2 6 8 4; mkStanding "T3" 3 1 2 4 7 3 ] in
  total Wins rows = total Losses rows ∧
  total SetsWon rows = total SetsLost rows ∧
  total MatchesPlayed rows = 12.
Proof.
  intros rows.
  destruct (calculate_group_standings_totals example_group_stage "A" rows
              (default [] (matches example_group_stage !! "A")))
    as (Hw & Hs & Hp); [vm_compute; reflexivity|vm_compute; reflexivity|].
  split; [exact Hw|]. split; [exact Hs|exact Hp].
Defined.

Lemma calculate_group_standings_consistent_witness :
  let r := mkStanding "T2" 3 1 2 5 6 4 in
  0 ≤ Wins r ∧ 0 ≤ Losses r ∧
  Wins r + Losses r ≤ MatchesPlayed r ∧
  3 * Wins r ≤ Points r ≤ 3 * Wins r + Losses r.
Proof.
  apply (calculate_group_standings_consistent example_group_stage "A"
           [ mkStanding "T1" 3 3 0 9 3 9; mkStanding "T2" 3 1 2 5 6 4;
             mkStanding "T4" 3 1 2 6 8 4; mkStanding "T3" 3 1 2 4 7 3 ]).
  - vm_compute. reflexivity.
  - apply (bool_decide_unpack _). vm_compute. reflexivity.
Defined.

Lemma calculate_group_standings_played_only_witness :
  calculate_group_standings
    (with_table example_first_result "A"
       (filter played (default [] (matches example_first_result !! "A")))) "A"
  = calculate_group_standings example_first_result "A".
Proof.
  apply (calculate_group_standings_played_only example_first_result "A").
  vm_compute. reflexivity.
Defined.

Lemma standings_row_draw_witness :
  ∃ standings',
    standings_row (initial_standings ["T1"; "T2"; "T3"])
                  (mkGroupMatch "T1" "T2" (Some 2) (Some 2) "") = Some standings' ∧
    cell Points standings' "T1" = Some 0 ∧
    cell MatchesPlayed standings' "T1" = Some 1 ∧
    cell SetsWon standings' "T2" = Some 2.
Proof.
  destruct (standings_row_draw (initial_standings ["T1"; "T2"; "T3"])
              (mkGroupMatch "T1" "T2" (Some 2) (Some 2) "") 2)
    as (standings' & Hrow & Hsame & Hboth).
  - reflexivity.
  - reflexivity.
  - discriminate.
  - apply (bool_decide_unpack _). vm_compute. reflexivity.
  - apply (bool_decide_unpack _). vm_compute. reflexivity.
  - exists standings'. split; [exact Hrow|].
    destruct (Hsame "T1") as (Hp & _).
    destruct (Hboth "T1") as (Hm & _); [left; reflexivity|].
    destruct (Hboth "T2") as (_ & Hw & _); [right; reflexivity|].
    split; [rewrite Hp; reflexivity|].
    split; [rewrite Hm; reflexivity|rewrite Hw; reflexivity].
Defined.

Lemma generate_matches_standings_witness :
  group_tables_sound example_scheduled ∧
  ∃ matches_df rows,
    matches example_scheduled !! "A" = Some matches_df ∧
    Forall (λ m, Squadra1 m ∈ ["T1"; "T2"; "T3"; "T4"] ∧
                 Squadra2 m ∈ ["T1"; "T2"; "T3"; "T4"] ∧
                 SetSquadra1 m = None ∧ SetSquadra2 m = None) matches_df ∧
    calculate_group_standings example_scheduled "A" = Some (Table rows) ∧
    rows ≡ₚ (λ t, mkStanding t 0 0 0 0 0 0) <$> ["T1"; "T2"; "T3"; "T4"].
Proof.
  destruct (generate_matches_standings (mkTournamentManager example_groups ∅ [] []))
    as [Hsound Hrows].
  - apply (bool_decide_unpack _). vm_compute. reflexivity.
  - split; [exact Hsound|].
    destruct (Hrows "A" ["T1"; "T2"; "T3"; "T4"])
      as (matches_df & rows & Hdf & Hall & Hcalc & Hperm).
    + apply (bool_decide_unpack _). vm_compute. reflexivity.
    + exists matches_df, rows. split; [exact Hdf|].
      split; [apply Forall_forall; exact Hall|].
      split; [exact Hcalc|exact Hperm].
Defined.

Lemma check_groups_complete_scored_witness :
  ∃ answer,
    check_groups_complete (map_to_list (matches example_group_stage))
    = Some answer.
Proof.
  destruct (check_groups_complete_scored example_group_stage
              (map_to_list (matches example_group_stage)))
    as [_ Hscored]; [reflexivity|].
  destruct Hscored as (answer & Hanswer & _).
  - intros E. apply (f_equal (λ m, m !! "A")) in E.
    vm_compute in E. discriminate.
  - assert (Forall (λ e : string * list GroupMatch, e.2 ≠ [])
              (map_to_list (matches example_group_stage))) as Hall
      by (apply (bool_decide_unpack _); vm_compute; reflexivity).
    intros group matches_df Hdf. apply elem_of_map_to_list in Hdf.
    apply (proj1 (Forall_forall _ _) Hall (group, matches_df) Hdf).
  - exists answer. exact Hanswer.
Defined.

Lemma check_groups_complete_raises_witness :
  matches (generate_matches example_created) !! "C" = Some [] ∧
  check_groups_complete (map_to_list (matches example_odd_stage)) = None.
Proof.
  destruct (check_groups_complete_raises example_created
              (map_to_list (matches example_odd_stage)) "C" ["T1"])
    as [Hempty Hraises].
  - apply (bool_decide_unpack _). vm_compute. reflexivity.
  - apply (bool_decide_unpack _). vm_compute. reflexivity.
  - simpl. lia.
  - split; [exact Hempty|].
    apply (Hraises example_odd_stage).
    + reflexivity.
    + vm_compute. reflexivity.
    + assert (Forall (λ e : string * list GroupMatch, Forall played e.2)
                (map_to_list (matches example_odd_stage))) as Hall
        by (apply (bool_decide_unpack _); vm_compute; reflexivity).
      intros other matches_df m Hdf Hm. apply elem_of_map_to_list in Hdf.
      pose proof (proj1 (Forall_forall _ _) Hall (other, matches_df) Hdf) as Hdf'.
      apply (proj1 (Forall_forall _ _) Hdf' m Hm).
Defined.

Lemma generate_playoffs_fresh_witness :
  check_playoffs_complete example_bracket4 = false ∧
  generate_final_standings example_bracket4 = Some example_bracket4.
Proof.
  destruct (generate_playoffs_fresh example_group_stage example_bracket4 2)
    as (_ & Hc & Hf & _); [vm_compute; reflexivity|].
  split; [exact Hc|exact Hf].
Defined.

Lemma generate_playoffs_qualified_witness :
  ∃ tables q tm',
    Forall2 (λ e rows,
               calculate_group_standings example_group_stage e.1
               = Some (Table rows))
            (groups example_group_stage) tables ∧
    q = concat (zip_with (λ e rows, group_qualifiers 2 e.1 rows)
                         (groups example_group_stage) tables) ∧
    generate_playoffs example_group_stage 2 = Some tm' ∧
    playoffs tm' = build_phases q ∧ length q = 4%nat.
Proof.
  destruct (generate_playoffs_qualified example_group_stage 2)
    as (tables & q & tm' & Htables & Eq & _ & Hg & Hp & Hlen & _).
  - apply tables_checked_sound. vm_compute. reflexivity.
  - apply (bool_decide_unpack _). vm_compute. reflexivity.
  - exists tables, q, tm'. split; [exact Htables|]. split; [exact Eq|].
    split; [exact Hg|]. split; [exact Hp|exact Hlen].
Defined.

Lemma update_playoff_results_first_round_witness :
  playoffs (default initial_manager
              (update_playoff_results RowView initial_manager
                 example_doubled_label)) !! 0%nat
  = Some (mkPlayoffMatch "Quarterfinals" "A" "B" (Some 3) (Some 1) "A").
Proof.
  apply (update_playoff_results_first_round RowView initial_manager _
           example_doubled_label 0
           (mkPlayoffMatch "Quarterfinals" "A" "B" (Some 3) (Some 1) "")).
  - vm_compute. reflexivity.
  - reflexivity.
  - discriminate.
  - discriminate.
  - discriminate.
Defined.

Lemma update_playoff_results_unscored_witness :
  playoffs <$> update_playoff_results RowView example_bracket4
                 (playoffs example_bracket4)
  = Some (playoffs example_bracket4).
Proof.
  rewrite (update_playoff_results_unscored RowView example_bracket4
             (playoffs example_bracket4)).
  - vm_compute. reflexivity.
  - apply (bool_decide_unpack _). vm_compute. reflexivity.
Defined.

Lemma generate_final_standings_returns_witness :
  ∃ tm3, generate_final_standings (example_level_final RowCopy) = Some tm3 ∧
         groups tm3 = groups example_group_stage.
Proof.
  destruct (generate_final_standings_returns RowCopy example_group_stage
              example_bracket4 (example_level_final RowCopy) 2
              example_level_entries)
    as (tm3 & Hgen & Hg & _).
  - apply tables_checked_sound. vm_compute. reflexivity.
  - vm_compute. reflexivity.
  - vm_compute. reflexivity.
  - vm_compute. reflexivity.
  - exists tm3. split; [exact Hgen|exact Hg].
Defined.
